(** * LaunchConditions: the task tree, its file codec and status roll-up

    A shallow embedding of [launchconditions.py]: the [Task] objects live in
    a store indexed by reference, because the parser, [propagate_up] and the
    editing actions all reach one object through several paths (the
    [children] list of its parent, the depth stack, the [parent] link).

    Python strings are sequences of Unicode code points; the library
    functions the program calls ([str.strip], [str.split], [re.match],
    [readlines]) are written out here as their documentation describes
    them.  The interpreter's recursion limit and memory bounds are not
    modelled: recursion over the tree takes a budget that is shown to be
    sufficient. *)

From Stdlib Require Import String Ascii NArith ZArith Lia DecimalString.
From stdpp Require Import base numbers option list sets.

Local Open Scope nat_scope.

(** ** Python strings *)

Module PyStr.

Abbreviation char := N (only parsing).
Abbreviation str := (list N) (only parsing).

(** A literal of the source text. *)
Definition lit (s : string) : str := N_of_ascii <$> list_ascii_of_string s.

Definition nl : char := 10%N.
Definition cr : char := 13%N.
Definition tab : char := 9%N.
Definition sp : char := 32%N.
Definition colon : char := 58%N.
Definition hash : char := 35%N.

(** [str.isspace] on one code point, which is also what [\s] matches in a
    [str] pattern and what [str.strip()] removes. *)
Definition isspace (c : char) : bool :=
  ((9 <=? c) && (c <=? 13) || (28 <=? c) && (c <=? 32)
   || (c =? 133) || (c =? 160) || (c =? 5760)
   || (8192 <=? c) && (c <=? 8202)
   || (c =? 8232) || (c =? 8233) || (c =? 8239) || (c =? 8287)
   || (c =? 12288))%N.

Fixpoint drop_while (p : char → bool) (s : str) : str :=
  match s with
  | [] => []
  | c :: s' => if p c then drop_while p s' else s
  end.

Fixpoint take_while (p : char → bool) (s : str) : str :=
  match s with
  | [] => []
  | c :: s' => if p c then c :: take_while p s' else []
  end.

Definition rstrip_by (p : char → bool) (s : str) : str :=
  reverse (drop_while p (reverse s)).

(** [s.rstrip] of line feeds *)
Definition rstrip_nl (s : str) : str := rstrip_by (N.eqb nl) s.

(** [s.strip()] *)
Definition strip (s : str) : str := rstrip_by isspace (drop_while isspace s).

(** [s.startswith(p)] *)
Fixpoint startswith (p s : str) : bool :=
  match p, s with
  | [], _ => true
  | _ :: _, [] => false
  | a :: p', b :: s' => (a =? b)%N && startswith p' s'
  end.

(** The text before the first [sep] and the text after it, when [sep]
    occurs. *)
Fixpoint cut (sep : char) (s : str) : option (str * str) :=
  match s with
  | [] => None
  | c :: s' =>
      if (c =? sep)%N then Some ([], s')
      else match cut sep s' with
           | Some (a, b) => Some (c :: a, b)
           | None => None
           end
  end.

(** [s.split(sep, maxsplit)] for a separator of one character. *)
Fixpoint split (sep : char) (maxsplit : nat) (s : str) : list str :=
  match maxsplit with
  | 0 => [s]
  | S m =>
      match cut sep s with
      | Some (a, b) => a :: split sep m b
      | None => [s]
      end
  end.

(** [s.replace] of every tab by four spaces *)
Fixpoint expand_tabs (s : str) : str :=
  match s with
  | [] => []
  | c :: s' =>
      if (c =? tab)%N then sp :: sp :: sp :: sp :: expand_tabs s'
      else c :: expand_tabs s'
  end.

(** [sep.join(parts)] for a separator of one character. *)
Fixpoint join (sep : char) (parts : list str) : str :=
  match parts with
  | [] => []
  | [p] => p
  | p :: ps => p ++ sep :: join sep ps
  end.

(** [n] spaces *)
Definition spaces (n : nat) : str := replicate n sp.

(** Reading in text mode with the default [newline=None]: a carriage
    return, alone or followed by a line feed, arrives as one line feed. *)
Fixpoint universal_newlines (s : str) : str :=
  match s with
  | [] => []
  | c :: s' =>
      if (c =? cr)%N then
        nl :: match s' with
              | d :: s'' =>
                  if (d =? nl)%N then universal_newlines s''
                  else universal_newlines s'
              | [] => []
              end
      else c :: universal_newlines s'
  end.

(** The lines of a text, each keeping its terminating line feed. *)
Fixpoint keepends (s : str) : list str :=
  match s with
  | [] => []
  | c :: s' =>
      if (c =? nl)%N then [nl] :: keepends s'
      else match keepends s' with
           | [] => [[c]]
           | l :: ls => (c :: l) :: ls
           end
  end.

(** [f.readlines()] on a file whose decoded content is [s]. *)
Definition readlines (s : str) : list str := keepends (universal_newlines s).

(** [re.match] of the source's pattern (white space, then any characters
    to the end) on a [raw] that does not end in a line feed, as it comes
    out of [rstrip]: the groups are the leading
    white space and the rest, and there is no match when a line feed
    follows the leading white space, since [.] does not match it. *)
Definition indent_match (raw : str) : option (str * str) :=
  let indent := take_while isspace raw in
  let content := drop_while isspace raw in
  if bool_decide (nl ∈ content) then None else Some (indent, content).

Definition count (c : char) (s : str) : nat :=
  length (filter (λ x, x = c) s).

End PyStr.
Import PyStr.

(** ** Outcomes

    A call returns, raises, or is [Undef]: the model followed a reference
    that is not in the store or used up its recursion budget.  [Undef] is
    no behaviour of the program; the totality lemmas below show that it is
    never the outcome on the states the program builds. *)

Inductive oserror := ENOENT | EACCES | EISDIR | ENOSPC | EIO.

Inductive exn :=
  | ValueError (msg : str)
  | UnicodeDecodeError
  | AttributeError
  | OSError (e : oserror).

Inductive result (A : Type) :=
  | Ok (a : A)
  | Raise (e : exn)
  | Undef.
Arguments Ok {A} a.
Arguments Raise {A} e.
Arguments Undef {A}.

#[global] Instance result_ret : MRet result := λ A a, Ok a.
#[global] Instance result_bind : MBind result := λ A B f m,
  match m with
  | Ok a => f a
  | Raise e => Raise e
  | Undef => Undef
  end.

(** A [for] loop whose body may raise: [body x a] is the state after the
    body ran on [x] from state [a]. *)
Fixpoint for_each {A B : Type} (body : B → A → result A) (xs : list B) (a : A)
    : result A :=
  match xs with
  | [] => Ok a
  | x :: xs' => a' ← body x a; for_each body xs' a'
  end.

(** ** Tasks *)

Abbreviation ref := nat (only parsing).

(** The [Task] dataclass; [children] and [parent] hold references. *)
Record Task := mkTask {
  name : str;
  status : str;
  due : str;
  children : list ref;
  parent : option ref;
  depth : nat
}.

Definition OPEN : str := Eval vm_compute in lit "OPEN".
Definition IN_PROGRESS : str := Eval vm_compute in lit "IN_PROGRESS".
Definition DONE : str := Eval vm_compute in lit "DONE".

Definition STATUS_CYCLE : list str := [OPEN; IN_PROGRESS; DONE].
Definition STATUS_DEFAULT : str := OPEN.

(** Assignments to the fields of a task. *)
Definition set_status (s : str) (t : Task) : Task :=
  mkTask (name t) s (due t) (children t) (parent t) (depth t).
Definition set_parent (p : ref) (t : Task) : Task :=
  mkTask (name t) (status t) (due t) (children t) (Some p) (depth t).
Definition append_child (c : ref) (t : Task) : Task :=
  mkTask (name t) (status t) (due t) (children t ++ [c]) (parent t) (depth t).

(** The store holds every [Task] object made so far; a reference is the
    position of its object, and a new object goes at the end. *)
Abbreviation heap := (list Task) (only parsing).

Definition deref (h : heap) (r : ref) : result Task :=
  match h !! r with
  | Some t => Ok t
  | None => Undef
  end.

(** A forest is what the program passes around as a list of root tasks:
    the references of the roots and the store they point into. *)
Record forest := mkForest { store : heap; roots : list ref }.

Definition is_leaf (t : Task) : bool :=
  match children t with [] => true | _ => false end.

(** The statuses of the tasks [cs], in order. *)
Fixpoint statuses (h : heap) (cs : list ref) : result (list str) :=
  match cs with
  | [] => Ok []
  | c :: cs' =>
      t ← deref h c;
      ss ← statuses h cs';
      Ok (status t :: ss)
  end.

(** Every text of [ss] is [s]. *)
Definition all_eq (s : str) (ss : list str) : bool :=
  forallb (λ x, bool_decide (x = s)) ss.

(** The status a task takes from the statuses of its children. *)
Definition rolled (ss : list str) : str :=
  if all_eq DONE ss then DONE
  else if all_eq OPEN ss then OPEN
  else IN_PROGRESS.

(** [Task.recalc_status_from_children] *)
Definition recalc_status_from_children (self : ref) (h : heap) : result heap :=
  t ← deref h self;
  if is_leaf t then Ok h
  else
    child_statuses ← statuses h (children t);
    Ok (alter (set_status (rolled child_statuses)) self h).

(** [Task.propagate_up]; [fuel] bounds the number of nested calls. *)
Fixpoint propagate_up (fuel : nat) (self : ref) (h : heap) : result heap :=
  match fuel with
  | 0 => Undef
  | S fuel' =>
      t ← deref h self;
      h1 ← (if is_leaf t then Ok h else recalc_status_from_children self h);
      t1 ← deref h1 self;
      match parent t1 with
      | None => Ok h1
      | Some p => propagate_up fuel' p h1
      end
  end.

(** ** Parsing *)

(** The loop variables of [parse_tasks_from_file]. *)
Record pstate := mkP {
  p_heap : heap;
  p_tasks : list ref;
  p_stack : list ref
}.

(** Their values before the first line. *)
Definition p_init : pstate := mkP [] [] [].

(** The first half of the loop body: a line's indentation depth and its
    three fields. *)
Definition line_fields (raw : str) : result (nat * str * str * str) :=
  match indent_match raw with
  | None => Raise AttributeError
  | Some (indent, content) =>
      let spaces := expand_tabs indent in
      let depth := length spaces / 4 in
      match split colon 2 content with
      | [name; status; due] =>
          let status := strip status in
          Ok (depth, strip name,
              match status with [] => STATUS_DEFAULT | _ => status end,
              strip due)
      | _ => Raise (ValueError (lit "Invalid line: " ++ raw))
      end
  end.

(** The second half of the loop body: making the task of a line and
    hanging it into the tree.  The new task is the next object of the
    store. *)
Definition attach (raw : str) (depth : nat) (name status due : str)
    (st : pstate) : result pstate :=
  let task := length (p_heap st) in
  let h := p_heap st ++ [mkTask name status due [] None depth] in
  if depth =? 0 then
    Ok (mkP h (p_tasks st ++ [task]) [task])
  else if length (p_stack st) <? depth then
    Raise (ValueError (lit "Nested too deeply: " ++ raw))
  else
    match p_stack st !! (depth - 1) with
    | None => Undef
    | Some parent =>
        let h := alter (set_parent parent) task h in
        let h := alter (append_child task) parent h in
        if depth =? length (p_stack st) then
          Ok (mkP h (p_tasks st) (p_stack st ++ [task]))
        else
          Ok (mkP h (p_tasks st) (take (depth + 1) (<[depth := task]> (p_stack st))))
    end.

(** Blank lines and comment lines are passed over. *)
Definition skipped (raw : str) : bool :=
  match strip raw with [] => true | _ => false end
  || startswith [hash] (strip raw).

(** The loop body of [parse_tasks_from_file] on one line. *)
Definition parse_line (st : pstate) (line : str) : result pstate :=
  let raw := rstrip_nl line in
  if skipped raw then Ok st
  else
    '(depth, name, status, due) ← line_fields raw;
    attach raw depth name status due st.

(** The loop over the lines. *)
Definition parse_lines (lines : list str) (st : pstate) : result pstate :=
  for_each (λ line st, parse_line st line) lines st.

(** The inner [walk] of [parse_tasks_from_file]: children first, then the
    task itself. *)
Fixpoint walk (fuel : nat) (task_to_walk : ref) (h : heap) : result heap :=
  match fuel with
  | 0 => Undef
  | S fuel' =>
      t ← deref h task_to_walk;
      h' ← for_each (walk fuel') (children t) h;
      t' ← deref h' task_to_walk;
      if is_leaf t' then Ok h' else recalc_status_from_children task_to_walk h'
  end.

(** The loop that walks every root. *)
Definition walk_all (fuel : nat) (ts : list ref) (h : heap) : result heap :=
  for_each (walk fuel) ts h.

(** What is at the path when the program opens it for reading: nothing, a
    file that [open] refuses with an error of the system, bytes that are
    not UTF-8, or a text. *)
Inductive file :=
  | Absent
  | Unreadable (e : oserror)
  | Undecodable
  | Text (s : str).

(** Opening the file and reading all of it. *)
Definition open_read (f : file) : result str :=
  match f with
  | Absent => Raise (OSError ENOENT)
  | Unreadable e => Raise (OSError e)
  | Undecodable => Raise UnicodeDecodeError
  | Text s => Ok s
  end.

(** [parse_tasks_from_file]: only [FileNotFoundError] is caught.  No task
    lies deeper than there are tasks, so the budget of the walk is
    enough. *)
Definition parse_tasks_from_file (f : file) : result forest :=
  match open_read f with
  | Raise (OSError ENOENT) => Ok (mkForest [] [])
  | Raise e => Raise e
  | Undef => Undef
  | Ok text =>
      st ← parse_lines (readlines text) p_init;
      h ← walk_all (length (p_heap st)) (p_tasks st) (p_heap st);
      Ok (mkForest h (p_tasks st))
  end.

(** ** Flattening and saving *)

(** The inner [walk] of [flatten_tasks]; [res] is the list [result] it
    appends to. *)
Fixpoint flatten_walk (fuel : nat) (h : heap) (task : ref) (res : list ref)
    : result (list ref) :=
  match fuel with
  | 0 => Undef
  | S fuel' =>
      t ← deref h task;
      for_each (flatten_walk fuel' h) (children t) (res ++ [task])
  end.

(** [flatten_tasks] *)
Definition flatten_tasks (F : forest) : result (list ref) :=
  for_each (flatten_walk (length (store F)) (store F)) (roots F) [].

(** The line [save_tasks_to_file] writes for a task. *)
Definition task_line (t : Task) : str :=
  spaces (4 * depth t) ++ name t ++ colon :: status t ++ colon :: due t.

(** The lines for the tasks [ts], in order. *)
Fixpoint task_lines (h : heap) (ts : list ref) : result (list str) :=
  match ts with
  | [] => Ok []
  | r :: ts' =>
      t ← deref h r;
      ls ← task_lines h ts';
      Ok (task_line t :: ls)
  end.

(** The text [save_tasks_to_file] hands to [f.write]. *)
Definition save_text (F : forest) : result str :=
  ts ← flatten_tasks F;
  lines ← task_lines (store F) ts;
  Ok (join nl lines ++ [nl]).

(** The number of bytes that the encoding [utf-8], with which the file is
    opened, takes for a code point. *)
Definition utf8_len (c : char) : nat :=
  if (c <? 128)%N then 1
  else if (c <? 2048)%N then 2
  else if (c <? 65536)%N then 3
  else 4.

(** The number of bytes of a text. *)
Definition utf8_size (s : str) : nat := sum_list (utf8_len <$> s).

(** What is at the path when only the first [n] bytes of the encoded
    [text] reached it: the characters that are complete, or, when the last
    byte lies inside the bytes of a character, bytes that are not UTF-8. *)
Fixpoint first_bytes (n : nat) (text : str) : file :=
  match text with
  | [] => Text []
  | c :: text' =>
      if n =? 0 then Text []
      else if n <? utf8_len c then Undecodable
      else match first_bytes (n - utf8_len c) text' with
           | Text s => Text (c :: s)
           | f => f
           end
  end.

(** How a save can go wrong: [open] for writing is refused, or the data
    does not all reach the file (the first [written] bytes do). *)
Inductive write_fault :=
  | NoFault
  | OpenFails (e : oserror)
  | WriteFails (written : nat) (e : oserror).

(** [save_tasks_to_file] returns nothing; the second component is what is
    at the path afterwards.  Opening with mode [w] truncates the file as
    soon as it succeeds; the text is encoded and written after that. *)
Definition save_tasks_to_file (w : write_fault) (F : forest) (disk : file)
    : result unit * file :=
  match save_text F with
  | Ok text =>
      match w with
      | OpenFails e => (Raise (OSError e), disk)
      | WriteFails n e => (Raise (OSError e), first_bytes n text)
      | NoFault => (Ok (), Text text)
      end
  | Raise e => (Raise e, disk)
  | Undef => (Undef, disk)
  end.

(** [save_with_handling]: an [OSError] is caught, shown and logged, and the
    call returns [False]. *)
Definition save_with_handling (w : write_fault) (F : forest) (disk : file)
    : result bool * file :=
  match save_tasks_to_file w F disk with
  | (Ok _, d) => (Ok true, d)
  | (Raise (OSError _), d) => (Ok false, d)
  | (Raise e, d) => (Raise e, d)
  | (Undef, d) => (Undef, d)
  end.

(** ** The editing actions *)

(** [get_selected_task] for a list view whose [index] is [idx]. *)
Definition get_selected_task (idx : option Z) (F : forest)
    : result (option ref) :=
  match idx with
  | None => Ok None
  | Some i =>
      tasks ← flatten_tasks F;
      if bool_decide (0 ≤ i < Z.of_nat (length tasks))%Z then Ok (tasks !! Z.to_nat i)
      else Ok None
  end.

(** [STATUS_CYCLE.index(s)], with [None] for the [ValueError]. *)
Fixpoint index_of (s : str) (l : list str) : option nat :=
  match l with
  | [] => None
  | x :: l' => if bool_decide (x = s) then Some 0 else S <$> index_of s l'
  end.

(** The model part of [action_toggle_status] on the task [sel]; refreshing
    the list view and saving do not change the tree. *)
Definition toggle_status (sel : option ref) (F : forest) : result forest :=
  match sel with
  | None => Ok F
  | Some task =>
      t ← deref (store F) task;
      if negb (is_leaf t) then Ok F
      else
        let idx := match index_of (status t) STATUS_CYCLE with
                   | Some i => i
                   | None => 0
                   end in
        match STATUS_CYCLE !! ((idx + 1) mod length STATUS_CYCLE) with
        | None => Undef
        | Some s =>
            let h := alter (set_status s) task (store F) in
            h' ← propagate_up (length h) task h;
            Ok (mkForest h' (roots F))
        end
  end.

(** [action_toggle_status] for a list view whose [index] is [idx]. *)
Definition action_toggle_status (idx : option Z) (F : forest) : result forest :=
  sel ← get_selected_task idx F;
  toggle_status sel F.

(** [_add_subtask_worker]: [dialog] is what the modal screen returned; the
    new task is the next object of the store. *)
Definition add_subtask_worker (parent : option ref) (dialog : option (str * str))
    (F : forest) : result forest :=
  match dialog with
  | None => Ok F
  | Some (name, due) =>
      let new := length (store F) in
      match parent with
      | None =>
          let h := store F ++ [mkTask name OPEN due [] None 0] in
          h' ← propagate_up (length h) new h;
          Ok (mkForest h' (roots F ++ [new]))
      | Some p =>
          tp ← deref (store F) p;
          let h := store F ++ [mkTask name OPEN due [] (Some p) (depth tp + 1)] in
          let h := alter (append_child new) p h in
          h' ← propagate_up (length h) new h;
          Ok (mkForest h' (roots F))
      end
  end.

(** [action_add_subtask]: the selected task is looked up, then the worker
    runs with it. *)
Definition action_add_subtask (idx : option Z) (dialog : option (str * str))
    (F : forest) : result forest :=
  parent ← get_selected_task idx F;
  add_subtask_worker parent dialog F.

(** ** The view *)

(** [status_style] *)
Definition status_style (status : str) : str :=
  if bool_decide (status = DONE) then lit "green"
  else if bool_decide (status = IN_PROGRESS) then lit "yellow"
  else lit "red".

(** [d.get(key, default)] for a dict written as the list of its items. *)
Fixpoint dict_get (d : list (str * str)) (key default : str) : str :=
  match d with
  | [] => default
  | (k, v) :: d' => if bool_decide (k = key) then v else dict_get d' key default
  end.

(** [status_symbol]: a white circle, a half-filled circle, a black circle,
    and a question mark for every other text. *)
Definition status_symbol (status : str) : str :=
  dict_get [(OPEN, [9675%N]); (IN_PROGRESS, [9680%N]); (DONE, [9679%N])]
           status (lit "?").

(** The text [refresh_task_list] shows for a task. *)
Definition item_text (task : Task) : str :=
  let prefix := spaces (2 * depth task) in
  let sym := status_symbol (status task) in
  let text := prefix ++ sym ++ sp :: name task in
  match due task with
  | [] => text
  | _ => text ++ lit "  (due: " ++ due task ++ lit ")"
  end.

(** The items for the tasks [ts]: text and style. *)
Fixpoint item_rows (h : heap) (ts : list ref) : result (list (str * str)) :=
  match ts with
  | [] => Ok []
  | r :: ts' =>
      task ← deref h r;
      rows ← item_rows h ts';
      Ok ((item_text task, status_style (status task)) :: rows)
  end.

(** A number as an f-string prints it. *)
Definition decimal (n : nat) : str := lit (NilZero.string_of_uint (Nat.to_uint n)).

(** How many of the statuses [ss] are [s]. *)
Definition count_of (s : str) (ss : list str) : nat :=
  length (filter (λ x, x = s) ss).

(** The text of the summary line. *)
Definition summary_text (open_count in_progress_count done_count : nat) : str :=
  lit "OPEN: " ++ decimal open_count ++ lit "  |  IN_PROGRESS: "
  ++ decimal in_progress_count ++ lit "  |  DONE: " ++ decimal done_count.

(** [update_summary] *)
Definition update_summary (F : forest) (tasks : option (list ref)) : result str :=
  tasks ← match tasks with
          | None => flatten_tasks F
          | Some ts => Ok ts
          end;
  ss ← statuses (store F) tasks;
  Ok (summary_text (count_of OPEN ss) (count_of IN_PROGRESS ss) (count_of DONE ss)).

(** The list view: its items and its [index]. *)
Record list_view := mkView { items : list (str * str); index : option Z }.

(** [refresh_task_list]: the new summary line and the new list view.  The
    keyboard focus is left out. *)
Definition refresh_task_list (keep_selection : bool) (task_list_view : list_view)
    (F : forest) : result (str * list_view) :=
  let old_index := if keep_selection then index task_list_view else None in
  tasks ← flatten_tasks F;
  summary ← update_summary F (Some tasks);
  rows ← item_rows (store F) tasks;
  Ok (summary,
      mkView rows
        match tasks with
        | [] => None
        | _ =>
            match keep_selection, old_index with
            | true, Some i => Some (Z.min i (Z.of_nat (length tasks) - 1))
            | _, _ => Some 0%Z
            end
        end).

(** ** The dialog *)

(** The notifications of the application.  The one for a failed save
    carries the error; its text names the file and the message of the
    system. *)
Inductive notice :=
  | colon_not_allowed
  | error_saving (e : oserror)
  | saved_to.

(** What a pressed button does to the dialog: it stays open, with or
    without a warning, or it is dismissed with a result. *)
Inductive dialog_step :=
  | stays (warning : option notice)
  | dismissed (r : option (str * str)).

(** [NewTaskScreen.on_button_pressed] for the button [button_id] and the
    values of the two input fields. *)
Definition on_button_pressed (button_id name_value due_value : str) : dialog_step :=
  if bool_decide (button_id = lit "ok") then
    let name := strip name_value in
    let due := strip due_value in
    match name with
    | [] => stays None
    | _ =>
        if bool_decide (colon ∈ name) || bool_decide (colon ∈ due) then
          stays (Some colon_not_allowed)
        else dismissed (Some (name, due))
    end
  else dismissed None.

(** ** The application *)

Record LaunchConditionsApp := mkApp {
  app_roots : forest;
  task_list : list_view;
  summary : str;
  disk : file;
  notices : list notice;
  exited : bool
}.

Module App.

(** [save_with_handling]: the value it returns and the application
    afterwards. *)
Definition save_with_handling (w : write_fault) (show_success : bool) (a : LaunchConditionsApp)
    : result (bool * LaunchConditionsApp) :=
  match save_tasks_to_file w (app_roots a) (disk a) with
  | (Ok _, d) =>
      Ok (true, mkApp (app_roots a) (task_list a) (summary a) d
                  (notices a ++ if show_success then [saved_to] else [])
                  (exited a))
  | (Raise (OSError e), d) =>
      Ok (false, mkApp (app_roots a) (task_list a) (summary a) d
                   (notices a ++ [error_saving e]) (exited a))
  | (Raise e, _) => Raise e
  | (Undef, _) => Undef
  end.

(** [refresh_task_list] on the application. *)
Definition refresh_task_list (keep_selection : bool) (a : LaunchConditionsApp) : result LaunchConditionsApp :=
  '(s, v) ← refresh_task_list keep_selection (task_list a) (app_roots a);
  Ok (mkApp (app_roots a) v s (disk a) (notices a) (exited a)).

(** [on_mount] of an application started on the file [f]. *)
Definition on_mount (f : file) : result LaunchConditionsApp :=
  F ← parse_tasks_from_file f;
  a ← refresh_task_list false (mkApp F (mkView [] None) [] f [] false);
  match items (task_list a) with
  | [] => Ok a
  | _ => Ok (mkApp (app_roots a) (mkView (items (task_list a)) (Some 0%Z))
                (summary a) (disk a) (notices a) (exited a))
  end.

(** [action_toggle_status] *)
Definition action_toggle_status (w : write_fault) (a : LaunchConditionsApp) : result LaunchConditionsApp :=
  task ← get_selected_task (index (task_list a)) (app_roots a);
  match task with
  | None => Ok a
  | Some r =>
      t ← deref (store (app_roots a)) r;
      if negb (is_leaf t) then Ok a
      else
        F ← toggle_status (Some r) (app_roots a);
        a1 ← refresh_task_list true
               (mkApp F (task_list a) (summary a) (disk a) (notices a) (exited a));
        '(_, a2) ← save_with_handling w false a1;
        Ok a2
  end.

(** [action_add_subtask] with its worker; [dialog] is what the modal
    screen was dismissed with. *)
Definition action_add_subtask (w : write_fault) (dialog : option (str * str))
    (a : LaunchConditionsApp) : result LaunchConditionsApp :=
  parent ← get_selected_task (index (task_list a)) (app_roots a);
  match dialog with
  | None => Ok a
  | Some _ =>
      F ← add_subtask_worker parent dialog (app_roots a);
      a1 ← refresh_task_list true
             (mkApp F (task_list a) (summary a) (disk a) (notices a) (exited a));
      '(_, a2) ← save_with_handling w false a1;
      Ok a2
  end.

(** [action_save] *)
Definition action_save (w : write_fault) (a : LaunchConditionsApp) : result LaunchConditionsApp :=
  '(_, a1) ← save_with_handling w true a;
  Ok (mkApp (app_roots a1) (task_list a1) (summary a1) (disk a1)
        (notices a1 ++ [saved_to]) (exited a1)).

(** [action_quit] *)
Definition action_quit (w : write_fault) (a : LaunchConditionsApp) : result LaunchConditionsApp :=
  '(_, a1) ← save_with_handling w false a;
  Ok (mkApp (app_roots a1) (task_list a1) (summary a1) (disk a1)
        (notices a1) true).

End App.

(** ** Shape of the store *)

(** Two tasks with the same links and depth; they may differ in text. *)
Definition skel (t t' : Task) : Prop :=
  children t = children t' ∧ parent t = parent t' ∧ depth t = depth t'.

(** The same, with the name and the due text as well: all but the status. *)
Definition same_but_status (t t' : Task) : Prop :=
  name t = name t' ∧ due t = due t' ∧ skel t t'.

(** [laid h p d i j cs]: the trees rooted at [cs], in this order, fill the
    references [i .. j-1] in the order of a pre-order walk; the roots have
    parent [p] and depth [d], and below them every child records its parent
    and a depth one more. *)
Inductive laid (h : heap) : option ref → nat → nat → nat → list ref → Prop :=
  | laid_nil p d i : laid h p d i i []
  | laid_cons p d i k j t cs :
      h !! i = Some t →
      parent t = p →
      depth t = d →
      laid h (Some i) (S d) (S i) k (children t) →
      laid h p d k j cs →
      laid h p d i j (i :: cs).

(** The depth stack of the parser is the right-most branch of what [laid]
    describes: each entry is the last tree at its level, the next entry is
    its last child. *)
Fixpoint spine (h : heap) (p : option ref) (d i j : nat) (cs stack : list ref)
    : Prop :=
  match stack with
  | [] => laid h p d i j cs
  | s :: stack' =>
      ∃ cs0 t,
        cs = cs0 ++ [s] ∧ laid h p d i s cs0 ∧
        h !! s = Some t ∧ parent t = p ∧ depth t = d ∧
        spine h (Some s) (S d) (S s) j (children t) stack'
  end.

Definition p_inv (st : pstate) : Prop :=
  spine (p_heap st) None 0 0 (length (p_heap st)) (p_tasks st) (p_stack st).

(** Links and depths agree everywhere in the store. *)
Definition child_ok (h : heap) (i : ref) (t : Task) (c : ref) : Prop :=
  i < c ∧ ∃ tc, h !! c = Some tc ∧ parent tc = Some i ∧ depth tc = S (depth t).

Definition parent_ok (h : heap) (rs : list ref) (i : ref) (t : Task) : Prop :=
  match parent t with
  | Some p => ∃ tp, h !! p = Some tp ∧ i ∈ children tp
  | None => depth t = 0 ∧ i ∈ rs
  end.

Definition linked (h : heap) (rs : list ref) : Prop :=
  (∀ i t, h !! i = Some t → Forall (child_ok h i t) (children t)) ∧
  (∀ i t, h !! i = Some t → parent_ok h rs i t) ∧
  Forall (λ r, ∃ t, h !! r = Some t ∧ parent t = None) rs.

(** The status of a task with children is the roll-up of theirs. *)
Definition rollup_at (h : heap) (i : ref) : Prop :=
  ∀ t, h !! i = Some t → is_leaf t = false →
    ∃ ss, statuses h (children t) = Ok ss ∧ status t = rolled ss.

Definition wf (F : forest) : Prop :=
  linked (store F) (roots F) ∧ ∀ i, rollup_at (store F) i.

(** ** The states of a session

    The application loads the file when it is mounted; afterwards the tree
    changes only through the two editing actions, whatever the selection
    and whatever the dialog returns. *)
Inductive reachable (f : file) : forest → Prop :=
  | reach_mount F :
      parse_tasks_from_file f = Ok F → reachable f F
  | reach_toggle F idx F' :
      reachable f F → action_toggle_status idx F = Ok F' → reachable f F'
  | reach_add F idx dialog F' :
      reachable f F → action_add_subtask idx dialog F = Ok F' → reachable f F'.

(** ** Notions used in the statements *)

(** Every child of [t] has status [s]. *)
Definition all_children (h : heap) (t : Task) (s : str) : Prop :=
  Forall (λ c, ∃ tc, h !! c = Some tc ∧ status tc = s) (children t).

(** The status after the one that [toggle_status] finds on a leaf. *)
Definition cycled (s : str) : str :=
  if bool_decide (s = OPEN) then IN_PROGRESS
  else if bool_decide (s = IN_PROGRESS) then DONE
  else if bool_decide (s = DONE) then OPEN
  else IN_PROGRESS.

(** The depth the parser computes for a line. *)
Definition line_depth (raw : str) : nat :=
  length (expand_tabs (take_while isspace raw)) / 4.

(** The status the parser stores for the text of a status field. *)
Definition status_field (b : str) : str :=
  match strip b with [] => STATUS_DEFAULT | _ => strip b end.

(** Every task of the store has one of the three statuses. *)
Definition enum_all (h : heap) : Prop :=
  Forall (λ t, status t ∈ STATUS_CYCLE) h.

(** The line is no task line, or the status the parser stores for it is
    one of the three: its status field trims to the empty text or to one of
    them. *)
Definition status_known (line : str) : bool :=
  let raw := rstrip_nl line in
  skipped raw ||
  match line_fields raw with
  | Ok (_, _, s, _) => bool_decide (s ∈ STATUS_CYCLE)
  | _ => true
  end.

(** Every line of the file is such a line; a file that is not there has
    none. *)
Definition well_statused (f : file) : bool :=
  match f with
  | Text text => forallb status_known (readlines text)
  | _ => true
  end.

(** One of [a]'s descendants is [x]: [a] is met on the way from [x] up the
    parent links. *)
Inductive ancestor (h : heap) : ref → ref → Prop :=
  | anc_parent x t p :
      h !! x = Some t → parent t = Some p → ancestor h p x
  | anc_up x t p a :
      h !! x = Some t → parent t = Some p → ancestor h a p → ancestor h a x.

(** The store right after the new task was made and linked, before the
    statuses of its ancestors are recomputed. *)
Definition add_store (parent : option ref) (nm du : str) (h : heap) : heap :=
  match parent with
  | None => h ++ [mkTask nm OPEN du [] None 0]
  | Some p =>
      match h !! p with
      | Some tp =>
          alter (append_child (length h)) p
            (h ++ [mkTask nm OPEN du [] (Some p) (depth tp + 1)])
      | None => h
      end
  end.

(** The depth the new task gets. *)
Definition add_depth (parent : option ref) (h : heap) : nat :=
  match parent with
  | None => 0
  | Some p => match h !! p with Some tp => depth tp + 1 | None => 0 end
  end.

(** ** Notions used in the proofs *)

(** What a walk over the references [i .. j-1] leaves behind. *)
Definition walked (h0 h' : heap) (i j : nat) : Prop :=
  length h' = length h0 ∧
  (∀ x t0, h0 !! x = Some t0 →
     ∃ t', h' !! x = Some t' ∧ same_but_status t0 t' ∧
           (is_leaf t0 = true → t' = t0) ∧ (¬ i ≤ x < j → t' = t0)) ∧
  (∀ x, i ≤ x < j → rollup_at h' x).

(** On the references [i .. j-1], [h0] has the links and depths of [h]. *)
Definition agree (h h0 : heap) (i j : nat) : Prop :=
  ∀ x t, i ≤ x < j → h !! x = Some t → ∃ t0, h0 !! x = Some t0 ∧ skel t t0.

(** Pointwise the same links and depths, in stores of the same size. *)
Definition skel_eq (h h' : heap) : Prop :=
  length h' = length h ∧
  ∀ x t, h !! x = Some t → ∃ t', h' !! x = Some t' ∧ skel t t'.

(** Only statuses differ, and only those of tasks with children. *)
Definition restatus (h h' : heap) : Prop :=
  length h' = length h ∧
  ∀ x t, h !! x = Some t →
    ∃ t', h' !! x = Some t' ∧ same_but_status t t' ∧ (is_leaf t = true → t' = t).

(** References that point into the store. *)
Definition valid_refs (h : heap) (rs : list ref) : Prop :=
  Forall (λ r, is_Some (h !! r)) rs.

(** A text that [strip] leaves alone. *)
Definition stripped (s : str) : Prop := strip s = s.

(** A line as [readlines] returns it: no line feed inside, at most one at
    the end. *)
Definition line_ok (l : str) : Prop :=
  ∃ body, (nl ∉ body) ∧ (l = body ++ [nl] ∨ l = body).

(** A text without line feed and carriage return. *)
Definition plain (s : str) : Prop := (nl ∉ s) ∧ (cr ∉ s).

(** What the fields of a task that came out of the parser look like. *)
Definition clean (t : Task) : Prop :=
  stripped (name t) ∧ (colon ∉ name t) ∧ (∀ s, name t ≠ hash :: s) ∧
  plain (name t) ∧
  stripped (status t) ∧ status t ≠ [] ∧ (colon ∉ status t) ∧ plain (status t) ∧
  stripped (due t) ∧ plain (due t).

(** What a line of the file says about its task. *)
Definition rec_of (t : Task) : nat * str * str * str :=
  (depth t, name t, status t, due t).

(** The state [attach] returns when it returns. *)
Definition attached (d : nat) (nm s du : str) (st st' : pstate) : Prop :=
  let n := length (p_heap st) in
  let h := p_heap st ++ [mkTask nm s du [] None d] in
  (d = 0 ∧ st' = mkP h (p_tasks st ++ [n]) [n]) ∨
  (∃ par, 0 < d ≤ length (p_stack st) ∧ p_stack st !! (d - 1) = Some par ∧
          st' = mkP (alter (append_child n) par (alter (set_parent par) n h))
                    (p_tasks st) (take d (p_stack st) ++ [n])).

(** The parser on lines that are already split into fields. *)
Definition attach_rec (r : nat * str * str * str) (st : pstate) : result pstate :=
  let '(d, nm, s, du) := r in attach [] d nm s du st.

Definition attach_all (recs : list (nat * str * str * str)) (st : pstate)
    : result pstate :=
  for_each attach_rec recs st.

(** Two runs of the parser on lines that differ in the status fields only. *)
Definition p_sim (st1 st2 : pstate) : Prop :=
  p_tasks st1 = p_tasks st2 ∧ p_stack st1 = p_stack st2 ∧
  Forall2 same_but_status (p_heap st1) (p_heap st2).

(** ** Trees *)

(** A task with the tasks below it: what the line of the task says, and
    the trees of its children in order. *)
#[warnings="-register-all"] Inductive tree := Node (r : nat * str * str * str) (kids : list tree).

(** The tree below the task [x]; [fuel] bounds the depth. *)
Fixpoint tree_of (fuel : nat) (h : heap) (x : ref) : option tree :=
  match fuel with
  | 0 => None
  | S fuel' =>
      t ← h !! x;
      kids ← mapM (tree_of fuel' h) (children t);
      Some (Node (rec_of t) kids)
  end.

(** The trees of the roots of a forest. *)
Definition forest_trees (F : forest) : option (list tree) :=
  mapM (tree_of (length (store F)) (store F)) (roots F).

(** The tasks of a tree in the order of a pre-order walk. *)
Fixpoint pre (tr : tree) : list (nat * str * str * str) :=
  match tr with
  | Node r kids => r :: concat (pre <$> kids)
  end.

Definition pre_forest (ts : list tree) : list (nat * str * str * str) :=
  concat (pre <$> ts).

Definition root_rec (tr : tree) : nat * str * str * str :=
  match tr with Node r _ => r end.

(** The root of the tree has depth [d], and every child lies one deeper
    than its parent. *)
#[warnings="-register-all"] Inductive depths_ok : nat → tree → Prop :=
  | depths_node d r kids :
      r.1.1.1 = d → Forall (depths_ok (S d)) kids → depths_ok d (Node r kids).

(** Every task with children has the status that its children roll up
    to. *)
#[warnings="-register-all"] Inductive tree_rolled : tree → Prop :=
  | rolled_node r kids :
      (kids ≠ [] → r.1.2 = rolled ((λ k, (root_rec k).1.2) <$> kids)) →
      Forall tree_rolled kids → tree_rolled (Node r kids).

(** The depth stack of the parser is long enough for lines of the depths
    [ds] when it has [n] entries before the first of them. *)
Fixpoint ok_from (n : nat) (ds : list nat) : Prop :=
  match ds with
  | [] => True
  | d :: ds' => d ≤ n ∧ ok_from (S d) ds'
  end.

(** The first of the records [tail], if there is one, is less deep than
    [d]. *)
Definition low (d : nat) (tail : list (nat * str * str * str)) : Prop :=
  match tail with
  | [] => True
  | r :: _ => r.1.1.1 < d
  end.

(** The tree [tr] is the only one with its pre-order walk. *)
Definition determined (tr : tree) : Prop :=
  ∀ d tr2 tail1 tail2,
    depths_ok d tr → depths_ok d tr2 →
    pre tr ++ tail1 = pre tr2 ++ tail2 →
    low (S d) tail1 → low (S d) tail2 → tr = tr2 ∧ tail1 = tail2.

(** The depth stack is long enough for the lines of the tree [tr]. *)
Definition fits (tr : tree) : Prop :=
  ∀ d n tail,
    depths_ok d tr → d ≤ n →
    (∀ m, S d ≤ m → ok_from m tail) →
    ok_from n (((λ r, r.1.1.1) <$> pre tr) ++ tail).

(** The states of a session in which every added task comes out of the
    dialog: the values of the two input fields hold no line break, and
    the name does not start with a hash sign. *)
Inductive session (f : file) : forest → Prop :=
  | session_mount F :
      parse_tasks_from_file f = Ok F → session f F
  | session_toggle F idx F' :
      session f F → action_toggle_status idx F = Ok F' → session f F'
  | session_add F idx button name_value due_value r F' :
      session f F →
      on_button_pressed button name_value due_value = dismissed r →
      plain name_value → plain due_value →
      (∀ nm du s, r = Some (nm, du) → nm ≠ hash :: s) →
      action_add_subtask idx r F = Ok F' → session f F'.

(** Every leaf below the task [i] has status [s]. *)
Definition leaves_below (h : heap) (i : ref) (s : str) : Prop :=
  ∀ y ty, ancestor h i y → h !! y = Some ty → is_leaf ty = true → status ty = s.

(** ** Scenarios *)

(** The forest of an outcome that is one. *)
Definition forest_of (r : result forest) : forest :=
  match r with
  | Ok F => F
  | _ => mkForest [] []
  end.

(** A parent with one finished and one open child. *)
Definition scenario_C_file : file :=
  Text (join nl [lit "A:OPEN:"; lit "    B:DONE:"; lit "    C:OPEN:"] ++ [nl]).

Definition scenario_C : forest :=
  Eval vm_compute in forest_of (parse_tasks_from_file scenario_C_file).

(** The same after the open child was toggled once, and twice. *)
Definition scenario_D1 : forest :=
  Eval vm_compute in forest_of (action_toggle_status (Some 2%Z) scenario_C).

Definition scenario_D : forest :=
  Eval vm_compute in forest_of (action_toggle_status (Some 2%Z) scenario_D1).

(** And after a subtask was added under the first child. *)
Definition scenario_F : forest :=
  Eval vm_compute in
    forest_of (action_add_subtask (Some 1%Z) (Some (lit "B1", lit "")) scenario_D).

(** The first scenario after a subtask was added under the open child. *)
Definition scenario_C_sub : forest :=
  Eval vm_compute in
    forest_of (action_add_subtask (Some 2%Z) (Some (lit "D", lit "today")) scenario_C).

(** Scenario B: a blank status field. *)
Definition scenario_B_file : file := Text (lit "Buy milk::").

Definition scenario_B : forest :=
  Eval vm_compute in forest_of (parse_tasks_from_file scenario_B_file).

(** The same after its task was toggled. *)
Definition scenario_B1 : forest :=
  Eval vm_compute in forest_of (action_toggle_status (Some 0%Z) scenario_B).

(** A leaf whose stored status is not one of the three. *)
Definition odd_status_file : file := Text (lit "A:FOO:").

Definition odd_status : forest :=
  Eval vm_compute in forest_of (parse_tasks_from_file odd_status_file).

(** A task whose name is one letter outside ASCII, the code point 233,
    which takes two bytes in the file. *)
Definition accent_file : file := Text (233%N :: lit ":OPEN:").

Definition accent : forest :=
  Eval vm_compute in forest_of (parse_tasks_from_file accent_file).

(** The same after its task was toggled. *)
Definition accent1 : forest :=
  Eval vm_compute in forest_of (action_toggle_status (Some 0%Z) accent).

(** A file with a comment, a blank status, an indentation that is not a
    multiple of four, a tab, and colons in the due text. *)
Definition demo_file : file :=
  Text (join nl [lit "# plan";
                 lit "Design review:DONE:2025-01-10";
                 lit "Prototype::";
                 lit "     Hardware: DONE :2025-01-20 10:30";
                 tab :: lit "Firmware:OPEN:";
                 lit "Launch:waiting:"]).

Definition demo : forest :=
  Eval vm_compute in forest_of (parse_tasks_from_file demo_file).

(** The text of that file. *)
Definition demo_text : str :=
  join nl [lit "# plan";
           lit "Design review:DONE:2025-01-10";
           lit "Prototype::";
           lit "     Hardware: DONE :2025-01-20 10:30";
           tab :: lit "Firmware:OPEN:";
           lit "Launch:waiting:"].

(** ** Basic facts about the store *)

Ltac invert H := inversion H; subst; clear H.

Lemma deref_Ok h r t : deref h r = Ok t ↔ h !! r = Some t.
Proof. unfold deref. destruct (h !! r); split; congruence. Qed.

Lemma bind_Ok {A B} (m : result A) (f : A → result B) b :
  m ≫= f = Ok b ↔ ∃ a, m = Ok a ∧ f a = Ok b.
Proof.
  destruct m; simpl; split; try (intros (? & ? & ?)); try congruence; eauto.
Qed.

Lemma skel_refl t : skel t t.
Proof. by repeat split. Qed.

Lemma skel_trans t1 t2 t3 : skel t1 t2 → skel t2 t3 → skel t1 t3.
Proof. unfold skel. intuition congruence. Qed.

Lemma skel_set_status s t : skel t (set_status s t).
Proof. by repeat split. Qed.

Lemma is_leaf_skel t t' : skel t t' → is_leaf t = is_leaf t'.
Proof. intros (Hc & _). unfold is_leaf. by rewrite Hc. Qed.

Lemma laid_le h p d i j cs : laid h p d i j cs → i ≤ j.
Proof. induction 1; lia. Qed.

(** [laid] reads only the links and depths of the references it covers. *)
Lemma laid_frame h h' p d i j cs :
  laid h p d i j cs →
  (∀ x t, i ≤ x < j → h !! x = Some t → ∃ t', h' !! x = Some t' ∧ skel t t') →
  laid h' p d i j cs.
Proof.
  induction 1 as [|p d i k j t cs Hi Hp Hd Hkids IHkids Hrest IHrest];
    intros Hfr; [constructor|].
  pose proof (laid_le _ _ _ _ _ _ Hkids) as Hik.
  pose proof (laid_le _ _ _ _ _ _ Hrest) as Hkj.
  destruct (Hfr i t) as (t' & Hi' & Hc & Hp' & Hd'); [lia|done|].
  apply (laid_cons h' p d i k j t' cs); [done|congruence|congruence| |].
  - rewrite <- Hc. apply IHkids. intros x tx ??. apply Hfr; [lia|done].
  - apply IHrest. intros x tx ??. apply Hfr; [lia|done].
Qed.

Lemma laid_roots h p d i j cs :
  laid h p d i j cs →
  Forall (λ c, i ≤ c < j ∧ ∃ tc, h !! c = Some tc ∧ parent tc = p ∧ depth tc = d) cs.
Proof.
  induction 1 as [|p d i k j t cs Hi Hp Hd Hkids _ Hrest IH]; [constructor|].
  apply laid_le in Hkids as ?. apply laid_le in Hrest as ?.
  constructor; [split; [lia|eauto]|].
  eapply Forall_impl; [exact IH|]. intros c (? & ?). split; [lia|done].
Qed.

Lemma laid_sub h p d i j cs x :
  laid h p d i j cs → i ≤ x < j →
  ∃ t k, h !! x = Some t ∧ k ≤ j ∧
         laid h (Some x) (S (depth t)) (S x) k (children t).
Proof.
  induction 1 as [|p d i k j t cs Hi Hp Hd Hkids IHkids Hrest IHrest];
    intros Hx; [lia|].
  apply laid_le in Hkids as ?. apply laid_le in Hrest as ?.
  destruct (decide (x = i)) as [->|].
  { exists t, k. subst d. done. }
  destruct (decide (x < k)).
  - destruct IHkids as (tx & k' & ? & ? & ?); [lia|].
    exists tx, k'. split; [done|split; [lia|done]].
  - destruct IHrest as (tx & k' & ? & ? & ?); [lia|]. by exists tx, k'.
Qed.

Lemma laid_cover h p d i j cs x :
  laid h p d i j cs → i ≤ x < j →
  x ∈ cs ∨ ∃ y ty, i ≤ y < j ∧ h !! y = Some ty ∧ x ∈ children ty.
Proof.
  induction 1 as [|p d i k j t cs Hi Hp Hd Hkids IHkids Hrest IHrest];
    intros Hx; [lia|].
  apply laid_le in Hkids as ?. apply laid_le in Hrest as ?.
  destruct (decide (x = i)) as [->|]; [left; by left|].
  destruct (decide (x < k)).
  - right. assert (S i ≤ x < k) as Hin by lia.
    destruct (IHkids Hin) as [?|(y & ty & ? & ? & ?)].
    + exists i, t. (split; [lia|done]).
    + exists y, ty. (split; [lia|done]).
  - assert (k ≤ x < j) as Hin by lia.
    destruct (IHrest Hin) as [?|(y & ty & ? & ? & ?)]; [left; by right|].
    right. exists y, ty. (split; [lia|done]).
Qed.

Lemma laid_app h p d i k j cs1 cs2 :
  laid h p d i k cs1 → laid h p d k j cs2 → laid h p d i j (cs1 ++ cs2).
Proof.
  induction 1; intros; simpl; [done|]. econstructor; eauto.
Qed.

Lemma spine_laid h stack : ∀ p d i j cs,
  spine h p d i j cs stack → laid h p d i j cs.
Proof.
  induction stack as [|s stack IH]; intros p d i j cs; simpl; [done|].
  intros (cs0 & t & -> & Hl & Hs & Hp & Hd & Hsp).
  eapply laid_app; [exact Hl|].
  econstructor; eauto. constructor.
Qed.

(** The references on the depth stack grow, and stay inside the store. *)
Lemma spine_stack_range h stack : ∀ p d i j cs k s,
  spine h p d i j cs stack → stack !! k = Some s → i ≤ s < j.
Proof.
  induction stack as [|s0 stack IH]; intros p d i j cs k s; simpl; [done|].
  intros (cs0 & t & -> & Hl & Hs & Hp & Hd & Hsp) Hk.
  apply laid_le in Hl as ?. pose proof (laid_le _ _ _ _ _ _ (spine_laid _ _ _ _ _ _ _ Hsp)).
  destruct k as [|k]; simpl in Hk; [simplify_eq; lia|].
  eapply IH in Hk; [|exact Hsp]. lia.
Qed.

Lemma spine_stack_depth h stack : ∀ p d i j cs k s,
  spine h p d i j cs stack → stack !! k = Some s →
  ∃ t, h !! s = Some t ∧ depth t = d + k.
Proof.
  induction stack as [|s0 stack IH]; intros p d i j cs k s; simpl; [done|].
  intros (cs0 & t & -> & Hl & Hs & Hp & Hd & Hsp) Hk.
  destruct k as [|k]; simpl in Hk.
  - simplify_eq. exists t. split; [done|lia].
  - eapply IH in Hk as (t' & ? & ?); [|exact Hsp]. exists t'. split; [done|lia].
Qed.

(** ** The parser keeps the store laid out in pre-order *)

Section attach_store.
Context (h : heap) (new : Task) (par : ref).
Let n := length h.
Let h' := alter (append_child n) par (alter (set_parent par) n (h ++ [new])).

Lemma attach_lookup_old x :
  x < n → x ≠ par → h' !! x = h !! x.
Proof.
  intros ??. unfold h'.
  rewrite list_lookup_alter_ne by done.
  rewrite list_lookup_alter_ne by (unfold n in *; lia).
  by apply lookup_app_l.
Qed.

Lemma attach_lookup_par t :
  h !! par = Some t → h' !! par = Some (append_child n t).
Proof.
  intros Hpar. unfold h'.
  apply lookup_lt_Some in Hpar as ?.
  rewrite list_lookup_alter_eq.
  rewrite list_lookup_alter_ne by (unfold n in *; lia).
  by rewrite lookup_app_l, Hpar.
Qed.

Lemma attach_lookup_new :
  par < n → h' !! n = Some (set_parent par new).
Proof.
  intros ?. unfold h'.
  rewrite list_lookup_alter_ne by lia.
  rewrite list_lookup_alter_eq.
  by rewrite list_lookup_middle.
Qed.

Lemma attach_length : length h' = S n.
Proof. unfold h'. rewrite !length_alter, length_app. simpl. unfold n. lia. Qed.

End attach_store.

Lemma spine_attach h nm st du stack : ∀ k p d i cs par,
  spine h p d i (length h) cs stack →
  stack !! k = Some par →
  spine (alter (append_child (length h)) par
           (alter (set_parent par) (length h)
              (h ++ [mkTask nm st du [] None (d + S k)])))
        p d i (S (length h)) cs (take (S k) stack ++ [length h]).
Proof.
  induction stack as [|s stack IH]; intros k p d i cs par Hsp Hk; [done|].
  simpl in Hsp. destruct Hsp as (cs0 & t & -> & Hl & Hs & Hp & Hd & Hsp).
  pose proof (laid_le _ _ _ _ _ _ Hl).
  pose proof (laid_le _ _ _ _ _ _ (spine_laid _ _ _ _ _ _ _ Hsp)).
  destruct k as [|k]; simpl in Hk.
  - simplify_eq. simpl.
    exists cs0, (append_child (length h) t).
    split_and!; [done| |by apply attach_lookup_par|done|done|].
    + eapply laid_frame; [exact Hl|]. intros x tx ??.
      exists tx. split; [|apply skel_refl].
      rewrite attach_lookup_old by lia. done.
    + exists (children t), (mkTask nm st du [] (Some par) (depth t + 1)).
      split_and!; [done| |by rewrite attach_lookup_new by lia|done|simpl; lia|constructor].
      eapply laid_frame; [exact (spine_laid _ _ _ _ _ _ _ Hsp)|].
      intros x tx ??. exists tx. split; [|apply skel_refl].
      rewrite attach_lookup_old by lia. done.
  - pose proof (spine_stack_range _ _ _ _ _ _ _ _ _ Hsp Hk).
    change (take (S (S k)) (s :: stack) ++ [length h])
      with (s :: (take (S k) stack ++ [length h])).
    simpl. exists cs0, t.
    split_and!; [done| |by rewrite attach_lookup_old by lia|done|done|].
    + eapply laid_frame; [exact Hl|]. intros x tx ??.
      exists tx. split; [|apply skel_refl].
      rewrite attach_lookup_old by lia. done.
    + replace (d + S (S k)) with (S d + S k) by lia.
      by apply IH.
Qed.

Lemma take_insert_snoc {A} (l : list A) d x :
  d < length l → take (d + 1) (<[d := x]> l) = take d l ++ [x].
Proof.
  revert d. induction l as [|a l IH]; intros [|d] ?; simpl in *; try lia.
  - by rewrite take_0.
  - f_equal. apply IH. lia.
Qed.

Lemma attach_inv raw d nm st du s s' :
  p_inv s → attach raw d nm st du s = Ok s' → p_inv s'.
Proof.
  unfold p_inv, attach. intros Hinv.
  pose proof (spine_laid _ _ _ _ _ _ _ Hinv) as Hl.
  destruct (d =? 0) eqn:Hd0.
  { intros [= <-]. simpl. rewrite length_app. simpl.
    replace (length (p_heap s) + 1) with (S (length (p_heap s))) by lia.
    exists (p_tasks s), (mkTask nm st du [] None d).
    apply Nat.eqb_eq in Hd0 as ->.
    split_and!; [done| |by rewrite list_lookup_middle|done|done|constructor].
    eapply laid_frame; [exact Hl|]. intros x tx ? Hx.
    exists tx. split; [|apply skel_refl]. by apply lookup_app_l_Some. }
  apply Nat.eqb_neq in Hd0.
  destruct (length (p_stack s) <? d) eqn:Hlt; [done|].
  apply Nat.ltb_ge in Hlt.
  destruct (p_stack s !! (d - 1)) as [par|] eqn:Hpar; [|done].
  pose proof (spine_attach _ nm st du _ _ _ _ _ _ _ Hinv Hpar) as Hsp.
  replace (0 + S (d - 1)) with d in Hsp by lia.
  replace (S (d - 1)) with d in Hsp by lia.
  destruct (d =? length (p_stack s)) eqn:Hdl; intros [= <-]; simpl;
    rewrite attach_length.
  - apply Nat.eqb_eq in Hdl.
    rewrite take_ge in Hsp by lia. done.
  - apply Nat.eqb_neq in Hdl.
    rewrite take_insert_snoc by lia. done.
Qed.

Lemma for_each_inv {A B} (I : A → Prop) (body : B → A → result A) xs a a' :
  (∀ x a a', I a → body x a = Ok a' → I a') →
  I a → for_each body xs a = Ok a' → I a'.
Proof.
  intros Hbody. revert a. induction xs as [|x xs IH]; simpl; intros a Ha.
  - by intros [= <-].
  - intros (a1 & H1 & H2)%bind_Ok. eauto.
Qed.

Lemma p_init_inv : p_inv p_init.
Proof. constructor. Qed.

Lemma parse_line_inv s line s' :
  p_inv s → parse_line s line = Ok s' → p_inv s'.
Proof.
  unfold parse_line. intros Hinv.
  destruct (skipped _); [by intros [= <-]|].
  intros ([[[d nm] st] du] & _ & Hat)%bind_Ok.
  by eapply attach_inv.
Qed.

Lemma parse_lines_inv lines s s' :
  p_inv s → parse_lines lines s = Ok s' → p_inv s'.
Proof.
  apply (for_each_inv p_inv). intros ???. apply parse_line_inv.
Qed.

(** ** The bottom-up walk *)

Lemma same_but_status_refl t : same_but_status t t.
Proof. repeat split. Qed.

Lemma same_but_status_trans t1 t2 t3 :
  same_but_status t1 t2 → same_but_status t2 t3 → same_but_status t1 t3.
Proof. unfold same_but_status, skel. intuition congruence. Qed.

Lemma same_but_status_set s t : same_but_status t (set_status s t).
Proof. repeat split. Qed.

Lemma statuses_ext h h' cs :
  (∀ c, c ∈ cs → h' !! c = h !! c) → statuses h' cs = statuses h cs.
Proof.
  induction cs as [|c cs IH]; intros Hext; simpl; [done|].
  unfold deref. rewrite Hext by (by left).
  rewrite IH; [done|]. intros ??. apply Hext. by right.
Qed.

Lemma statuses_total h cs :
  (∀ c, c ∈ cs → is_Some (h !! c)) → ∃ ss, statuses h cs = Ok ss.
Proof.
  induction cs as [|c cs IH]; intros Hall; simpl; [by eexists|].
  destruct (Hall c) as [t Ht]; [by left|].
  destruct IH as [ss Hss]; [intros ??; apply Hall; by right|].
  unfold deref. rewrite Ht. simpl. rewrite Hss. simpl. by eexists.
Qed.

Lemma rollup_at_frame h h' x :
  rollup_at h x →
  h' !! x = h !! x →
  (∀ t c, h !! x = Some t → c ∈ children t → h' !! c = h !! c) →
  rollup_at h' x.
Proof.
  intros Hr Hx Hc t Ht Hleaf. rewrite Hx in Ht.
  destruct (Hr t Ht Hleaf) as (ss & Hss & Hst).
  exists ss. split; [|done]. rewrite <- Hss. apply statuses_ext. eauto.
Qed.

Lemma laid_children_range h p d i j cs x t :
  laid h p d i j cs → i ≤ x < j → h !! x = Some t →
  ∀ c, c ∈ children t → x < c < j.
Proof.
  intros Hl Hx Ht c Hc.
  destruct (laid_sub _ _ _ _ _ _ _ Hl Hx) as (t' & k & Ht' & Hk & Hsub).
  simplify_eq.
  apply laid_roots in Hsub. rewrite Forall_forall in Hsub.
  destruct (Hsub c Hc) as (? & _). lia.
Qed.

Lemma walked_same h0 h' i j x :
  walked h0 h' i j → ¬ i ≤ x < j → h' !! x = h0 !! x.
Proof.
  intros (Hlen & Hpt & _) Hx.
  destruct (h0 !! x) as [t0|] eqn:H0.
  - destruct (Hpt x t0 H0) as (t' & -> & _ & _ & Heq). by rewrite Heq.
  - apply lookup_ge_None in H0. apply lookup_ge_None. lia.
Qed.

Lemma walked_refl h i : walked h h i i.
Proof.
  split; [done|]. split; [|intros; lia].
  intros x t0 ?. exists t0.
  split; [done|]. split; [apply same_but_status_refl|done].
Qed.

Lemma walked_seq h0 h2 h3 i k j :
  i ≤ k ≤ j →
  walked h0 h2 i k → walked h2 h3 k j →
  (∀ x t c, i ≤ x < k → h2 !! x = Some t → c ∈ children t → c < k) →
  walked h0 h3 i j.
Proof.
  intros Hikj (Hlen2 & Hpt2 & Hroll2) (Hlen3 & Hpt3 & Hroll3) Hrange.
  split; [congruence|]. split.
  - intros x t0 Hx0.
    destruct (Hpt2 x t0 Hx0) as (t2 & Hx2 & Hs2 & Hleaf2 & Hout2).
    destruct (Hpt3 x t2 Hx2) as (t3 & Hx3 & Hs3 & Hleaf3 & Hout3).
    exists t3. split; [done|]. split; [by eapply same_but_status_trans|]. split.
    + intros Hl. rewrite <- (Hleaf2 Hl). apply Hleaf3. by rewrite (Hleaf2 Hl).
    + intros Hx. rewrite Hout3 by lia. apply Hout2. lia.
  - intros x Hx. destruct (decide (x < k)); [|apply Hroll3; lia].
    assert (walked h2 h3 k j) as Hw3 by (by split).
    apply (rollup_at_frame h2); [apply Hroll2; lia| |].
    + eapply walked_same; [exact Hw3|lia].
    + intros t c Ht Hc. eapply walked_same; [exact Hw3|].
      specialize (Hrange x t c ltac:(lia) Ht Hc). lia.
Qed.

(** The last step of [walk] on the task [i], once its children, which fill
    [i+1 .. k-1], have been walked. *)
Lemma walk_self h0 h1 i k t0 :
  i < k →
  h0 !! i = Some t0 →
  walked h0 h1 (S i) k →
  (∀ c, c ∈ children t0 → i < c ∧ is_Some (h0 !! c)) →
  (∀ x t c, S i ≤ x < k → h1 !! x = Some t → c ∈ children t → x < c) →
  ∃ h2, (if is_leaf t0 then Ok h1 else recalc_status_from_children i h1) = Ok h2
        ∧ walked h0 h2 i k.
Proof.
  intros Hik Hi0 (Hlen1 & Hpt1 & Hroll1) Hkids Hbelow.
  destruct (Hpt1 i t0 Hi0) as (t1 & Hi1 & _ & _ & Hout1).
  rewrite Hout1 in Hi1 by lia.
  destruct (is_leaf t0) eqn:Hleaf.
  { exists h1. split; [done|]. split; [done|]. split.
    - intros x tx Hx. destruct (Hpt1 x tx Hx) as (t' & ? & ? & ? & Hout).
      exists t'. split; [done|]. split; [done|]. split; [done|].
      intros ?. apply Hout. lia.
    - intros x Hx. destruct (decide (x = i)) as [->|]; [|apply Hroll1; lia].
      intros t Ht. simplify_eq. congruence. }
  destruct (statuses_total h1 (children t0)) as [ss Hss].
  { intros c Hc. apply lookup_lt_is_Some. rewrite Hlen1.
    apply lookup_lt_is_Some. by apply Hkids. }
  exists (alter (set_status (rolled ss)) i h1).
  split.
  { unfold recalc_status_from_children, deref. rewrite Hi1. simpl.
    rewrite Hleaf, Hss. done. }
  split; [by rewrite length_alter|]. split.
  - intros x tx Hx. destruct (decide (x = i)) as [->|Hne].
    + simplify_eq. exists (set_status (rolled ss) t0).
      rewrite list_lookup_alter_eq, Hi1. split; [done|].
      split; [apply same_but_status_set|]. split; [congruence|lia].
    + destruct (Hpt1 x tx Hx) as (t' & ? & ? & ? & Hout).
      exists t'. rewrite list_lookup_alter_ne by done.
      split; [done|]. split; [done|]. split; [done|].
      intros ?. apply Hout. lia.
  - intros x Hx. destruct (decide (x = i)) as [->|Hne].
    + intros t. rewrite list_lookup_alter_eq, Hi1. intros [= <-] _.
      exists ss. split; [|done]. simpl. rewrite <- Hss.
      apply statuses_ext. intros c Hc.
      apply list_lookup_alter_ne. apply Hkids in Hc. lia.
    + apply (rollup_at_frame h1); [apply Hroll1; lia| |].
      * by apply list_lookup_alter_ne.
      * intros t c Ht Hc. apply list_lookup_alter_ne.
        specialize (Hbelow x t c ltac:(lia) Ht Hc). lia.
Qed.

Lemma walked_agree h0 h' i j a b : walked h0 h' i j → agree h0 h' a b.
Proof.
  intros (_ & Hpt & _) x t _ Hx.
  destruct (Hpt x t Hx) as (t' & ? & (_ & _ & ?) & _). by exists t'.
Qed.

Lemma agree_trans h1 h2 h3 a b : agree h1 h2 a b → agree h2 h3 a b → agree h1 h3 a b.
Proof.
  intros H12 H23 x t Hx Ht.
  destruct (H12 x t Hx Ht) as (t2 & Ht2 & ?).
  destruct (H23 x t2 Hx Ht2) as (t3 & Ht3 & ?).
  exists t3. split; [done|]. by eapply skel_trans.
Qed.

Lemma agree_narrow h h0 a b a' b' :
  a ≤ a' → b' ≤ b → agree h h0 a b → agree h h0 a' b'.
Proof. intros ?? Hag x t ??. apply Hag; [lia|done]. Qed.

Lemma walk_all_laid h p d i j cs :
  laid h p d i j cs →
  ∀ fuel h0, j - i ≤ fuel → agree h h0 i j →
  ∃ h', walk_all fuel cs h0 = Ok h' ∧ walked h0 h' i j.
Proof.
  induction 1 as [p d i|p d i k j t cs Hi Hp Hd Hkids IHkids Hrest IHrest];
    intros fuel h0 Hfuel Hag.
  { exists h0. split; [done|apply walked_refl]. }
  pose proof (laid_le _ _ _ _ _ _ Hkids).
  pose proof (laid_le _ _ _ _ _ _ Hrest).
  destruct fuel as [|f]; [lia|].
  destruct (Hag i t) as (t0 & Hi0 & Hsk); [lia|done|].
  assert (children t0 = children t) as Hch by (by destruct Hsk as (-> & _)).
  assert (laid h0 (Some i) (S d) (S i) k (children t0)) as Hkids0.
  { rewrite Hch. eapply laid_frame; [exact Hkids|].
    apply (agree_narrow h h0 i j); [lia|lia|done]. }
  assert (agree h h0 (S i) k) as Hag1
    by (apply (agree_narrow h h0 i j); [lia|lia|done]).
  destruct (IHkids f h0 ltac:(lia) Hag1) as (h1 & Hw1 & W1).
  destruct (walk_self h0 h1 i k t0) as (h2 & Hw2 & W2); [lia|done|done| | |].
  { intros c Hc. apply laid_roots in Hkids0. rewrite Forall_forall in Hkids0.
    destruct (Hkids0 c Hc) as (? & tc & -> & _). split; [lia|done]. }
  { intros x tx c Hx Htx Hc.
    assert (laid h1 (Some i) (S d) (S i) k (children t0)) as Hkids1.
    { eapply laid_frame; [exact Hkids0|]. by eapply walked_agree. }
    exact (proj1 (laid_children_range _ _ _ _ _ _ _ _ Hkids1 Hx Htx c Hc)). }
  assert (agree h h2 k j) as Hag2.
  { eapply agree_trans; [apply (agree_narrow h h0 i j); [lia|lia|done]|].
    by eapply walked_agree. }
  destruct (IHrest (S f) h2 ltac:(lia) Hag2) as (h3 & Hw3 & W3).
  exists h3. split.
  { assert (h1 !! i = Some t0) as Hi1.
    { rewrite (walked_same _ _ _ _ i W1) by lia. done. }
    unfold walk_all in *. simpl. unfold deref. rewrite Hi0. simpl.
    rewrite Hch, Hw1. simpl. rewrite Hi1. simpl. rewrite Hw2. simpl. exact Hw3. }
  eapply walked_seq; [|exact W2|exact W3|]; [lia|].
  intros x tx c Hx Htx Hc.
  assert (laid h2 p d i k [i]) as Hl2.
  { eapply laid_frame; [|by eapply (walked_agree h0 h2 i k)].
    eapply laid_cons; [done| | |exact Hkids0|constructor]; destruct Hsk as (_ & ? & ?); congruence. }
  exact (proj2 (laid_children_range _ _ _ _ _ _ _ _ Hl2 Hx Htx c Hc)).
Qed.

(** ** From the layout to the links *)

Lemma laid_linked h rs : laid h None 0 0 (length h) rs → linked h rs.
Proof.
  intros Hl.
  assert (∀ i t, h !! i = Some t → Forall (child_ok h i t) (children t)) as Hchild.
  { intros i t Hi. apply lookup_lt_Some in Hi as Hlt.
    destruct (laid_sub _ _ _ _ _ _ i Hl) as (t' & k & Ht' & _ & Hsub); [lia|].
    simplify_eq. apply laid_roots in Hsub.
    eapply Forall_impl; [exact Hsub|].
    intros c (? & tc & ? & ? & ?). split; [lia|]. by exists tc. }
  split; [done|]. split.
  - intros i t Hi. apply lookup_lt_Some in Hi as Hlt. unfold parent_ok.
    destruct (laid_cover _ _ _ _ _ _ i Hl) as [Hin|(y & ty & _ & Hy & Hin)]; [lia| |].
    + apply laid_roots in Hl. rewrite Forall_forall in Hl.
      destruct (Hl i Hin) as (_ & t' & ? & Hp' & ?). simplify_eq.
      by rewrite Hp'.
    + specialize (Hchild y ty Hy). rewrite Forall_forall in Hchild.
      destruct (Hchild i Hin) as (_ & t' & ? & Hp' & _). simplify_eq.
      rewrite Hp'. by exists ty.
  - apply laid_roots in Hl. eapply Forall_impl; [exact Hl|].
    intros r (_ & tr & ? & ? & _). by exists tr.
Qed.

Lemma skel_eq_sym h h' : skel_eq h h' → skel_eq h' h.
Proof.
  intros (Hlen & Hpt). split; [done|]. intros x t' Hx'.
  destruct (h !! x) as [t|] eqn:Hx.
  - destruct (Hpt x t Hx) as (t'' & ? & (? & ? & ?)). simplify_eq.
    exists t. by repeat split.
  - apply lookup_ge_None in Hx. apply lookup_lt_Some in Hx'. lia.
Qed.

Lemma linked_skel_eq h h' rs : skel_eq h h' → linked h rs → linked h' rs.
Proof.
  intros Heq (Hchild & Hpar & Hroots).
  pose proof (skel_eq_sym _ _ Heq) as (_ & Hback).
  destruct Heq as (_ & Hfwd).
  split; [|split].
  - intros i t' Hi'. destruct (Hback i t' Hi') as (t & Hi & Hc & _ & Hd).
    rewrite Hc. eapply Forall_impl; [exact (Hchild i t Hi)|].
    intros c (? & tc & Hc0 & ? & ?). split; [done|].
    destruct (Hfwd c tc Hc0) as (tc' & ? & _ & ? & ?).
    exists tc'. split; [done|]. split; congruence.
  - intros i t' Hi'. destruct (Hback i t' Hi') as (t & Hi & _ & Hp & Hd).
    specialize (Hpar i t Hi). unfold parent_ok in *. rewrite Hp.
    destruct (parent t) as [p|]; [|by rewrite Hd].
    destruct Hpar as (tp & Hp0 & ?).
    destruct (Hfwd p tp Hp0) as (tp' & ? & Hc & _). exists tp'. by rewrite <- Hc.
  - eapply Forall_impl; [exact Hroots|]. intros r (t & Hr & ?).
    destruct (Hfwd r t Hr) as (t' & ? & _ & ? & _). exists t'. split; congruence.
Qed.

Lemma skel_eq_set_status h s i : skel_eq h (alter (set_status s) i h).
Proof.
  split; [by rewrite length_alter|]. intros x t Hx.
  destruct (decide (x = i)) as [->|].
  - exists (set_status s t). rewrite list_lookup_alter_eq, Hx.
    split; [done|apply skel_set_status].
  - exists t. rewrite list_lookup_alter_ne by done. split; [done|apply skel_refl].
Qed.

Lemma walked_skel_eq h0 h' i j : walked h0 h' i j → skel_eq h0 h'.
Proof.
  intros (Hlen & Hpt & _). split; [done|]. intros x t Hx.
  destruct (Hpt x t Hx) as (t' & ? & (_ & _ & ?) & _). by exists t'.
Qed.

(** What [parse_tasks_from_file] returns is laid out in pre-order, with
    every status rolled up. *)
Lemma parse_laid f F :
  parse_tasks_from_file f = Ok F →
  laid (store F) None 0 0 (length (store F)) (roots F) ∧ wf F.
Proof.
  assert (laid [] None 0 0 0 [] ∧ wf (mkForest [] [])) as Hempty.
  { split; [constructor|]. split.
    - split; [|split]; [intros ?? Hx|intros ?? Hx|constructor]; done.
    - intros i t Hx. done. }
  unfold parse_tasks_from_file.
  destruct f as [|e| |text]; simpl.
  - by intros [= <-].
  - destruct e; try done. by intros [= <-].
  - done.
  - clear Hempty. intros (st & Hparse & (h' & Hwalk & [= <-])%bind_Ok)%bind_Ok. simpl.
    pose proof (parse_lines_inv _ _ _ p_init_inv Hparse) as Hinv.
    apply spine_laid in Hinv.
    destruct (walk_all_laid _ _ _ _ _ _ Hinv (length (p_heap st)) (p_heap st))
      as (h2 & Hw2 & W); [lia| |].
    { intros x t _ Hx. exists t. split; [done|apply skel_refl]. }
    rewrite Hw2 in Hwalk. simplify_eq.
    pose proof (walked_skel_eq _ _ _ _ W) as Heq.
    assert (laid h' None 0 0 (length h') (p_tasks st)) as Hl'.
    { destruct Heq as (-> & Hpt). eapply laid_frame; [exact Hinv|].
      intros x t _. apply Hpt. }
    split; [done|]. split; [by apply laid_linked|].
    intros i. destruct W as (Hlen & _ & Hroll).
    destruct (decide (i < length (p_heap st))); [apply Hroll; lia|].
    intros t Hi. simpl in Hi. apply lookup_lt_Some in Hi. lia.
Qed.

(** ** Propagation to the ancestors *)

Lemma restatus_refl h : restatus h h.
Proof.
  split; [done|]. intros x t ?. exists t.
  split; [done|]. split; [apply same_but_status_refl|done].
Qed.

Lemma restatus_trans h1 h2 h3 : restatus h1 h2 → restatus h2 h3 → restatus h1 h3.
Proof.
  intros (Hl12 & H12) (Hl23 & H23). split; [congruence|]. intros x t1 Hx1.
  destruct (H12 x t1 Hx1) as (t2 & Hx2 & Hs12 & Hleaf12).
  destruct (H23 x t2 Hx2) as (t3 & Hx3 & Hs23 & Hleaf23).
  exists t3. split; [done|]. split; [by eapply same_but_status_trans|].
  intros Hl. rewrite <- (Hleaf12 Hl). apply Hleaf23. by rewrite (Hleaf12 Hl).
Qed.

Lemma restatus_set h s i t :
  h !! i = Some t → is_leaf t = false → restatus h (alter (set_status s) i h).
Proof.
  intros Hi Hleaf. split; [by rewrite length_alter|]. intros x tx Hx.
  destruct (decide (x = i)) as [->|].
  - rewrite Hi in Hx. injection Hx as <-.
    exists (set_status s t). rewrite list_lookup_alter_eq, Hi.
    split; [done|]. split; [apply same_but_status_set|congruence].
  - exists tx. rewrite list_lookup_alter_ne by done.
    split; [done|]. split; [apply same_but_status_refl|done].
Qed.

Lemma restatus_skel_eq h h' : restatus h h' → skel_eq h h'.
Proof.
  intros (Hlen & Hpt). split; [done|]. intros x t Hx.
  destruct (Hpt x t Hx) as (t' & ? & (_ & _ & ?) & _). by exists t'.
Qed.

Lemma rollup_at_alter_other h s i x :
  x ≠ i → (∀ t, h !! x = Some t → i ∉ children t) →
  rollup_at h x → rollup_at (alter (set_status s) i h) x.
Proof.
  intros Hne Hnot Hr. apply (rollup_at_frame h); [done| |].
  - by apply list_lookup_alter_ne.
  - intros t c Ht Hc. apply list_lookup_alter_ne. intros ->. by eapply Hnot.
Qed.

Lemma rollup_at_alter_self h i t ss :
  h !! i = Some t → i ∉ children t → statuses h (children t) = Ok ss →
  rollup_at (alter (set_status (rolled ss)) i h) i.
Proof.
  intros Hi Hnot Hss t'. rewrite list_lookup_alter_eq, Hi. intros [= <-] _.
  exists ss. split; [|done]. simpl. rewrite <- Hss. apply statuses_ext.
  intros c Hc. apply list_lookup_alter_ne. intros ->. done.
Qed.

Lemma linked_child h rs i t c :
  linked h rs → h !! i = Some t → c ∈ children t → child_ok h i t c.
Proof.
  intros (Hchild & _) Hi Hc. specialize (Hchild i t Hi).
  rewrite Forall_forall in Hchild. by apply Hchild.
Qed.

Lemma linked_statuses h rs i t :
  linked h rs → h !! i = Some t → ∃ ss, statuses h (children t) = Ok ss.
Proof.
  intros Hl Hi. apply statuses_total. intros c Hc.
  destruct (linked_child _ _ _ _ _ Hl Hi Hc) as (_ & tc & -> & _). done.
Qed.

Lemma linked_not_own_child h rs i t : linked h rs → h !! i = Some t → i ∉ children t.
Proof.
  intros Hl Hi Hc. destruct (linked_child _ _ _ _ _ Hl Hi Hc) as (? & _). lia.
Qed.

(** The parent of a task is the one task that lists it as a child. *)
Lemma linked_parent_unique h rs x tx c tc :
  linked h rs → h !! x = Some tx → c ∈ children tx → h !! c = Some tc →
  parent tc = Some x.
Proof.
  intros Hl Hx Hc Htc.
  destruct (linked_child _ _ _ _ _ Hl Hx Hc) as (_ & tc' & ? & ? & _).
  by simplify_eq.
Qed.

Lemma linked_parent_lt h rs i t p :
  linked h rs → h !! i = Some t → parent t = Some p → p < i ∧ is_Some (h !! p).
Proof.
  intros Hl Hi Hp. pose proof Hl as (_ & Hpar & _).
  specialize (Hpar i t Hi). unfold parent_ok in Hpar. rewrite Hp in Hpar.
  destruct Hpar as (tp & Htp & Hin).
  destruct (linked_child _ _ _ _ _ Hl Htp Hin) as (? & _). split; [lia|done].
Qed.

Lemma propagate_up_spec rs fuel : ∀ h self,
  linked h rs → self < fuel → is_Some (h !! self) →
  (∀ x, x ≠ self → (∀ t, h !! x = Some t → self ∉ children t) → rollup_at h x) →
  ∃ h', propagate_up fuel self h = Ok h' ∧ restatus h h' ∧ ∀ x, rollup_at h' x.
Proof.
  induction fuel as [|fuel IH]; intros h self Hl Hfuel [t Hself] Hpre; [lia|].
  (* this task *)
  assert (∃ h1, (if is_leaf t then Ok h else recalc_status_from_children self h) = Ok h1
                ∧ restatus h h1 ∧ rollup_at h1 self
                ∧ (∀ x, x ≠ self → (∀ tx, h !! x = Some tx → self ∉ children tx) →
                        rollup_at h1 x)) as (h1 & Hrecalc & Hre1 & Hroll1 & Hpre1).
  { destruct (is_leaf t) eqn:Hleaf.
    - exists h. split; [done|]. split; [apply restatus_refl|]. split; [|done].
      intros t' ?. simplify_eq. congruence.
    - destruct (linked_statuses _ _ _ _ Hl Hself) as [ss Hss].
      exists (alter (set_status (rolled ss)) self h). split.
      { unfold recalc_status_from_children, deref. rewrite Hself. simpl.
        by rewrite Hleaf, Hss. }
      split; [by eapply restatus_set|]. split.
      + eapply rollup_at_alter_self; [done| |done].
        by eapply linked_not_own_child.
      + intros x Hne Hnot. apply rollup_at_alter_other; [done|done|by apply Hpre]. }
  assert (linked h1 rs) as Hl1.
  { eapply linked_skel_eq; [|exact Hl]. by apply restatus_skel_eq. }
  assert (∃ t1, h1 !! self = Some t1 ∧ parent t1 = parent t) as (t1 & Hself1 & Hp1).
  { destruct Hre1 as (_ & Hpt). destruct (Hpt self t Hself) as (t1 & ? & Hs & _).
    exists t1. split; [done|]. by destruct Hs as (_ & _ & _ & -> & _). }
  cbn [propagate_up]. rewrite (proj2 (deref_Ok _ _ _) Hself).
  cbn [mbind result_bind]. rewrite Hrecalc. cbn [mbind result_bind].
  rewrite (proj2 (deref_Ok _ _ _) Hself1). cbn [mbind result_bind]. rewrite Hp1.
  destruct (parent t) as [p|] eqn:Hp.
  - destruct (linked_parent_lt _ _ _ _ _ Hl Hself Hp) as (Hlt & [tp Htp]).
    destruct (IH h1 p) as (h' & Hprop & Hre & Hroll); [done|lia| |  |].
    { destruct Hre1 as (_ & Hpt). destruct (Hpt p tp Htp) as (? & -> & _). done. }
    { intros x Hne Hnot. destruct (decide (x = self)) as [->|Hne']; [done|].
      apply Hpre1; [done|]. intros tx Hx Hin.
      pose proof (linked_parent_unique _ _ _ _ _ _ Hl Hx Hin Hself). congruence. }
    exists h'. split; [done|]. split; [by eapply restatus_trans|done].
  - exists h1. split; [done|]. split; [done|]. intros x.
    destruct (decide (x = self)) as [->|Hne]; [done|].
    apply Hpre1; [done|]. intros tx Hx Hin.
    pose proof (linked_parent_unique _ _ _ _ _ _ Hl Hx Hin Hself). congruence.
Qed.

Lemma statuses_ext_status h h' cs :
  (∀ c, c ∈ cs → status <$> h' !! c = status <$> h !! c) →
  statuses h' cs = statuses h cs.
Proof.
  induction cs as [|c cs IH]; intros Hext; simpl; [done|].
  rewrite IH by (intros ??; apply Hext; by right).
  specialize (Hext c ltac:(by left)). unfold deref.
  destruct (h' !! c), (h !! c); simpl in *; try done.
  injection Hext as ->. done.
Qed.

Lemma rollup_at_frame_status h h' x :
  rollup_at h x →
  h' !! x = h !! x →
  (∀ t c, h !! x = Some t → c ∈ children t →
          status <$> h' !! c = status <$> h !! c) →
  rollup_at h' x.
Proof.
  intros Hr Hx Hc t Ht Hleaf. rewrite Hx in Ht.
  destruct (Hr t Ht Hleaf) as (ss & Hss & Hst).
  exists ss. split; [|done]. rewrite <- Hss. apply statuses_ext_status. eauto.
Qed.

Lemma rolled_enum ss : rolled ss ∈ STATUS_CYCLE.
Proof.
  unfold rolled, STATUS_CYCLE.
  destruct (all_eq DONE ss); [|destruct (all_eq OPEN ss)];
    repeat ((by left) || right).
Qed.

Lemma cycled_enum s : cycled s ∈ STATUS_CYCLE.
Proof.
  unfold cycled, STATUS_CYCLE.
  repeat case_bool_decide; repeat ((by left) || right).
Qed.

(** Statuses stay among the three when only tasks with children change
    theirs and every such status is a roll-up. *)
Lemma restatus_enum h0 h' :
  restatus h0 h' → (∀ x, rollup_at h' x) → enum_all h0 → enum_all h'.
Proof.
  intros (Hlen & Hpt) Hroll Henum. apply Forall_lookup_2. intros x t' Hx'.
  destruct (h0 !! x) as [t0|] eqn:Hx0.
  2:{ apply lookup_ge_None in Hx0. apply lookup_lt_Some in Hx'. lia. }
  destruct (Hpt x t0 Hx0) as (t'' & ? & Hsame & Hleaf). simplify_eq.
  destruct (is_leaf t0) eqn:Hl0.
  - rewrite Hleaf by done. by eapply (Forall_lookup_1 _ _ _ _ Henum).
  - destruct (Hroll x t' Hx') as (ss & _ & ->); [|apply rolled_enum].
    rewrite <- Hl0. symmetry. apply is_leaf_skel. by destruct Hsame as (_ & _ & ?).
Qed.

(** ** Flattening terminates on a linked store *)

Lemma for_each_total {A B} (I : A → Prop) (body : B → A → result A) xs a :
  (∀ x a, x ∈ xs → I a → ∃ a', body x a = Ok a' ∧ I a') →
  I a → ∃ a', for_each body xs a = Ok a' ∧ I a'.
Proof.
  revert a. induction xs as [|x xs IH]; intros a Hbody Ha; simpl.
  - by exists a.
  - destruct (Hbody x a) as (a1 & H1 & Ha1); [by left|done|].
    rewrite H1. simpl. apply IH; [|done].
    intros y b ??. apply Hbody; [by right|done].
Qed.

Lemma flatten_walk_total h rs fuel : ∀ t acc,
  linked h rs → is_Some (h !! t) → length h ≤ fuel + t → valid_refs h acc →
  ∃ r, flatten_walk fuel h t acc = Ok r ∧ valid_refs h r.
Proof.
  induction fuel as [|fuel IH]; intros t acc Hl [tt Ht] Hfuel Hacc.
  { apply lookup_lt_Some in Ht. lia. }
  simpl. unfold deref. rewrite Ht. simpl.
  apply (for_each_total (valid_refs h)).
  - intros c acc' Hc Hacc'.
    destruct (linked_child _ _ _ _ _ Hl Ht Hc) as (? & tc & Htc & _).
    apply IH; [done|by rewrite Htc|lia|done].
  - apply Forall_app. split; [done|]. by repeat constructor.
Qed.

Lemma flatten_tasks_total F :
  linked (store F) (roots F) →
  ∃ ts, flatten_tasks F = Ok ts ∧ valid_refs (store F) ts.
Proof.
  intros Hl. unfold flatten_tasks.
  apply (for_each_total (valid_refs (store F))); [|constructor].
  intros r acc Hr Hacc. pose proof Hl as (_ & _ & Hroots).
  rewrite Forall_forall in Hroots. destruct (Hroots r Hr) as (t & Ht & _).
  eapply flatten_walk_total; [done|by rewrite Ht|lia|done].
Qed.

Lemma get_selected_task_total idx F :
  linked (store F) (roots F) →
  ∃ sel, get_selected_task idx F = Ok sel ∧
         ∀ task, sel = Some task → is_Some (store F !! task).
Proof.
  intros Hl. unfold get_selected_task. destruct idx as [i|].
  - destruct (flatten_tasks_total F Hl) as (ts & -> & Hts). simpl.
    case_bool_decide.
    + eexists. split; [done|]. intros task Hsel.
      unfold valid_refs in Hts. rewrite Forall_forall in Hts.
      apply Hts. by eapply list_elem_of_lookup_2.
    + exists None. done.
  - exists None. done.
Qed.

(** ** The editing actions keep the tree well formed *)

Lemma cycle_lookup s :
  STATUS_CYCLE !! ((match index_of s STATUS_CYCLE with
                    | Some i => i
                    | None => 0
                    end + 1) mod length STATUS_CYCLE) = Some (cycled s).
Proof.
  unfold cycled, STATUS_CYCLE. simpl.
  repeat case_bool_decide; subst; try done.
Qed.

Lemma toggle_leaf F task t :
  wf F → store F !! task = Some t → is_leaf t = true →
  ∃ F', toggle_status (Some task) F = Ok F' ∧
        roots F' = roots F ∧
        restatus (alter (set_status (cycled (status t))) task (store F)) (store F') ∧
        store F' !! task = Some (set_status (cycled (status t)) t) ∧
        wf F'.
Proof.
  intros (Hl & Hroll) Ht Hleaf.
  set (s := cycled (status t)).
  set (h0 := alter (set_status s) task (store F)).
  assert (linked h0 (roots F)) as Hl0.
  { eapply linked_skel_eq; [apply skel_eq_set_status|done]. }
  assert (h0 !! task = Some (set_status s t)) as Ht0.
  { unfold h0. by rewrite list_lookup_alter_eq, Ht. }
  destruct (propagate_up_spec (roots F) (length h0) h0 task)
    as (h' & Hprop & Hre & Hroll'); [done|by eapply lookup_lt_Some|by rewrite Ht0| |].
  { intros x Hne Hnot. apply rollup_at_alter_other; [done| |done].
    intros tx Hx. apply Hnot. unfold h0. by rewrite list_lookup_alter_ne. }
  exists (mkForest h' (roots F)). split.
  { unfold toggle_status. rewrite (proj2 (deref_Ok _ _ _) Ht).
    cbn [mbind result_bind]. rewrite Hleaf. cbn [negb].
    rewrite cycle_lookup. fold s h0. by rewrite Hprop. }
  split; [done|]. split; [done|]. split.
  - destruct Hre as (_ & Hpt). destruct (Hpt task _ Ht0) as (t' & ? & _ & Heq).
    rewrite <- Heq; [done|]. by rewrite <- Hleaf.
  - split; [|done]. simpl. eapply linked_skel_eq; [|exact Hl0].
    by apply restatus_skel_eq.
Qed.

Lemma toggle_interior F task t :
  store F !! task = Some t → is_leaf t = false →
  toggle_status (Some task) F = Ok F.
Proof.
  intros Ht Hleaf. unfold toggle_status, deref. rewrite Ht. simpl.
  by rewrite Hleaf.
Qed.

Lemma toggle_status_wf sel F :
  wf F → (∀ task, sel = Some task → is_Some (store F !! task)) →
  ∃ F', toggle_status sel F = Ok F' ∧ wf F' ∧
        (enum_all (store F) → enum_all (store F')).
Proof.
  intros Hwf Hsel. destruct sel as [task|]; [|by exists F].
  destruct (Hsel task eq_refl) as [t Ht].
  destruct (is_leaf t) eqn:Hleaf.
  - destruct (toggle_leaf F task t Hwf Ht Hleaf) as (F' & ? & _ & Hre & _ & Hwf').
    exists F'. split; [done|]. split; [done|]. intros Henum.
    eapply restatus_enum; [exact Hre|by destruct Hwf'|].
    apply Forall_alter; [done|]. intros ? _ _. apply cycled_enum.
  - exists F. split; [by eapply toggle_interior|done].
Qed.

Lemma linked_add_root h rs nm du :
  linked h rs →
  linked (h ++ [mkTask nm OPEN du [] None 0]) (rs ++ [length h]).
Proof.
  intros (Hchild & Hpar & Hroots). split; [|split].
  - intros i t [Hi|(_ & Hi)]%lookup_app_Some.
    + eapply Forall_impl; [exact (Hchild i t Hi)|].
      intros c (? & tc & ? & ?). split; [done|]. exists tc.
      split; [by apply lookup_app_l_Some|done].
    + apply list_lookup_singleton_Some in Hi as (_ & <-). constructor.
  - intros i t [Hi|(Hge & Hi)]%lookup_app_Some; unfold parent_ok.
    + specialize (Hpar i t Hi). unfold parent_ok in Hpar.
      destruct (parent t) as [p|].
      * destruct Hpar as (tp & ? & ?). exists tp.
        split; [by apply lookup_app_l_Some|done].
      * destruct Hpar. split; [done|]. apply elem_of_app. by left.
    + apply list_lookup_singleton_Some in Hi as (Hd & <-). simpl.
      split; [done|]. apply elem_of_app. right.
      replace i with (length h) by lia. by left.
  - apply Forall_app. split.
    + eapply Forall_impl; [exact Hroots|]. intros r (t & ? & ?).
      exists t. split; [by apply lookup_app_l_Some|done].
    + repeat constructor. eexists. by rewrite list_lookup_middle.
Qed.

Section add_child_store.
Context (h : heap) (rs : list ref) (p : ref) (tp : Task) (nm du : str).
Context (Hl : linked h rs) (Hp : h !! p = Some tp).
Let n := length h.
Let new := mkTask nm OPEN du [] (Some p) (depth tp + 1).
Let h0 := alter (append_child n) p (h ++ [new]).

Lemma add_child_lookup_new : h0 !! n = Some new.
Proof.
  apply lookup_lt_Some in Hp as ?. unfold h0.
  rewrite list_lookup_alter_ne by (unfold n; lia).
  by apply list_lookup_middle.
Qed.

Lemma add_child_lookup_par : h0 !! p = Some (append_child n tp).
Proof.
  apply lookup_lt_Some in Hp as ?. unfold h0.
  rewrite list_lookup_alter_eq. by rewrite lookup_app_l, Hp.
Qed.

Lemma add_child_lookup_other x : x ≠ p → x ≠ n → h0 !! x = h !! x.
Proof.
  intros ??. unfold h0. rewrite list_lookup_alter_ne by done.
  destruct (decide (x < n)); [by apply lookup_app_l|].
  rewrite (proj2 (lookup_ge_None h x)) by (unfold n in *; lia).
  apply lookup_ge_None. rewrite length_app. simpl. unfold n in *. lia.
Qed.

(** An old task is still there, with its status, parent and depth, and with
    at least the children it had. *)
Lemma add_child_old x t :
  h !! x = Some t →
  ∃ t', h0 !! x = Some t' ∧ status t' = status t ∧ parent t' = parent t ∧
        depth t' = depth t ∧ (∀ c, c ∈ children t → c ∈ children t').
Proof.
  intros Hx. apply lookup_lt_Some in Hx as ?.
  destruct (decide (x = p)) as [->|].
  - simplify_eq. exists (append_child n tp).
    split; [apply add_child_lookup_par|]. repeat split.
    intros c ?. simpl. apply elem_of_app. by left.
  - exists t. by rewrite add_child_lookup_other by (unfold n; lia).
Qed.

Lemma add_child_inv x t' :
  h0 !! x = Some t' →
  (x = n ∧ t' = new) ∨ (x = p ∧ t' = append_child n tp) ∨
  (x ≠ p ∧ x ≠ n ∧ h !! x = Some t').
Proof.
  intros Hx. destruct (decide (x = n)) as [->|].
  { left. rewrite add_child_lookup_new in Hx. by simplify_eq. }
  destruct (decide (x = p)) as [->|].
  { right; left. rewrite add_child_lookup_par in Hx. by simplify_eq. }
  right; right. by rewrite add_child_lookup_other in Hx.
Qed.

Lemma linked_add_child : linked h0 rs.
Proof.
  pose proof Hl as (Hchild & Hpar & Hroots).
  apply lookup_lt_Some in Hp as Hpn. fold n in Hpn.
  assert (∀ i t c, h !! i = Some t → child_ok h i t c →
                   ∀ t', depth t' = depth t → child_ok h0 i t' c) as Hkeep.
  { intros i t c Hi (? & tc & Hc & ? & ?) t' Hd. split; [done|].
    destruct (add_child_old c tc Hc) as (tc' & ? & _ & ? & ? & _).
    exists tc'. split; [done|]. split; congruence. }
  split; [|split].
  - intros i t' [(-> & ->)|[(-> & ->)|(? & ? & Hi)]]%add_child_inv.
    + constructor.
    + simpl. apply Forall_app. split.
      * eapply Forall_impl; [exact (Hchild p tp Hp)|].
        intros c Hc. by eapply Hkeep.
      * repeat constructor; [done|]. exists new.
        split; [apply add_child_lookup_new|]. split; [done|]. simpl. lia.
    + eapply Forall_impl; [exact (Hchild i t' Hi)|].
      intros c Hc. by eapply Hkeep.
  - assert (∀ i t t', h !! i = Some t → parent t' = parent t →
                      depth t' = depth t → parent_ok h0 rs i t') as Hkeep_par.
    { intros i t t' Hi Hpt Hdt. specialize (Hpar i t Hi).
      unfold parent_ok in *. rewrite Hpt, Hdt.
      destruct (parent t) as [q|]; [|done].
      destruct Hpar as (tq & Hq & Hin).
      destruct (add_child_old q tq Hq) as (tq' & ? & _ & _ & _ & Hsub).
      exists tq'. split; [done|]. by apply Hsub. }
    intros i t' [(-> & ->)|[(-> & ->)|(? & ? & Hi)]]%add_child_inv.
    + unfold parent_ok. simpl. exists (append_child n tp).
      split; [apply add_child_lookup_par|]. simpl. apply elem_of_app.
      right. by left.
    + by eapply Hkeep_par.
    + by eapply Hkeep_par.
  - eapply Forall_impl; [exact Hroots|]. intros r (t & Hr & ?).
    destruct (add_child_old r t Hr) as (t' & ? & _ & ? & _).
    exists t'. split; [done|congruence].
Qed.

End add_child_store.

Lemma rollup_at_app h new x :
  (∀ t c, h !! x = Some t → c ∈ children t → c < length h) →
  x ≠ length h → rollup_at h x → rollup_at (h ++ [new]) x.
Proof.
  intros Hkids Hne Hr. apply (rollup_at_frame h); [done| |].
  - destruct (decide (x < length h)); [by apply lookup_app_l|].
    rewrite (proj2 (lookup_ge_None h x)) by lia.
    apply lookup_ge_None. rewrite length_app. simpl. lia.
  - intros t c Ht Hc. apply lookup_app_l. by eapply Hkids.
Qed.

Lemma linked_child_lt h rs x t c :
  linked h rs → h !! x = Some t → c ∈ children t → c < length h.
Proof.
  intros Hl Hx Hc. destruct (linked_child _ _ _ _ _ Hl Hx Hc) as (_ & tc & Htc & _).
  by eapply lookup_lt_Some.
Qed.

Lemma add_subtask_worker_wf parent dialog F :
  wf F → (∀ p, parent = Some p → is_Some (store F !! p)) →
  ∃ F', add_subtask_worker parent dialog F = Ok F' ∧ wf F' ∧
        (enum_all (store F) → enum_all (store F')).
Proof.
  assert (OPEN ∈ STATUS_CYCLE) as Hopen by (by left).
  intros (Hl & Hroll) Hparent. unfold add_subtask_worker.
  destruct dialog as [[nm du]|]; [|by exists F].
  destruct parent as [p|].
  - destruct (Hparent p eq_refl) as [tp Hp].
    rewrite (proj2 (deref_Ok _ _ _) Hp). cbn [mbind result_bind].
    set (new := mkTask nm OPEN du [] (Some p) (depth tp + 1)).
    set (h0 := alter (append_child (length (store F))) p (store F ++ [new])).
    pose proof (linked_add_child _ _ _ _ nm du Hl Hp) as Hl0. fold new h0 in Hl0.
    pose proof (add_child_lookup_new _ _ _ nm du Hp) as Hnew. fold new h0 in Hnew.
    assert (length h0 = S (length (store F))) as Hlen0.
    { unfold h0. rewrite length_alter, length_app. simpl. lia. }
    destruct (propagate_up_spec (roots F) (length h0) h0 (length (store F)))
      as (h' & Hprop & Hre & Hroll'); [done|lia|by rewrite Hnew| |].
    { intros x Hne Hnot. destruct (decide (x = p)) as [->|Hnp].
      { exfalso. eapply Hnot; [by eapply add_child_lookup_par|].
        simpl. apply elem_of_app. right. by left. }
      apply (rollup_at_frame_status (store F)); [done| |].
      - by apply add_child_lookup_other.
      - intros t c Ht Hc.
        destruct (linked_child _ _ _ _ _ Hl Ht Hc) as (_ & tc & Htc & _).
        destruct (add_child_old _ _ _ nm du Hp c tc Htc) as (tc' & Htc' & Hst & _).
        fold new h0 in Htc'. rewrite Htc', Htc. simpl. by rewrite Hst. }
    rewrite Hprop. simpl. eexists. split; [done|]. split; [split; [|done]|].
    + simpl. eapply linked_skel_eq; [|exact Hl0]. by apply restatus_skel_eq.
    + simpl. intros Henum. eapply restatus_enum; [exact Hre|done|].
      apply Forall_alter; [|by intros ? _ ?].
      apply Forall_app. split; [done|]. by repeat constructor.
  - set (new := mkTask nm OPEN du [] None 0).
    set (h0 := store F ++ [new]).
    pose proof (linked_add_root _ _ nm du Hl) as Hl0. fold new h0 in Hl0.
    assert (length h0 = S (length (store F))) as Hlen0.
    { unfold h0. rewrite length_app. simpl. lia. }
    destruct (propagate_up_spec (roots F ++ [length (store F)]) (length h0) h0
                (length (store F)))
      as (h' & Hprop & Hre & Hroll'); [done|lia| | |].
    { unfold h0. by rewrite list_lookup_middle. }
    { intros x Hne _. apply rollup_at_app; [|done|done].
      intros t c Ht Hc. by eapply linked_child_lt. }
    rewrite Hprop. simpl. eexists. split; [done|]. split; [split; [|done]|].
    + simpl. eapply linked_skel_eq; [|exact Hl0]. by apply restatus_skel_eq.
    + simpl. intros Henum. eapply restatus_enum; [exact Hre|done|].
      apply Forall_app. split; [done|]. by repeat constructor.
Qed.

(** Every state of a session is well formed. *)
Lemma reachable_wf f F : reachable f F → wf F.
Proof.
  induction 1 as [F Hparse|F idx F' _ IH Hact|F idx dialog F' _ IH Hact].
  - by apply parse_laid in Hparse as (_ & ?).
  - unfold action_toggle_status in Hact.
    destruct (get_selected_task_total idx F (proj1 IH)) as (sel & Hsel & Hvalid).
    rewrite Hsel in Hact. simpl in Hact.
    destruct (toggle_status_wf sel F IH Hvalid) as (F'' & ? & ? & _). congruence.
  - unfold action_add_subtask in Hact.
    destruct (get_selected_task_total idx F (proj1 IH)) as (sel & Hsel & Hvalid).
    rewrite Hsel in Hact. simpl in Hact.
    destruct (add_subtask_worker_wf sel dialog F IH Hvalid) as (F'' & ? & ? & _).
    congruence.
Qed.

(** ** Status roll-up *)

Lemma statuses_all_eq h cs ss s :
  statuses h cs = Ok ss →
  all_eq s ss = true ↔ Forall (λ c, ∃ tc, h !! c = Some tc ∧ status tc = s) cs.
Proof.
  revert ss. induction cs as [|c cs IH]; simpl; intros ss.
  { intros [= <-]. split; [constructor|done]. }
  intros (tc & Hc%deref_Ok & (ss' & Hss' & [= <-])%bind_Ok)%bind_Ok.
  simpl. rewrite andb_true_iff, bool_decide_eq_true, (IH ss' Hss').
  split.
  - intros (? & ?). constructor; [by exists tc|done].
  - intros Hall. invert Hall. destruct H1 as (tc' & ? & ?). by simplify_eq.
Qed.

Lemma all_eq_distinct s s' ss :
  s ≠ s' → ss ≠ [] → all_eq s ss = true → all_eq s' ss = false.
Proof.
  intros Hne Hss. destruct ss as [|x ss]; [done|]. simpl.
  intros (->%bool_decide_eq_true & _)%andb_true_iff.
  by rewrite bool_decide_eq_false_2.
Qed.

Lemma rolled_cases ss :
  ss ≠ [] →
  (rolled ss = DONE ↔ all_eq DONE ss = true) ∧
  (rolled ss = OPEN ↔ all_eq OPEN ss = true) ∧
  (rolled ss = IN_PROGRESS ↔ all_eq DONE ss = false ∧ all_eq OPEN ss = false).
Proof.
  intros Hss. unfold rolled.
  destruct (all_eq DONE ss) eqn:Hd.
  { rewrite (all_eq_distinct DONE OPEN ss) by done. repeat split; try done.
    intros (? & _). done. }
  destruct (all_eq OPEN ss) eqn:Ho; repeat split; try done.
  intros (_ & ?). done.
Qed.

(** C2. After [parse_tasks_from_file] and after every toggle or added
    subtask, a task that has children is [DONE] exactly when all its
    children are [DONE], [OPEN] exactly when all its children are [OPEN],
    and [IN_PROGRESS] exactly when neither is the case; this holds for
    every task of the store, the ancestors of the changed task among
    them. *)
Theorem status_rollup f F i t :
  reachable f F → store F !! i = Some t → children t ≠ [] →
  (status t = DONE ↔ all_children (store F) t DONE) ∧
  (status t = OPEN ↔ all_children (store F) t OPEN) ∧
  (status t = IN_PROGRESS ↔
     ¬ all_children (store F) t DONE ∧ ¬ all_children (store F) t OPEN).
Proof.
  intros Hreach Hi Hkids.
  destruct (reachable_wf f F Hreach) as (_ & Hroll).
  destruct (Hroll i t Hi) as (ss & Hss & ->).
  { unfold is_leaf. by destruct (children t). }
  assert (ss ≠ []) as Hne.
  { intros ->. destruct (children t) as [|c cs]; [done|]. simpl in Hss.
    destruct (deref _ c); simpl in Hss; [|done..].
    destruct (statuses _ cs); simpl in Hss; done. }
  destruct (rolled_cases ss Hne) as (Hd & Ho & Hp).
  unfold all_children.
  rewrite <- !(statuses_all_eq _ _ _ _ Hss), Hd, Ho, Hp.
  rewrite !not_true_iff_false. done.
Qed.

(** ** The scenarios are states of a session *)

Lemma scenario_C_reachable : reachable scenario_C_file scenario_C.
Proof. apply (reach_mount scenario_C_file). vm_compute. reflexivity. Qed.

Lemma scenario_D_reachable : reachable scenario_C_file scenario_D.
Proof.
  apply (reach_toggle scenario_C_file scenario_D1 (Some 2%Z)); [|vm_compute; reflexivity].
  apply (reach_toggle scenario_C_file scenario_C (Some 2%Z)); [exact scenario_C_reachable|].
  vm_compute. reflexivity.
Qed.

Lemma odd_status_reachable : reachable odd_status_file odd_status.
Proof. apply (reach_mount odd_status_file). vm_compute. reflexivity. Qed.

Lemma status_rollup_witness :
  reachable scenario_C_file scenario_D ∧
  store scenario_D !! 0 = Some (mkTask (lit "A") DONE [] [1; 2] None 0) ∧
  ((DONE = DONE ↔
      all_children (store scenario_D) (mkTask (lit "A") DONE [] [1; 2] None 0) DONE) ∧
   (DONE = OPEN ↔
      all_children (store scenario_D) (mkTask (lit "A") DONE [] [1; 2] None 0) OPEN) ∧
   (DONE = IN_PROGRESS ↔
      ¬ all_children (store scenario_D) (mkTask (lit "A") DONE [] [1; 2] None 0) DONE ∧
      ¬ all_children (store scenario_D) (mkTask (lit "A") DONE [] [1; 2] None 0) OPEN)).
Proof.
  split; [exact scenario_D_reachable|]. split; [reflexivity|].
  apply (status_rollup scenario_C_file scenario_D 0 (mkTask (lit "A") DONE [] [1; 2] None 0)).
  - exact scenario_D_reachable.
  - reflexivity.
  - simpl. discriminate.
Defined.

(** ** Toggling *)

Lemma cycled_other s :
  s ≠ OPEN → s ≠ IN_PROGRESS → s ≠ DONE → cycled s = IN_PROGRESS.
Proof. intros. unfold cycled. by rewrite !bool_decide_eq_false_2. Qed.

(** C3. On a selected leaf the toggle action turns [OPEN] into
    [IN_PROGRESS], [IN_PROGRESS] into [DONE] and [DONE] into [OPEN]; on a
    selected task that has children it returns the forest as it was. *)
Theorem toggle_status_cycle f F idx task t :
  reachable f F →
  get_selected_task idx F = Ok (Some task) →
  store F !! task = Some t →
  (is_leaf t = true →
     ∃ F' t', action_toggle_status idx F = Ok F' ∧
              store F' !! task = Some t' ∧
              (status t = OPEN → status t' = IN_PROGRESS) ∧
              (status t = IN_PROGRESS → status t' = DONE) ∧
              (status t = DONE → status t' = OPEN)) ∧
  (is_leaf t = false → action_toggle_status idx F = Ok F).
Proof.
  intros Hreach Hsel Ht. apply reachable_wf in Hreach as Hwf.
  unfold action_toggle_status. rewrite Hsel. cbn [mbind result_bind].
  split.
  - intros Hleaf.
    destruct (toggle_leaf F task t Hwf Ht Hleaf) as (F' & Htog & _ & _ & Ht' & _).
    exists F', (set_status (cycled (status t)) t).
    split; [done|]. split; [done|]. simpl.
    split; [|split]; intros ->; reflexivity.
  - intros Hleaf. by eapply toggle_interior.
Qed.

Lemma toggle_status_cycle_witness :
  reachable scenario_C_file scenario_C ∧
  get_selected_task (Some 2%Z) scenario_C = Ok (Some 2) ∧
  store scenario_C !! 2 = Some (mkTask (lit "C") OPEN [] [] (Some 0) 1) ∧
  ∃ F' t', action_toggle_status (Some 2%Z) scenario_C = Ok F' ∧
           store F' !! 2 = Some t' ∧ status t' = IN_PROGRESS.
Proof.
  split; [exact scenario_C_reachable|]. split; [reflexivity|].
  split; [reflexivity|].
  destruct (toggle_status_cycle scenario_C_file scenario_C (Some 2%Z) 2
              (mkTask (lit "C") OPEN [] [] (Some 0) 1)
              scenario_C_reachable eq_refl eq_refl) as (Hleaf & _).
  destruct (Hleaf eq_refl) as (F' & t' & Htog & Ht' & Hopen & _).
  exists F', t'. split; [exact Htog|]. split; [exact Ht'|].
  apply Hopen. reflexivity.
Defined.

(** C10. A selected leaf whose status is none of the three is set to
    [IN_PROGRESS] by the toggle action, as a leaf with status [OPEN] is. *)
Theorem toggle_unknown_status f F idx task t :
  reachable f F →
  get_selected_task idx F = Ok (Some task) →
  store F !! task = Some t →
  is_leaf t = true →
  status t ≠ OPEN → status t ≠ IN_PROGRESS → status t ≠ DONE →
  ∃ F' t', action_toggle_status idx F = Ok F' ∧
           store F' !! task = Some t' ∧
           status t' = IN_PROGRESS.
Proof.
  intros Hreach Hsel Ht Hleaf Ho Hp Hd. apply reachable_wf in Hreach as Hwf.
  unfold action_toggle_status. rewrite Hsel. cbn [mbind result_bind].
  destruct (toggle_leaf F task t Hwf Ht Hleaf) as (F' & Htog & _ & _ & Ht' & _).
  exists F', (set_status (cycled (status t)) t).
  split; [done|]. split; [done|]. simpl. by apply cycled_other.
Qed.

Lemma toggle_unknown_status_witness :
  reachable odd_status_file odd_status ∧
  get_selected_task (Some 0%Z) odd_status = Ok (Some 0) ∧
  store odd_status !! 0 = Some (mkTask (lit "A") (lit "FOO") [] [] None 0) ∧
  ∃ F' t', action_toggle_status (Some 0%Z) odd_status = Ok F' ∧
           store F' !! 0 = Some t' ∧ status t' = IN_PROGRESS.
Proof.
  split; [exact odd_status_reachable|]. split; [reflexivity|].
  split; [reflexivity|].
  apply (toggle_unknown_status odd_status_file odd_status (Some 0%Z) 0
           (mkTask (lit "A") (lit "FOO") [] [] None 0)
           odd_status_reachable eq_refl eq_refl eq_refl);
    vm_compute; discriminate.
Defined.

(** ** Depth *)

(** C9. After [parse_tasks_from_file] and after every editing action, the
    depth of a task is the depth of its parent plus one, and the depth of a
    task without parent, as every root is, is zero. *)
Theorem depth_invariant f F :
  reachable f F →
  (∀ i t, store F !! i = Some t →
     match parent t with
     | Some p => ∃ tp, store F !! p = Some tp ∧ depth t = depth tp + 1
     | None => depth t = 0
     end) ∧
  (∀ r, r ∈ roots F → ∃ t, store F !! r = Some t ∧ parent t = None ∧ depth t = 0).
Proof.
  intros Hreach. destruct (reachable_wf f F Hreach) as (Hl & _).
  pose proof Hl as (Hchild & Hpar & Hroots).
  assert (∀ i t, store F !! i = Some t →
     match parent t with
     | Some p => ∃ tp, store F !! p = Some tp ∧ depth t = depth tp + 1
     | None => depth t = 0
     end) as Hdepth.
  { intros i t Hi. specialize (Hpar i t Hi). unfold parent_ok in Hpar.
    destruct (parent t) as [p|]; [|by destruct Hpar].
    destruct Hpar as (tp & Hp & Hin). exists tp. split; [done|].
    destruct (linked_child _ _ _ _ _ Hl Hp Hin) as (_ & t' & ? & _ & ?).
    simplify_eq. lia. }
  split; [done|]. intros r Hr. rewrite Forall_forall in Hroots.
  destruct (Hroots r Hr) as (t & Ht & Hnone). exists t.
  split; [done|]. split; [done|]. specialize (Hdepth r t Ht).
  by rewrite Hnone in Hdepth.
Qed.

Lemma scenario_F_reachable : reachable scenario_C_file scenario_F.
Proof.
  apply (reach_add scenario_C_file scenario_D (Some 1%Z) (Some (lit "B1", lit "")));
    [exact scenario_D_reachable|]. vm_compute. reflexivity.
Qed.

Lemma depth_invariant_witness :
  reachable scenario_C_file scenario_F ∧
  ∃ t, store scenario_F !! 3 = Some t ∧ parent t = Some 1 ∧
       ∃ tp, store scenario_F !! 1 = Some tp ∧ depth t = depth tp + 1.
Proof.
  split; [exact scenario_F_reachable|].
  exists (mkTask (lit "B1") OPEN [] [] (Some 1) 2).
  split; [reflexivity|]. split; [reflexivity|].
  exact (proj1 (depth_invariant scenario_C_file scenario_F scenario_F_reachable) 3
           (mkTask (lit "B1") OPEN [] [] (Some 1) 2) eq_refl).
Defined.

(** ** Facts about the string functions *)

Lemma drop_while_head p s c s' : drop_while p s = c :: s' → p c = false.
Proof.
  induction s as [|x s IH]; simpl; [done|].
  destruct (p x) eqn:Hx; [done|]. by intros [= <- _].
Qed.

Lemma drop_while_id p c s : p c = false → drop_while p (c :: s) = c :: s.
Proof. intros Hc. simpl. by rewrite Hc. Qed.

Lemma drop_while_app_stop p s c s' :
  p c = false → drop_while p (s ++ c :: s') = drop_while p s ++ c :: s'.
Proof.
  intros Hc. induction s as [|x s IH]; simpl; [by rewrite Hc|].
  by destruct (p x).
Qed.

Lemma drop_while_all p s s' :
  Forall (λ c, p c = true) s → drop_while p (s ++ s') = drop_while p s'.
Proof. induction 1 as [|c s Hc _ IH]; simpl; [done|]. by rewrite Hc. Qed.

Lemma take_while_all p s c s' :
  Forall (λ c, p c = true) s → p c = false →
  take_while p (s ++ c :: s') = s.
Proof.
  intros Hs Hc. induction Hs as [|x s Hx _ IH]; simpl; [by rewrite Hc|].
  by rewrite Hx, IH.
Qed.

Lemma drop_while_sub p s x : x ∈ drop_while p s → x ∈ s.
Proof.
  induction s as [|c s IH]; simpl; [done|].
  destruct (p c); [|done]. intros ?. right. by apply IH.
Qed.

Lemma rstrip_by_snoc p s c :
  rstrip_by p (s ++ [c]) = if p c then rstrip_by p s else s ++ [c].
Proof.
  unfold rstrip_by. rewrite reverse_snoc. simpl.
  destruct (p c); [done|]. by rewrite reverse_cons, reverse_involutive.
Qed.

Lemma rstrip_by_cons p c s :
  p c = false → rstrip_by p (c :: s) = c :: rstrip_by p s.
Proof.
  intros Hc. unfold rstrip_by. rewrite reverse_cons.
  replace (reverse s ++ [c]) with (reverse s ++ c :: []) by done.
  rewrite drop_while_app_stop by done.
  by rewrite reverse_app, reverse_singleton.
Qed.

Lemma rstrip_by_sub p s x : x ∈ rstrip_by p s → x ∈ s.
Proof.
  unfold rstrip_by. rewrite elem_of_reverse. intros ?%drop_while_sub.
  by apply elem_of_reverse.
Qed.

Lemma rstrip_by_none p s : Forall (λ c, p c = false) s → rstrip_by p s = s.
Proof.
  induction 1 as [|c s Hc _ IH]; [done|]. by rewrite rstrip_by_cons, IH.
Qed.

Lemma rstrip_by_idemp p s : rstrip_by p (rstrip_by p s) = rstrip_by p s.
Proof.
  unfold rstrip_by. rewrite reverse_involutive. f_equal.
  destruct (drop_while p (reverse s)) as [|c s'] eqn:Hd; [done|].
  apply drop_while_head in Hd. by apply drop_while_id.
Qed.

Lemma strip_sub s x : x ∈ strip s → x ∈ s.
Proof. unfold strip. intros ?%rstrip_by_sub. by eapply drop_while_sub. Qed.

Lemma strip_head_nonspace s c s' : strip s = c :: s' → isspace c = false.
Proof.
  unfold strip. destruct (drop_while isspace s) as [|x r] eqn:Hd; [done|].
  apply drop_while_head in Hd. rewrite rstrip_by_cons by done.
  by intros [= <- _].
Qed.

Lemma strip_cons c s : isspace c = false → strip (c :: s) = c :: rstrip_by isspace s.
Proof. intros Hc. unfold strip. simpl. rewrite Hc. by apply rstrip_by_cons. Qed.

Lemma strip_stripped s : stripped (strip s).
Proof.
  unfold stripped. destruct (strip s) as [|c s'] eqn:Hs; [done|].
  pose proof (strip_head_nonspace _ _ _ Hs) as Hc.
  rewrite <- Hs at 2. unfold strip at 1. rewrite drop_while_id by done.
  rewrite <- Hs. unfold strip. apply rstrip_by_idemp.
Qed.

Lemma stripped_head c s : stripped (c :: s) → isspace c = false.
Proof. apply strip_head_nonspace. Qed.

Lemma strip_head s c r : drop_while isspace s = c :: r → ∃ r', strip s = c :: r'.
Proof.
  intros Hd. unfold strip. rewrite Hd. apply drop_while_head in Hd.
  rewrite rstrip_by_cons by done. by eexists.
Qed.

Lemma cut_Some sep s a b :
  cut sep s = Some (a, b) ↔ s = a ++ sep :: b ∧ sep ∉ a.
Proof.
  revert a. induction s as [|c s IH]; intros a; simpl.
  { split; [done|]. intros (? & _). by destruct a. }
  destruct (N.eqb_spec c sep) as [->|Hne].
  - split.
    + intros [= <- <-]. split; [done|]. apply not_elem_of_nil.
    + intros (Heq & Hnot). destruct a as [|x a]; simpl in Heq.
      * by simplify_eq.
      * simplify_eq. exfalso. apply Hnot. by left.
  - destruct (cut sep s) as [[a' b']|] eqn:Hcut.
    + split.
      * intros [= <- <-]. destruct (proj1 (IH a') eq_refl) as (-> & ?).
        split; [done|]. intros [?|?]%elem_of_cons; [congruence|done].
      * intros (Heq & Hnot). destruct a as [|x a]; simpl in Heq; simplify_eq.
        assert (Some (a', b') = Some (a, b)) as [= -> ->].
        { apply IH. split; [done|]. intros ?. apply Hnot. by right. }
        done.
    + split; [done|]. intros (Heq & Hnot).
      destruct a as [|x a]; simpl in Heq; simplify_eq.
      assert (None = Some (a, b)); [|done].
      apply IH. split; [done|]. intros ?. apply Hnot. by right.
Qed.

Lemma cut_None sep s : cut sep s = None ↔ sep ∉ s.
Proof.
  induction s as [|c s IH]; simpl.
  { split; [intros _; apply not_elem_of_nil|done]. }
  destruct (N.eqb_spec c sep) as [->|Hne].
  - split; [done|]. intros Hnot. exfalso. apply Hnot. by left.
  - destruct (cut sep s) as [[a b]|].
    + split; [done|]. intros Hnot. exfalso.
      assert (sep ∉ s) as Hs by (intros ?; apply Hnot; by right).
      apply IH in Hs. done.
    + split; [|done]. intros _ [?|?]%elem_of_cons; [congruence|].
      by apply (proj1 IH).
Qed.

Lemma count_cons c x s :
  count c (x :: s) = (if bool_decide (x = c) then 1 else 0) + count c s.
Proof. unfold count. rewrite filter_cons. case_bool_decide; by case_decide. Qed.

Lemma count_app c s s' : count c (s ++ s') = count c s + count c s'.
Proof. unfold count. by rewrite filter_app, length_app. Qed.

Lemma count_zero c s : count c s = 0 ↔ c ∉ s.
Proof.
  induction s as [|x s IH]; [split; [intros _; apply not_elem_of_nil|done]|].
  rewrite count_cons, not_elem_of_cons. case_bool_decide; subst.
  - split; [done|]. by intros (? & _).
  - simpl. rewrite IH. split; [|by intros (_ & ?)]. intros ?. split; [congruence|done].
Qed.

Lemma split_two a b c :
  colon ∉ a → colon ∉ b →
  split colon 2 (a ++ colon :: b ++ colon :: c) = [a; b; c].
Proof.
  intros Ha Hb. simpl.
  rewrite (proj2 (cut_Some colon (a ++ colon :: b ++ colon :: c) a (b ++ colon :: c)))
    by done.
  by rewrite (proj2 (cut_Some colon (b ++ colon :: c) b c)) by done.
Qed.

(** [split] with [maxsplit] 2 yields three parts exactly when the text has
    two separators; the parts then are the text up to the first, the text
    between the first and the second, and all the rest. *)
Lemma split_two_cases s :
  (count colon s < 2 ∧ length (split colon 2 s) < 3) ∨
  (2 ≤ count colon s ∧
   ∃ a b c, s = a ++ colon :: b ++ colon :: c ∧ (colon ∉ a) ∧ (colon ∉ b) ∧
            split colon 2 s = [a; b; c]).
Proof.
  simpl. destruct (cut colon s) as [[a r]|] eqn:Hcut.
  - apply cut_Some in Hcut as (-> & Ha).
    destruct (cut colon r) as [[b c]|] eqn:Hcut2.
    + apply cut_Some in Hcut2 as (-> & Hb). right. split.
      * rewrite count_app, count_cons, count_app, count_cons.
        rewrite !bool_decide_eq_true_2 by done. lia.
      * by exists a, b, c.
    + apply cut_None in Hcut2. left. split; [|simpl; lia].
      rewrite count_app, count_cons, bool_decide_eq_true_2 by done.
      apply count_zero in Ha, Hcut2. lia.
  - apply cut_None, count_zero in Hcut. left. split; [lia|simpl; lia].
Qed.

Lemma universal_newlines_no_cr s : cr ∉ universal_newlines s.
Proof.
  assert (∀ n s, length s ≤ n → cr ∉ universal_newlines s) as H;
    [|by apply (H (length s))].
  clear s. induction n as [|n IH]; intros [|c s] Hlen; simpl in *;
    try apply not_elem_of_nil; [lia|].
  destruct (N.eqb_spec c cr) as [->|Hne].
  - apply not_elem_of_cons. split; [done|].
    destruct s as [|d s]; [apply not_elem_of_nil|].
    destruct (d =? nl)%N; apply IH; simpl in *; lia.
  - apply not_elem_of_cons. split; [congruence|]. apply IH. lia.
Qed.

Lemma universal_newlines_id s : cr ∉ s → universal_newlines s = s.
Proof.
  induction s as [|c s IH]; [done|]. intros (Hc & Hs)%not_elem_of_cons. simpl.
  destruct (N.eqb_spec c cr) as [->|_]; [done|]. by rewrite IH.
Qed.

Lemma keepends_ok s : Forall line_ok (keepends s).
Proof.
  induction s as [|c s IH]; simpl; [constructor|].
  destruct (N.eqb_spec c nl) as [->|Hne].
  - constructor; [|done]. exists []. split; [apply not_elem_of_nil|by left].
  - destruct (keepends s) as [|l ls].
    + repeat constructor. exists [c]. split; [|by right].
      apply not_elem_of_cons. split; [congruence|apply not_elem_of_nil].
    + invert IH. constructor; [|done].
      destruct H1 as (body & Hbody & Hl). exists (c :: body). split.
      * apply not_elem_of_cons. split; [congruence|done].
      * destruct Hl as [->| ->]; [by left|by right].
Qed.

Lemma keepends_sub s l x : l ∈ keepends s → x ∈ l → x ∈ s.
Proof.
  revert l. induction s as [|c s IH]; simpl; intros l; [by intros ?%elem_of_nil|].
  destruct (N.eqb_spec c nl) as [->|Hne].
  - intros [->|Hl]%elem_of_cons.
    + intros ->%list_elem_of_singleton. by left.
    + intros ?. right. by eapply IH.
  - destruct (keepends s) as [|l0 ls].
    + intros ->%list_elem_of_singleton ->%list_elem_of_singleton. by left.
    + intros [->|Hl]%elem_of_cons.
      * intros [->|?]%elem_of_cons; [by left|]. right. eapply IH; [by left|done].
      * intros ?. right. eapply IH; [by right|done].
Qed.

Lemma rstrip_nl_none s : nl ∉ s → rstrip_nl s = s.
Proof.
  intros Hs. apply rstrip_by_none. rewrite Forall_forall. intros c Hc.
  apply N.eqb_neq. congruence.
Qed.

Lemma rstrip_nl_line body : nl ∉ body → rstrip_nl (body ++ [nl]) = body.
Proof.
  intros Hs. unfold rstrip_nl. rewrite rstrip_by_snoc, N.eqb_refl.
  by apply rstrip_nl_none.
Qed.

(** What [rstrip] leaves of a line of [readlines] holds neither a line feed
    nor a carriage return. *)
Lemma readlines_raw text line :
  line ∈ readlines text →
  (nl ∉ rstrip_nl line) ∧ (cr ∉ rstrip_nl line).
Proof.
  intros Hin. unfold readlines in Hin.
  pose proof (keepends_ok (universal_newlines text)) as Hok.
  rewrite Forall_forall in Hok. destruct (Hok line Hin) as (body & Hbody & Hl).
  assert (rstrip_nl line = body) as ->.
  { destruct Hl as [->| ->]; [by apply rstrip_nl_line|by apply rstrip_nl_none]. }
  split; [done|]. intros Hcr.
  apply (universal_newlines_no_cr text). eapply keepends_sub; [exact Hin|].
  destruct Hl as [->| ->]; [|done]. apply elem_of_app. by left.
Qed.

Lemma keepends_line l rest :
  nl ∉ l → keepends (l ++ nl :: rest) = (l ++ [nl]) :: keepends rest.
Proof.
  induction l as [|c l IH]; simpl; intros Hl.
  { done. }
  apply not_elem_of_cons in Hl as (Hc & Hl).
  destruct (N.eqb_spec c nl) as [->|_]; [done|]. by rewrite IH.
Qed.

Lemma keepends_join ls :
  ls ≠ [] → Forall (λ l, nl ∉ l) ls →
  keepends (join nl ls ++ [nl]) = (λ l, l ++ [nl]) <$> ls.
Proof.
  intros Hne Hall. induction Hall as [|l ls Hl Hls IH]; [done|].
  destruct ls as [|l2 ls].
  - simpl. rewrite (keepends_line l []) by done. done.
  - change (join nl (l :: l2 :: ls)) with (l ++ nl :: join nl (l2 :: ls)).
    rewrite <- app_assoc.
    change ((nl :: join nl (l2 :: ls)) ++ [nl])
      with (nl :: (join nl (l2 :: ls) ++ [nl])).
    rewrite (keepends_line l) by done. rewrite IH by done. done.
Qed.

(** ** One line of the file *)

Lemma indent_match_no_nl raw :
  nl ∉ raw →
  indent_match raw = Some (take_while isspace raw, drop_while isspace raw).
Proof.
  intros Hnl. unfold indent_match. rewrite bool_decide_eq_false_2; [done|].
  intros ?%drop_while_sub. done.
Qed.

Lemma line_fields_cases raw :
  nl ∉ raw →
  (count colon (drop_while isspace raw) < 2 ∧
   line_fields raw = Raise (ValueError (lit "Invalid line: " ++ raw))) ∨
  (2 ≤ count colon (drop_while isspace raw) ∧
   ∃ a b c, drop_while isspace raw = a ++ colon :: b ++ colon :: c ∧
            (colon ∉ a) ∧ (colon ∉ b) ∧
            line_fields raw =
              Ok (line_depth raw, strip a, status_field b, strip c)).
Proof.
  intros Hnl. unfold line_fields. rewrite indent_match_no_nl by done.
  destruct (split_two_cases (drop_while isspace raw))
    as [(Hcount & Hlen)|(Hcount & a & b & c & Heq & Ha & Hb & Hsplit)].
  - left. split; [done|].
    destruct (split colon 2 _) as [|? [|? [|? [|? ?]]]]; simpl in Hlen; try done; lia.
  - right. split; [done|]. exists a, b, c. by rewrite Hsplit.
Qed.

Lemma attach_cases raw d nm s du st :
  (0 < d ∧ length (p_stack st) < d ∧
   attach raw d nm s du st = Raise (ValueError (lit "Nested too deeply: " ++ raw))) ∨
  ((d = 0 ∨ d ≤ length (p_stack st)) ∧ ∃ st', attach raw d nm s du st = Ok st').
Proof.
  unfold attach. destruct (Nat.eqb_spec d 0) as [->|Hd].
  { right. split; [by left|]. by eexists. }
  destruct (Nat.ltb_spec (length (p_stack st)) d) as [Hlt|Hge].
  { left. split; [lia|]. done. }
  right. split; [by right|].
  destruct (lookup_lt_is_Some_2 (p_stack st) (d - 1)) as [par ->]; [lia|].
  destruct (d =? length (p_stack st)); by eexists.
Qed.

Lemma for_each_app {A B} (body : B → A → result A) xs ys a :
  for_each body (xs ++ ys) a = for_each body xs a ≫= for_each body ys.
Proof.
  revert a. induction xs as [|x xs IH]; intros a; simpl; [done|].
  destruct (body x a); simpl; [apply IH|done|done].
Qed.




(** ** Status values *)

(** C8 as stated fails: a leaf keeps the status text of its line, whatever
    it is. *)
Lemma status_enum_counterexample :
  parse_tasks_from_file (Text (lit "A:FOO:"))
    = Ok (mkForest [mkTask (lit "A") (lit "FOO") [] [] None 0] [0]) ∧
  lit "FOO" ∉ STATUS_CYCLE.
Proof.
  split; [vm_compute; reflexivity|].
  vm_compute. intros H.
  repeat (apply elem_of_cons in H as [H|H]; [discriminate|]).
  by apply elem_of_nil in H.
Qed.

(** Scenario B: a blank status field. *)
Example buy_milk :
  parse_tasks_from_file (Text (lit "Buy milk::"))
    = Ok (mkForest [mkTask (lit "Buy milk") OPEN [] [] None 0] [0]).
Proof. vm_compute. reflexivity. Qed.

(** ** Missing and unreadable files *)

(** C5 as stated fails: a file that is there but may not be read makes
    [open] raise, and only [FileNotFoundError] is caught. *)
Lemma parse_unreadable_counterexample :
  parse_tasks_from_file (Unreadable EACCES) = Raise (OSError EACCES).
Proof. reflexivity. Qed.

(** C5, amended. A missing file parses to the empty forest; any other
    failure to open the file, and a failure to decode it, is raised to the
    caller. *)
Theorem parse_missing_file :
  parse_tasks_from_file Absent = Ok (mkForest [] []) ∧
  (∀ e, e ≠ ENOENT → parse_tasks_from_file (Unreadable e) = Raise (OSError e)) ∧
  parse_tasks_from_file Undecodable = Raise UnicodeDecodeError.
Proof. split; [done|]. split; [by intros []|done]. Qed.

Lemma parse_missing_file_witness :
  EISDIR ≠ ENOENT ∧
  parse_tasks_from_file (Unreadable EISDIR) = Raise (OSError EISDIR).
Proof.
  split; [discriminate|].
  apply (proj1 (proj2 parse_missing_file) EISDIR). discriminate.
Defined.

(** ** Saving *)

Lemma task_lines_total h ts :
  valid_refs h ts → ∃ ls, task_lines h ts = Ok ls.
Proof.
  induction 1 as [|r ts [t Hr] _ (ls & IH)]; simpl; [by eexists|].
  unfold deref. rewrite Hr. simpl. rewrite IH. simpl. by eexists.
Qed.

Lemma save_text_total F : wf F → ∃ text, save_text F = Ok text.
Proof.
  intros (Hl & _). unfold save_text.
  destruct (flatten_tasks_total F Hl) as (ts & -> & Hts). simpl.
  destruct (task_lines_total _ _ Hts) as (ls & ->). simpl. by eexists.
Qed.

(** C4 as stated fails: when the write fails after the file was opened,
    the old content is gone. *)
Lemma save_atomicity_counterexample :
  save_with_handling (WriteFails 0 ENOSPC) scenario_C scenario_C_file
    = (Ok false, Text []) ∧
  Text [] ≠ scenario_C_file.
Proof. split; [vm_compute; reflexivity|]. vm_compute. discriminate. Qed.

(** *** A write that breaks off *)

Lemma utf8_len_pos c : 0 < utf8_len c.
Proof. unfold utf8_len. repeat case_match; lia. Qed.

Lemma utf8_size_cons c s : utf8_size (c :: s) = utf8_len c + utf8_size s.
Proof. done. Qed.

(** A cut between two characters leaves the characters before it. *)
Lemma first_bytes_boundary text : ∀ k,
  first_bytes (utf8_size (take k text)) text = Text (take k text).
Proof.
  induction text as [|c text IH]; intros k; [by destruct k|].
  destruct k as [|k]; [done|].
  cbn [take first_bytes]. rewrite utf8_size_cons.
  pose proof (utf8_len_pos c).
  destruct (Nat.eqb_spec (utf8_len c + utf8_size (take k text)) 0); [lia|].
  destruct (Nat.ltb_spec (utf8_len c + utf8_size (take k text)) (utf8_len c)); [lia|].
  replace (utf8_len c + utf8_size (take k text) - utf8_len c)
    with (utf8_size (take k text)) by lia.
  by rewrite IH.
Qed.

(** When all bytes were written, the text is there. *)
Lemma first_bytes_all text : ∀ n,
  utf8_size text ≤ n → first_bytes n text = Text text.
Proof.
  induction text as [|c text IH]; intros n Hn; [done|].
  rewrite utf8_size_cons in Hn. pose proof (utf8_len_pos c).
  cbn [first_bytes].
  destruct (Nat.eqb_spec n 0); [lia|].
  destruct (Nat.ltb_spec n (utf8_len c)); [lia|].
  rewrite IH by lia. done.
Qed.

(** A cut inside a character leaves bytes that are not UTF-8. *)
Lemma first_bytes_inside text : ∀ n,
  n < utf8_size text → (∀ k, n ≠ utf8_size (take k text)) →
  first_bytes n text = Undecodable.
Proof.
  induction text as [|c text IH]; intros n Hn Hk; [cbv in Hn; lia|].
  rewrite utf8_size_cons in Hn. cbn [first_bytes].
  destruct (Nat.eqb_spec n 0) as [->|Hn0]; [by destruct (Hk 0)|].
  destruct (Nat.ltb_spec n (utf8_len c)) as [|Hge]; [done|].
  rewrite IH; [done|lia|]. intros k Heq.
  apply (Hk (S k)). cbn [take]. rewrite utf8_size_cons. lia.
Qed.

(** In a text of ASCII characters every byte is a character. *)
Lemma first_bytes_ascii text : ∀ n,
  Forall (λ c, (c < 128)%N) text → first_bytes n text = Text (take n text).
Proof.
  induction text as [|c text IH]; intros n Hall; [by destruct n|].
  invert Hall. destruct n as [|n]; [done|].
  cbn [first_bytes take]. unfold utf8_len.
  destruct (N.ltb_spec c 128); [|lia].
  replace (S n - 1) with n by lia. simpl. by rewrite IH.
Qed.

(** C4, amended. A save without fault leaves the new text in the file.  A
    save that fails is reported: [save_tasks_to_file] raises the [OSError]
    and [save_with_handling] returns [False].  When it is [open] that
    fails, the file is as it was; when the write fails after the file was
    opened, the old content is gone and the file holds the bytes of the
    new text that were written before the fault.  These are the leading
    characters of the text when the last byte ends a character, all of the
    text when no byte is missing, and no UTF-8 text at all when the last
    byte lies inside a character; in a text of ASCII characters every cut
    ends a character. *)
Theorem save_outcomes f F disk :
  reachable f F →
  ∃ text,
    save_text F = Ok text ∧
    save_tasks_to_file NoFault F disk = (Ok (), Text text) ∧
    save_with_handling NoFault F disk = (Ok true, Text text) ∧
    (∀ e, save_tasks_to_file (OpenFails e) F disk = (Raise (OSError e), disk) ∧
          save_with_handling (OpenFails e) F disk = (Ok false, disk)) ∧
    (∀ n e, save_tasks_to_file (WriteFails n e) F disk
              = (Raise (OSError e), first_bytes n text) ∧
            save_with_handling (WriteFails n e) F disk
              = (Ok false, first_bytes n text)) ∧
    (∀ k, first_bytes (utf8_size (take k text)) text = Text (take k text)) ∧
    (∀ n, utf8_size text ≤ n → first_bytes n text = Text text) ∧
    (∀ n, n < utf8_size text → (∀ k, n ≠ utf8_size (take k text)) →
          first_bytes n text = Undecodable) ∧
    (Forall (λ c, (c < 128)%N) text →
     ∀ n, first_bytes n text = Text (take n text)).
Proof.
  intros Hreach. destruct (save_text_total F (reachable_wf f F Hreach)) as (text & Htext).
  exists text. unfold save_with_handling, save_tasks_to_file. rewrite Htext.
  split; [done|]. split; [done|]. split; [done|]. split; [done|]. split; [done|].
  split; [apply first_bytes_boundary|]. split; [apply first_bytes_all|].
  split; [apply first_bytes_inside|]. intros Hall n. by apply first_bytes_ascii.
Qed.

Lemma accent_reachable : reachable accent_file accent.
Proof. apply (reach_mount accent_file). vm_compute. reflexivity. Qed.

Lemma save_outcomes_witness :
  reachable accent_file accent ∧
  save_with_handling (OpenFails EACCES) accent accent_file = (Ok false, accent_file) ∧
  save_with_handling (WriteFails 1 ENOSPC) accent accent_file = (Ok false, Undecodable) ∧
  save_with_handling (WriteFails 2 ENOSPC) accent accent_file = (Ok false, Text [233%N]).
Proof.
  split; [exact accent_reachable|].
  destruct (save_outcomes accent_file accent accent_file accent_reachable)
    as (text & Htext & _ & _ & Hopen & Hwrite & _).
  split; [exact (proj2 (Hopen EACCES))|].
  assert (text = 233%N :: lit ":OPEN:" ++ [nl]) as ->.
  { vm_compute in Htext. injection Htext as <-. reflexivity. }
  split; [exact (proj2 (Hwrite 1 ENOSPC))|exact (proj2 (Hwrite 2 ENOSPC))].
Defined.

(** ** Round trip: the fields of a parsed task *)

Lemma plain_sub s s' : (∀ c, c ∈ s' → c ∈ s) → plain s → plain s'.
Proof. intros Hsub (? & ?). split; intros ?%Hsub; done. Qed.

Lemma plain_strip s : plain s → plain (strip s).
Proof. apply plain_sub. intros c. apply strip_sub. Qed.

Lemma enum_clean s :
  s ∈ STATUS_CYCLE → stripped s ∧ s ≠ [] ∧ (colon ∉ s) ∧ plain s.
Proof.
  unfold STATUS_CYCLE. intros Hs.
  repeat (apply elem_of_cons in Hs as [->|Hs];
          [vm_compute; repeat split; try done;
           intros H; repeat (apply elem_of_cons in H as [H|H]; [discriminate|]);
           by apply elem_of_nil in H|]).
  by apply elem_of_nil in Hs.
Qed.

Lemma skipped_spec raw :
  skipped raw = match strip raw with [] => true | c :: _ => (c =? hash)%N end.
Proof.
  unfold skipped. destruct (strip raw) as [|c r]; [done|]. simpl.
  by rewrite andb_true_r, N.eqb_sym.
Qed.

Lemma skipped_false_head raw :
  skipped raw = false →
  ∃ x r, drop_while isspace raw = x :: r ∧ x ≠ hash ∧ isspace x = false.
Proof.
  rewrite skipped_spec. destruct (drop_while isspace raw) as [|x r] eqn:Hd.
  { unfold strip. by rewrite Hd. }
  destruct (strip_head _ _ _ Hd) as (r' & ->).
  intros Hx%N.eqb_neq. exists x, r. split; [done|]. split; [done|].
  by eapply drop_while_head.
Qed.

Lemma line_fields_clean raw d nm s du :
  plain raw → skipped raw = false →
  line_fields raw = Ok (d, nm, s, du) →
  clean (mkTask nm s du [] None d).
Proof.
  intros Hplain Hskip Hfields.
  destruct (line_fields_cases raw (proj1 Hplain))
    as [(_ & Hr)|(_ & a & b & c & Heq & Ha & Hb & Hr)]; rewrite Hr in Hfields;
    [done|]. injection Hfields as <- <- <- <-.
  destruct (skipped_false_head raw Hskip) as (x & r & Hd & Hx & Hsp).
  assert (∀ part, (∀ y, y ∈ part → y ∈ drop_while isspace raw) →
                  plain (strip part)) as Hpart.
  { intros part Hsub. apply plain_strip. eapply plain_sub; [|exact Hplain].
    intros y Hy. by apply (drop_while_sub isspace), Hsub. }
  assert (plain (strip a)) as Hpa.
  { apply Hpart. intros y ?. rewrite Heq. apply elem_of_app. by left. }
  assert (plain (strip b)) as Hpb.
  { apply Hpart. intros y ?. rewrite Heq. apply elem_of_app. right. right.
    apply elem_of_app. by left. }
  assert (plain (strip c)) as Hpc.
  { apply Hpart. intros y ?. rewrite Heq. apply elem_of_app. right. right.
    apply elem_of_app. right. by right. }
  unfold clean. simpl.
  split; [apply strip_stripped|]. split; [by intros ?%strip_sub|].
  split.
  { intros s' Hs'. rewrite Hd in Heq. destruct a as [|y a]; [done|].
    injection Heq as -> _. rewrite strip_cons in Hs' by done. congruence. }
  split; [done|].
  assert (stripped (status_field b) ∧ status_field b ≠ [] ∧
          (colon ∉ status_field b) ∧ plain (status_field b)) as (? & ? & ? & ?).
  { unfold status_field. destruct (strip b) as [|y sb] eqn:Hsb.
    - apply enum_clean. by left.
    - rewrite <- Hsb. split; [apply strip_stripped|]. split; [congruence|].
      split; [by intros ?%strip_sub|by rewrite Hsb]. }
  repeat (split; [done|]). split; [apply strip_stripped|done].
Qed.

(** ** Round trip: reading back a written line *)

Lemma spaces_isspace k : Forall (λ c, isspace c = true) (spaces k).
Proof. unfold spaces. apply Forall_replicate. reflexivity. Qed.

Lemma expand_tabs_spaces k : expand_tabs (spaces k) = spaces k.
Proof. induction k as [|k IH]; [done|]. unfold spaces in *. simpl. by rewrite IH. Qed.

Section written_line.
Context (t : Task) (Hclean : clean t).
Let body := name t ++ colon :: status t ++ colon :: due t.

Lemma body_head : ∃ x r, body = x :: r ∧ isspace x = false ∧ x ≠ hash.
Proof.
  destruct Hclean as (Hstrip & _ & Hhash & _). unfold body.
  destruct (name t) as [|x nm] eqn:Hname.
  - exists colon, (status t ++ colon :: due t). done.
  - exists x, (nm ++ colon :: status t ++ colon :: due t).
    split; [done|]. split; [by eapply stripped_head|].
    intros ->. by eapply Hhash.
Qed.

Lemma task_line_plain : plain (task_line t).
Proof.
  destruct Hclean as (_ & _ & _ & (? & ?) & _ & _ & _ & (? & ?) & _ & (? & ?)).
  unfold task_line, spaces.
  split; rewrite !elem_of_app, !elem_of_cons, !elem_of_app, elem_of_cons,
    elem_of_replicate; intros [(? & _)|[?|[?|[?|[?|?]]]]]; done.
Qed.

Lemma task_line_indent : take_while isspace (task_line t) = spaces (4 * depth t).
Proof.
  destruct body_head as (x & r & Hbody & Hx & _).
  unfold task_line. fold body. rewrite Hbody.
  apply take_while_all; [apply spaces_isspace|done].
Qed.

Lemma task_line_content : drop_while isspace (task_line t) = body.
Proof.
  destruct body_head as (x & r & Hbody & Hx & _).
  unfold task_line. fold body. rewrite drop_while_all by apply spaces_isspace.
  rewrite Hbody. by apply drop_while_id.
Qed.

Lemma task_line_depth : line_depth (task_line t) = depth t.
Proof.
  unfold line_depth. rewrite task_line_indent, expand_tabs_spaces.
  unfold spaces. rewrite length_replicate.
  rewrite Nat.mul_comm. apply Nat.div_mul. done.
Qed.

Lemma task_line_fields : line_fields (task_line t) = Ok (rec_of t).
Proof.
  pose proof task_line_depth as Hdepth. unfold line_depth in Hdepth.
  destruct Hclean as (Hn & Hnc & _ & _ & Hs & Hsne & Hsc & _ & Hd & _).
  unfold line_fields.
  rewrite indent_match_no_nl by apply task_line_plain.
  rewrite task_line_content. unfold body. rewrite split_two by done.
  rewrite Hdepth, Hn, Hs, Hd. unfold rec_of. by destruct (status t).
Qed.

Lemma task_line_not_skipped : skipped (task_line t) = false.
Proof.
  destruct body_head as (x & r & Hbody & Hx & Hhash).
  rewrite skipped_spec.
  destruct (strip_head (task_line t) x r) as (r' & ->).
  { by rewrite task_line_content. }
  by apply N.eqb_neq.
Qed.

Lemma parse_written_line st :
  parse_line st (task_line t ++ [nl])
  = attach (task_line t) (depth t) (name t) (status t) (due t) st.
Proof.
  unfold parse_line.
  rewrite rstrip_nl_line by apply task_line_plain.
  rewrite task_line_not_skipped, task_line_fields. done.
Qed.

End written_line.

(** ** Round trip: the parser as a sequence of attachments *)

Lemma attach_Ok raw d nm s du st st' :
  attach raw d nm s du st = Ok st' ↔ attached d nm s du st st'.
Proof.
  unfold attach, attached. destruct (Nat.eqb_spec d 0) as [->|Hd].
  { split.
    - intros [= <-]. by left.
    - intros [(_ & ->)|(par & ? & _)]; [done|lia]. }
  destruct (Nat.ltb_spec (length (p_stack st)) d) as [Hlt|Hge].
  { split; [done|]. intros [(? & _)|(par & ? & _)]; lia. }
  destruct (p_stack st !! (d - 1)) as [par|] eqn:Hpar.
  - assert ((if d =? length (p_stack st)
             then p_stack st ++ [length (p_heap st)]
             else take (d + 1) (<[d:=length (p_heap st)]> (p_stack st)))
            = take d (p_stack st) ++ [length (p_heap st)]) as Hstack.
    { destruct (Nat.eqb_spec d (length (p_stack st))) as [Heq|Hne].
      - by rewrite take_ge by lia.
      - apply take_insert_snoc. lia. }
    split.
    + intros Hat. right. exists par. split; [lia|]. split; [done|].
      rewrite <- Hstack. destruct (d =? length (p_stack st)); congruence.
    + intros [(? & _)|(par' & _ & Hpar' & ->)]; [lia|]. simplify_eq.
      rewrite <- Hstack. by destruct (d =? length (p_stack st)).
  - split; [done|]. intros [(? & _)|(par' & _ & ? & _)]; [lia|congruence].
Qed.

(** A property of the texts of a task holds in the store after [attach]
    when it held before and holds of the new task. *)
Lemma attached_Forall (P : Task → Prop) d nm s du st st' :
  (∀ p t, P t → P (set_parent p t)) →
  (∀ c t, P t → P (append_child c t)) →
  attached d nm s du st st' →
  Forall P (p_heap st) → P (mkTask nm s du [] None d) →
  Forall P (p_heap st').
Proof.
  intros Hpar Hchild [(_ & ->)|(par & _ & _ & ->)] Hh Hnew; simpl.
  - apply Forall_app. split; [done|]. constructor; [done|constructor].
  - repeat apply Forall_alter;
      [apply Forall_app; split; [done|constructor; [done|constructor]]|..];
      intros t _ Ht; [by apply Hpar|by apply Hchild].
Qed.

Lemma attached_clean d nm s du st st' :
  attached d nm s du st st' →
  Forall clean (p_heap st) → clean (mkTask nm s du [] None d) →
  Forall clean (p_heap st').
Proof. by apply attached_Forall. Qed.

Lemma attached_recs d nm s du st st' :
  attached d nm s du st st' →
  rec_of <$> p_heap st' = (rec_of <$> p_heap st) ++ [(d, nm, s, du)].
Proof.
  intros [(_ & ->)|(par & _ & _ & ->)]; simpl.
  - by rewrite fmap_app.
  - rewrite !(list_fmap_alter rec_of _ id) by (by apply Forall_true).
    rewrite !list_alter_id by done. by rewrite fmap_app.
Qed.

Lemma attach_all_recs recs : ∀ st st',
  attach_all recs st = Ok st' →
  rec_of <$> p_heap st' = (rec_of <$> p_heap st) ++ recs.
Proof.
  induction recs as [|[[[d nm] s] du] recs IH]; intros st st' Hall.
  { injection Hall as <-. by rewrite app_nil_r. }
  change (attach [] d nm s du st ≫= attach_all recs = Ok st') in Hall.
  apply bind_Ok in Hall as (st1 & H1%attach_Ok & H2).
  rewrite (IH _ _ H2), (attached_recs _ _ _ _ _ _ H1), <- app_assoc. done.
Qed.

Lemma attached_sim d nm s1 s2 du st1 st1' st2 :
  p_sim st1 st2 → attached d nm s1 du st1 st1' →
  ∃ st2', attached d nm s2 du st2 st2' ∧ p_sim st1' st2'.
Proof.
  intros (Ht & Hs & Hh) Hat. pose proof (Forall2_length _ _ _ Hh) as Hlen.
  assert (Forall2 same_but_status
            (p_heap st1 ++ [mkTask nm s1 du [] None d])
            (p_heap st2 ++ [mkTask nm s2 du [] None d])) as Hh'.
  { apply Forall2_app; [done|]. constructor; [|constructor]. by repeat split. }
  destruct Hat as [(-> & ->)|(par & Hd & Hpar & ->)].
  - eexists. split; [by left|]. split; [|split]; simpl; congruence.
  - eexists. split.
    + right. exists par. rewrite <- Hs. done.
    + split; [done|]. split; simpl; [congruence|]. rewrite <- Hlen.
      apply Forall2_alter; [apply Forall2_alter; [done|]|];
        intros x y _ _ (? & ? & ? & ? & ?); repeat split; simpl; congruence.
Qed.

Lemma attach_all_sim recs1 : ∀ recs2 st1 st1' st2,
  Forall2 (λ r1 r2, r1.1.1.1 = r2.1.1.1 ∧ r1.1.1.2 = r2.1.1.2 ∧ r1.2 = r2.2)
          recs1 recs2 →
  p_sim st1 st2 → attach_all recs1 st1 = Ok st1' →
  ∃ st2', attach_all recs2 st2 = Ok st2' ∧ p_sim st1' st2'.
Proof.
  induction recs1 as [|[[[d nm] s1] du] recs1 IH]; intros recs2 st1 st1' st2 Hrecs Hsim.
  { invert Hrecs. simpl. intros [= <-]. by exists st2. }
  invert Hrecs. destruct y as [[[d2 nm2] s2] du2].
  destruct H1 as (Hd & Hn & Hdu). simpl in Hd, Hn, Hdu. subst.
  intros Hall.
  change (attach [] d2 nm2 s1 du2 st1 ≫= attach_all recs1 = Ok st1') in Hall.
  apply bind_Ok in Hall as (st1m & H1%attach_Ok & H2).
  destruct (attached_sim _ _ _ s2 _ _ _ _ Hsim H1) as (st2m & Hat2 & Hsim2).
  apply (attach_Ok []) in Hat2.
  change (∃ st2', attach [] d2 nm2 s2 du2 st2 ≫= attach_all l' = Ok st2'
                  ∧ p_sim st1' st2').
  rewrite Hat2. cbn [mbind result_bind]. by eapply IH.
Qed.

Lemma parse_lines_attach lines : ∀ st st',
  Forall (λ l, plain (rstrip_nl l)) lines →
  parse_lines lines st = Ok st' →
  Forall clean (p_heap st) →
  ∃ recs, attach_all recs st = Ok st' ∧ Forall clean (p_heap st').
Proof.
  induction lines as [|line lines IH]; intros st st' Hplain Hparse Hclean.
  { injection Hparse as <-. by exists []. }
  invert Hplain.
  change (parse_line st line ≫= parse_lines lines = Ok st') in Hparse.
  apply bind_Ok in Hparse as (st1 & Hline & Hrest).
  unfold parse_line in Hline.
  destruct (skipped (rstrip_nl line)) eqn:Hskip.
  { injection Hline as <-. by apply IH. }
  apply bind_Ok in Hline as ([[[d nm] s] du] & Hfields & Hat).
  apply attach_Ok in Hat.
  pose proof (line_fields_clean _ _ _ _ _ ltac:(eassumption) Hskip Hfields) as Hnew.
  destruct (IH st1 st') as (recs & Hall & Hclean'); [done|done| |].
  { by eapply attached_clean. }
  exists ((d, nm, s, du) :: recs). split; [|done].
  change (attach [] d nm s du st ≫= attach_all recs = Ok st').
  rewrite (proj2 (attach_Ok [] _ _ _ _ _ _) Hat). done.
Qed.

Lemma parse_written h : ∀ st st',
  Forall clean h →
  attach_all (rec_of <$> h) st = Ok st' →
  parse_lines ((λ t, task_line t ++ [nl]) <$> h) st = Ok st'.
Proof.
  induction h as [|t h IH]; intros st st' Hclean Hall; [done|].
  invert Hclean.
  change (attach [] (depth t) (name t) (status t) (due t) st
            ≫= attach_all (rec_of <$> h) = Ok st') in Hall.
  apply bind_Ok in Hall as (st1 & Hat%attach_Ok & Hrest).
  change (parse_line st (task_line t ++ [nl])
            ≫= parse_lines ((λ t, task_line t ++ [nl]) <$> h) = Ok st').
  rewrite parse_written_line by done.
  rewrite (proj2 (attach_Ok (task_line t) _ _ _ _ _ _) Hat).
  cbn [mbind result_bind]. by apply IH.
Qed.

(** ** Round trip: flattening follows the layout *)

Lemma flatten_laid h p d i j cs :
  laid h p d i j cs →
  ∀ fuel acc, j - i ≤ fuel →
  for_each (flatten_walk fuel h) cs acc = Ok (acc ++ seq i (j - i)).
Proof.
  induction 1 as [p d i|p d i k j t cs Hi Hp Hd Hkids IHkids Hrest IHrest];
    intros fuel acc Hfuel.
  { rewrite Nat.sub_diag. simpl. by rewrite app_nil_r. }
  pose proof (laid_le _ _ _ _ _ _ Hkids).
  pose proof (laid_le _ _ _ _ _ _ Hrest).
  destruct fuel as [|f]; [lia|].
  change (for_each (flatten_walk (S f) h) (i :: cs) acc)
    with (flatten_walk (S f) h i acc ≫= for_each (flatten_walk (S f) h) cs).
  assert (flatten_walk (S f) h i acc = Ok (acc ++ seq i (k - i))) as ->.
  { simpl. unfold deref. rewrite Hi. simpl. rewrite IHkids by lia.
    rewrite <- app_assoc. simpl.
    replace (k - i) with (S (k - S i)) by lia. done. }
  cbn [mbind result_bind]. rewrite IHrest by lia. rewrite <- app_assoc.
  replace (j - i) with ((k - i) + (j - k)) by lia.
  rewrite seq_app. replace (i + (k - i)) with k by lia. done.
Qed.

Lemma task_lines_seq pre h :
  task_lines (pre ++ h) (seq (length pre) (length h)) = Ok (task_line <$> h).
Proof.
  revert pre. induction h as [|t h IH]; intros pre; [done|].
  simpl. unfold deref. rewrite list_lookup_middle by done. simpl.
  replace (pre ++ t :: h) with ((pre ++ [t]) ++ h) by (by rewrite <- app_assoc).
  replace (S (length pre)) with (length (pre ++ [t]))
    by (rewrite length_app; simpl; lia).
  by rewrite IH.
Qed.

Lemma save_text_laid F :
  laid (store F) None 0 0 (length (store F)) (roots F) →
  save_text F = Ok (join nl (task_line <$> store F) ++ [nl]).
Proof.
  intros Hl. unfold save_text, flatten_tasks.
  rewrite (flatten_laid _ _ _ _ _ _ Hl) by lia.
  rewrite Nat.sub_0_r. cbn [mbind result_bind app].
  pose proof (task_lines_seq [] (store F)) as Hlines. simpl in Hlines.
  by rewrite Hlines.
Qed.

(** ** Round trip: a rolled-up store is a fixed point of the walk *)

Lemma same_status_eq t0 t1 t2 :
  same_but_status t0 t1 → same_but_status t0 t2 → status t1 = status t2 →
  t1 = t2.
Proof.
  destruct t0, t1, t2. intros (? & ? & ? & ? & ?) (? & ? & ? & ? & ?) ?.
  simpl in *. congruence.
Qed.

Lemma rollup_unique h h' rs :
  linked h rs → restatus h h' →
  (∀ x, rollup_at h x) → (∀ x, rollup_at h' x) → h' = h.
Proof.
  intros Hl (Hlen & Hpt) Hroll Hroll'.
  assert (∀ m x, length h ≤ m + x → h' !! x = h !! x) as Hsame.
  { induction m as [|m IH]; intros x Hm.
    - rewrite !(proj2 (lookup_ge_None _ _)) by lia. done.
    - destruct (h !! x) as [t|] eqn:Hx.
      2:{ apply lookup_ge_None in Hx. apply lookup_ge_None. lia. }
      destruct (Hpt x t Hx) as (t' & Hx' & Hsame & Hleaf).
      rewrite Hx'. f_equal.
      destruct (is_leaf t) eqn:Hl0; [by apply Hleaf|].
      apply (same_status_eq t); [done|apply same_but_status_refl|].
      destruct (Hroll x t Hx Hl0) as (ss & Hss & ->).
      destruct (Hroll' x t' Hx') as (ss' & Hss' & ->).
      { rewrite <- Hl0. symmetry. apply is_leaf_skel. by destruct Hsame as (_ & _ & ?). }
      assert (children t' = children t) as Hch
        by (by destruct Hsame as (_ & _ & -> & _)).
      rewrite Hch in Hss'.
      rewrite (statuses_ext h h' (children t)) in Hss'; [congruence|].
      intros c Hc. apply IH.
      destruct (linked_child _ _ _ _ _ Hl Hx Hc) as (? & _). lia. }
  apply list_eq. intros x. apply (Hsame (length h)). lia.
Qed.

Lemma walk_all_fixed F :
  laid (store F) None 0 0 (length (store F)) (roots F) → wf F →
  walk_all (length (store F)) (roots F) (store F) = Ok (store F).
Proof.
  intros Hl (Hlinked & Hroll).
  destruct (walk_all_laid _ _ _ _ _ _ Hl (length (store F)) (store F))
    as (h' & Hw & W); [lia| |].
  { intros x t _ Hx. exists t. split; [done|apply skel_refl]. }
  rewrite Hw. f_equal. apply (rollup_unique _ _ (roots F)); [done| |done|].
  - destruct W as (Hlen & Hpt & _). split; [done|]. intros x t Hx.
    destruct (Hpt x t Hx) as (t' & ? & ? & ? & _). by exists t'.
  - intros x. destruct W as (Hlen & _ & Hr).
    destruct (decide (x < length (store F))); [apply Hr; lia|].
    intros t Hx. apply lookup_lt_Some in Hx. lia.
Qed.

(** ** Round trip *)

Lemma parse_text_inv text F :
  parse_tasks_from_file (Text text) = Ok F →
  ∃ st, parse_lines (readlines text) p_init = Ok st ∧
        roots F = p_tasks st ∧
        laid (p_heap st) None 0 0 (length (p_heap st)) (p_tasks st) ∧
        walked (p_heap st) (store F) 0 (length (p_heap st)).
Proof.
  unfold parse_tasks_from_file. simpl.
  intros (st & Hparse & (h' & Hwalk & [= <-])%bind_Ok)%bind_Ok. simpl.
  pose proof (parse_lines_inv _ _ _ p_init_inv Hparse) as Hinv.
  apply spine_laid in Hinv.
  destruct (walk_all_laid _ _ _ _ _ _ Hinv (length (p_heap st)) (p_heap st))
    as (h2 & Hw2 & W); [lia| |].
  { intros x t _ Hx. exists t. split; [done|apply skel_refl]. }
  rewrite Hw2 in Hwalk. simplify_eq. by exists st.
Qed.

Lemma walked_clean h0 h' i j :
  walked h0 h' i j → (∀ x, rollup_at h' x) → Forall clean h0 → Forall clean h'.
Proof.
  intros (Hlen & Hpt & _) Hroll Hclean. apply Forall_lookup_2. intros x t' Hx'.
  destruct (h0 !! x) as [t0|] eqn:Hx0.
  2:{ apply lookup_ge_None in Hx0. apply lookup_lt_Some in Hx'. lia. }
  destruct (Hpt x t0 Hx0) as (t'' & ? & Hsame & Hleaf & _). simplify_eq.
  pose proof (Forall_lookup_1 _ _ _ _ Hclean Hx0) as Hc0.
  destruct (is_leaf t0) eqn:Hl0; [by rewrite Hleaf|].
  destruct (Hroll x t' Hx') as (ss & _ & Hst).
  { rewrite <- Hl0. symmetry. apply is_leaf_skel. by destruct Hsame as (_ & _ & ?). }
  destruct (enum_clean (status t')) as (? & ? & ? & ?).
  { rewrite Hst. apply rolled_enum. }
  destruct Hsame as (Hn & Hd & _).
  destruct Hc0 as (? & ? & ? & ? & _ & _ & _ & _ & ? & ?).
  unfold clean. rewrite <- Hn, <- Hd. done.
Qed.

(** The run of the parser behind a forest it returned. *)
Lemma parse_trace f F :
  parse_tasks_from_file f = Ok F →
  ∃ st, attach_all (rec_of <$> p_heap st) p_init = Ok st ∧
        p_tasks st = roots F ∧
        Forall2 same_but_status (p_heap st) (store F) ∧
        Forall clean (store F).
Proof.
  intros Hparse.
  assert (F = mkForest [] [] ∨ ∃ text, f = Text text) as [->|(text & ->)].
  { destruct f as [|e| |text]; [left|left|done|right; by eexists].
    - by injection Hparse as <-.
    - destruct e; try done. by injection Hparse as <-. }
  { exists p_init. repeat split; constructor. }
  destruct (parse_laid _ _ Hparse) as (_ & _ & Hroll).
  destruct (parse_text_inv _ _ Hparse) as (st & Hlines & Hroots & _ & W).
  assert (Forall (λ l, plain (rstrip_nl l)) (readlines text)) as Hplain.
  { apply Forall_forall. intros line Hin. by apply (readlines_raw text). }
  destruct (parse_lines_attach _ _ _ Hplain Hlines ltac:(constructor))
    as (recs & Hall & Hclean).
  pose proof (attach_all_recs _ _ _ Hall) as Hrecs. simpl in Hrecs.
  exists st. rewrite Hrecs. split; [done|]. split; [done|]. split.
  - destruct W as (Hlen & Hpt & _). apply Forall2_same_length_lookup_2; [done|].
    intros x t t' Hx Hx'. destruct (Hpt x t Hx) as (t'' & ? & ? & _).
    by simplify_eq.
  - by eapply walked_clean.
Qed.

Lemma join_elem sep ls c :
  c ∈ join sep ls → c = sep ∨ ∃ l, l ∈ ls ∧ c ∈ l.
Proof.
  induction ls as [|l ls IH]; [by intros ?%elem_of_nil|].
  destruct ls as [|l2 ls].
  { simpl. intros ?. right. exists l. split; [by left|done]. }
  change (join sep (l :: l2 :: ls)) with (l ++ sep :: join sep (l2 :: ls)).
  rewrite elem_of_app, elem_of_cons. intros [?|[?|Hin]].
  - right. exists l. split; [by left|done].
  - by left.
  - destruct (IH Hin) as [?|(l' & ? & ?)]; [by left|].
    right. exists l'. split; [by right|done].
Qed.

Lemma readlines_written h :
  h ≠ [] → Forall clean h →
  readlines (join nl (task_line <$> h) ++ [nl])
  = (λ t, task_line t ++ [nl]) <$> h.
Proof.
  intros Hne Hclean.
  assert (Forall plain (task_line <$> h)) as Hplain.
  { apply Forall_fmap. eapply Forall_impl; [exact Hclean|].
    intros t Ht. by apply task_line_plain. }
  unfold readlines. rewrite universal_newlines_id.
  - rewrite keepends_join.
    + rewrite <- list_fmap_compose. done.
    + by destruct h.
    + eapply Forall_impl; [exact Hplain|]. by intros l (? & _).
  - rewrite elem_of_app, list_elem_of_singleton.
    intros [[?|(l & Hl & Hc)]%join_elem|?]; try done.
    rewrite Forall_forall in Hplain. by destruct (Hplain l Hl).
Qed.

Lemma same_recs_eq h0 : ∀ h1 h2,
  Forall2 same_but_status h0 h1 → Forall2 same_but_status h0 h2 →
  rec_of <$> h2 = rec_of <$> h1 → h2 = h1.
Proof.
  induction h0 as [|t0 h0 IH]; intros h1 h2 H1 H2 Hrecs.
  { invert H1. by invert H2. }
  invert H1. invert H2. simpl in Hrecs. injection Hrecs as Hr Hrecs.
  f_equal; [|by apply IH].
  eapply same_status_eq; [eassumption..|]. unfold rec_of in Hr. congruence.
Qed.

(** C1. Saving a forest that [parse_tasks_from_file] returned and parsing
    the saved text returns the same forest: the same store, so for every
    task the same name, status, due text, depth, parent and children in
    order, and the same roots in order. *)
Theorem round_trip f F :
  parse_tasks_from_file f = Ok F →
  ∃ text,
    save_text F = Ok text ∧
    (∀ disk, save_tasks_to_file NoFault F disk = (Ok (), Text text)) ∧
    parse_tasks_from_file (Text text) = Ok F.
Proof.
  intros Hparse.
  destruct (parse_laid _ _ Hparse) as (Hlaid & Hwf).
  destruct (parse_trace _ _ Hparse) as (st1 & Hall1 & Hroots & Hsame & Hclean).
  exists (join nl (task_line <$> store F) ++ [nl]).
  pose proof (save_text_laid F Hlaid) as Hsave.
  split; [done|]. split.
  { intros disk. unfold save_tasks_to_file. by rewrite Hsave. }
  destruct (decide (store F = [])) as [Hempty|Hne].
  { destruct F as [h rs]. simpl in Hempty, Hlaid. subst h.
    invert Hlaid; [reflexivity|]. by rewrite lookup_nil in *. }
  destruct (attach_all_sim (rec_of <$> p_heap st1) (rec_of <$> store F)
              p_init st1 p_init) as (st2 & Hall2 & Hsim); [| |done|].
  { apply Forall2_fmap. eapply Forall2_impl; [exact Hsame|].
    intros t t' (? & ? & _ & _ & ?). done. }
  { repeat split. constructor. }
  apply attach_all_recs in Hall2 as Hrecs2. simpl in Hrecs2.
  destruct Hsim as (Htasks & _ & Hsame2).
  assert (p_heap st2 = store F) as Hheap by (by eapply same_recs_eq).
  apply parse_written in Hall2; [|done].
  unfold parse_tasks_from_file. simpl.
  rewrite readlines_written by done. rewrite Hall2. cbn [mbind result_bind].
  rewrite Hheap, <- Htasks, Hroots, (walk_all_fixed F Hlaid Hwf).
  cbn [mbind result_bind]. by destruct F.
Qed.

Lemma round_trip_witness :
  parse_tasks_from_file demo_file = Ok demo ∧
  ∃ text,
    save_text demo = Ok text ∧
    (∀ disk, save_tasks_to_file NoFault demo disk = (Ok (), Text text)) ∧
    parse_tasks_from_file (Text text) = Ok demo.
Proof.
  split; [vm_compute; reflexivity|].
  apply (round_trip demo_file demo). vm_compute. reflexivity.
Defined.

(** ** Statuses among the three *)

Lemma walked_restatus h0 h' i j : walked h0 h' i j → restatus h0 h'.
Proof.
  intros (Hlen & Hpt & _). split; [done|]. intros x t Hx.
  destruct (Hpt x t Hx) as (t' & ? & ? & ? & _). by exists t'.
Qed.

Lemma parse_lines_enum lines : ∀ st st',
  forallb status_known lines = true →
  parse_lines lines st = Ok st' →
  enum_all (p_heap st) → enum_all (p_heap st').
Proof.
  induction lines as [|line lines IH]; intros st st' Hknown Hparse Henum.
  { by injection Hparse as <-. }
  simpl in Hknown. apply andb_true_iff in Hknown as (Hline & Hknown).
  change (parse_line st line ≫= parse_lines lines = Ok st') in Hparse.
  apply bind_Ok in Hparse as (st1 & Hst1 & Hrest).
  apply (IH st1 st' Hknown Hrest).
  unfold parse_line in Hst1. unfold status_known in Hline.
  destruct (skipped (rstrip_nl line)); [by injection Hst1 as <-|].
  apply bind_Ok in Hst1 as ([[[d nm] s] du] & Hfields & Hat%attach_Ok).
  rewrite Hfields in Hline. simpl in Hline. apply bool_decide_eq_true in Hline.
  by eapply (attached_Forall (λ t, status t ∈ STATUS_CYCLE)).
Qed.

Lemma parse_enum f F :
  parse_tasks_from_file f = Ok F → well_statused f = true → enum_all (store F).
Proof.
  intros Hparse Hknown.
  assert (F = mkForest [] [] ∨ ∃ text, f = Text text) as [->|(text & ->)].
  { destruct f as [|e| |text]; [left|left|done|right; by eexists].
    - by injection Hparse as <-.
    - destruct e; try done. by injection Hparse as <-. }
  { constructor. }
  destruct (parse_laid _ _ Hparse) as (_ & _ & Hroll).
  destruct (parse_text_inv _ _ Hparse) as (st & Hlines & _ & _ & W).
  eapply restatus_enum; [by eapply walked_restatus|done|].
  eapply parse_lines_enum; [exact Hknown|exact Hlines|constructor].
Qed.

Lemma reachable_enum f F :
  reachable f F → well_statused f = true → enum_all (store F).
Proof.
  induction 1 as [F Hparse|F idx F' Hreach IH Hact|F idx dialog F' Hreach IH Hact];
    intros Hknown.
  - by eapply parse_enum.
  - apply reachable_wf in Hreach as Hwf. unfold action_toggle_status in Hact.
    destruct (get_selected_task_total idx F (proj1 Hwf)) as (sel & Hsel & Hvalid).
    rewrite Hsel in Hact. simpl in Hact.
    destruct (toggle_status_wf sel F Hwf Hvalid) as (F'' & Hact' & _ & Henum).
    rewrite Hact in Hact'. injection Hact' as <-. by apply Henum, IH.
  - apply reachable_wf in Hreach as Hwf. unfold action_add_subtask in Hact.
    destruct (get_selected_task_total idx F (proj1 Hwf)) as (sel & Hsel & Hvalid).
    rewrite Hsel in Hact. simpl in Hact.
    destruct (add_subtask_worker_wf sel dialog F Hwf Hvalid)
      as (F'' & Hact' & _ & Henum).
    rewrite Hact in Hact'. injection Hact' as <-. by apply Henum, IH.
Qed.

(** ** The model never leaves the program's behaviours *)

Lemma parse_line_defined st line :
  p_inv st →
  (∃ st', parse_line st line = Ok st' ∧ p_inv st') ∨
  (∃ e, parse_line st line = Raise e).
Proof.
  intros Hinv. unfold parse_line. destruct (skipped _); [left; by exists st|].
  unfold line_fields. destruct (indent_match _) as [[indent content]|];
    [|right; by eexists].
  destruct (split colon 2 content) as [|a [|b [|c [|? ?]]]];
    try (right; by eexists).
  cbn [mbind result_bind].
  match goal with |- context [attach ?raw ?d ?nm ?s ?du st] =>
    destruct (attach_cases raw d nm s du st) as [(_ & _ & ->)|(_ & st' & Hat)]
  end; [right; by eexists|].
  left. exists st'. split; [done|]. by eapply attach_inv.
Qed.

Lemma parse_lines_defined lines : ∀ st,
  p_inv st →
  (∃ st', parse_lines lines st = Ok st' ∧ p_inv st') ∨
  (∃ e, parse_lines lines st = Raise e).
Proof.
  induction lines as [|line lines IH]; intros st Hinv; [left; by exists st|].
  change (parse_lines (line :: lines) st)
    with (parse_line st line ≫= parse_lines lines).
  destruct (parse_line_defined st line Hinv) as [(st1 & -> & Hinv1)|(e & ->)];
    [|right; by exists e].
  by apply IH.
Qed.

(** Parsing returns a forest or raises. *)
Lemma parse_defined f :
  (∃ F, parse_tasks_from_file f = Ok F) ∨ (∃ e, parse_tasks_from_file f = Raise e).
Proof.
  unfold parse_tasks_from_file. destruct f as [|e| |text]; simpl.
  - left. by eexists.
  - destruct e; [left|right..]; by eexists.
  - right. by eexists.
  - destruct (parse_lines_defined (readlines text) p_init p_init_inv)
      as [(st & -> & Hinv)|(e & ->)]; [|right; by exists e].
    cbn [mbind result_bind]. apply spine_laid in Hinv.
    destruct (walk_all_laid _ _ _ _ _ _ Hinv (length (p_heap st)) (p_heap st))
      as (h2 & -> & _); [lia| |left; by eexists].
    intros x t _ Hx. exists t. split; [done|apply skel_refl].
Qed.

(** The editing actions return, in every state of a session. *)
Lemma actions_defined f F idx dialog :
  reachable f F →
  (∃ F', action_toggle_status idx F = Ok F') ∧
  (∃ F', action_add_subtask idx dialog F = Ok F').
Proof.
  intros Hwf%reachable_wf.
  destruct (get_selected_task_total idx F (proj1 Hwf)) as (sel & Hsel & Hvalid).
  unfold action_toggle_status, action_add_subtask. rewrite Hsel.
  cbn [mbind result_bind]. split.
  - destruct (toggle_status_wf sel F Hwf Hvalid) as (F' & ? & _). by exists F'.
  - destruct (add_subtask_worker_wf sel dialog F Hwf Hvalid) as (F' & ? & _).
    by exists F'.
Qed.

(** ** More about the parser *)

Lemma parse_lines_filter lines : ∀ st,
  parse_lines lines st
  = parse_lines (filter (λ l, skipped (rstrip_nl l) = false) lines) st.
Proof.
  induction lines as [|line lines IH]; intros st; [done|].
  rewrite filter_cons.
  change (parse_lines (line :: lines) st)
    with (parse_line st line ≫= parse_lines lines).
  destruct (skipped (rstrip_nl line)) eqn:Hskip.
  - rewrite decide_False by done. unfold parse_line. rewrite Hskip.
    cbn [mbind result_bind]. apply IH.
  - rewrite decide_True by done.
    change (parse_line st line ≫= parse_lines lines
            = parse_line st line
                ≫= parse_lines (filter (λ l, skipped (rstrip_nl l) = false) lines)).
    destruct (parse_line st line); cbn [mbind result_bind]; [apply IH|done..].
Qed.

(** The loop body looks at a line only after [rstrip] has taken the line
    feed from its end. *)
Lemma parse_lines_raw lines : ∀ lines' st,
  rstrip_nl <$> lines = rstrip_nl <$> lines' →
  parse_lines lines st = parse_lines lines' st.
Proof.
  induction lines as [|line lines IH]; intros [|line' lines'] st Heq;
    try done.
  injection Heq as Hline Hrest.
  change (parse_line st line ≫= parse_lines lines
          = parse_line st line' ≫= parse_lines lines').
  assert (parse_line st line = parse_line st line') as ->.
  { unfold parse_line. by rewrite Hline. }
  destruct (parse_line st line'); cbn [mbind result_bind]; [by apply IH|done..].
Qed.

(** X3. Blank lines and comment lines never matter: two texts with the
    same task lines, in the same order, parse to the same outcome, forest
    or error.  A task line is taken without the line feed that ends it, so
    that it is the same line whether it ends the file or not. *)
Theorem parse_ignores_skipped text1 text2 :
  rstrip_nl <$> filter (λ l, skipped (rstrip_nl l) = false) (readlines text1)
  = rstrip_nl <$> filter (λ l, skipped (rstrip_nl l) = false) (readlines text2) →
  parse_tasks_from_file (Text text1) = parse_tasks_from_file (Text text2).
Proof.
  intros Heq. unfold parse_tasks_from_file. simpl.
  by rewrite (parse_lines_filter (readlines text1)),
    (parse_lines_raw _ _ _ Heq), <- (parse_lines_filter (readlines text2)).
Qed.

Lemma parse_ignores_skipped_witness :
  parse_tasks_from_file
    (Text (join nl [lit "# plan"; lit ""; lit "A:OPEN:"; lit "   "; lit "    B::";
                    lit "# end"]))
  = parse_tasks_from_file (Text (join nl [lit "A:OPEN:"; lit "    B::"])).
Proof.
  apply (parse_ignores_skipped
           (join nl [lit "# plan"; lit ""; lit "A:OPEN:"; lit "   "; lit "    B::";
                     lit "# end"])
           (join nl [lit "A:OPEN:"; lit "    B::"])).
  vm_compute. reflexivity.
Defined.

Lemma parse_lines_recs lines : ∀ st st',
  parse_lines lines st = Ok st' →
  ∃ recs,
    Forall2 (λ line r, line_fields (rstrip_nl line) = Ok r)
            (filter (λ l, skipped (rstrip_nl l) = false) lines) recs ∧
    attach_all recs st = Ok st'.
Proof.
  induction lines as [|line lines IH]; intros st st' Hparse.
  { injection Hparse as <-. exists []. split; [constructor|done]. }
  change (parse_line st line ≫= parse_lines lines = Ok st') in Hparse.
  apply bind_Ok in Hparse as (st1 & Hline & Hrest).
  destruct (IH _ _ Hrest) as (recs & Hrecs & Hall).
  rewrite filter_cons. unfold parse_line in Hline.
  destruct (skipped (rstrip_nl line)) eqn:Hskip.
  { injection Hline as <-. rewrite decide_False by done. by exists recs. }
  rewrite decide_True by done.
  apply bind_Ok in Hline as ([[[d nm] s] du] & Hfields & Hat%attach_Ok).
  exists ((d, nm, s, du) :: recs). split; [by constructor|].
  change (attach [] d nm s du st ≫= attach_all recs = Ok st').
  by rewrite (proj2 (attach_Ok [] _ _ _ _ _ _) Hat).
Qed.

(** X1. Every task line of the file becomes one task, and nothing else
    does: the flattened forest lists the tasks in the order of their lines,
    and each task has the depth, the name and the due text of its line,
    and, when it has no children, the status of its line. *)
Theorem parse_keeps_lines text F :
  parse_tasks_from_file (Text text) = Ok F →
  flatten_tasks F = Ok (seq 0 (length (store F))) ∧
  Forall2 (λ line t,
             ∃ s, line_fields (rstrip_nl line) = Ok (depth t, name t, s, due t) ∧
                  (is_leaf t = true → status t = s))
          (filter (λ l, skipped (rstrip_nl l) = false) (readlines text))
          (store F).
Proof.
  intros Hparse. destruct (parse_laid _ _ Hparse) as (Hlaid & _).
  split.
  { unfold flatten_tasks. rewrite (flatten_laid _ _ _ _ _ _ Hlaid) by lia.
    by rewrite Nat.sub_0_r. }
  destruct (parse_text_inv _ _ Hparse) as (st & Hlines & _ & _ & W).
  destruct (parse_lines_recs _ _ _ Hlines) as (recs & Hrecs & Hall).
  apply attach_all_recs in Hall. simpl in Hall. subst recs.
  apply Forall2_fmap_r in Hrecs.
  destruct W as (Hlen & Hpt & _).
  apply Forall2_same_length_lookup_2.
  { apply Forall2_length in Hrecs. congruence. }
  intros i line t' Hline Ht'.
  destruct (Forall2_lookup_l _ _ _ _ _ Hrecs Hline) as (t & Ht & Hfields).
  destruct (Hpt i t Ht) as (t'' & ? & (Hn & Hd & _ & _ & Hdep) & Hleaf & _).
  simplify_eq. exists (status t). split.
  - rewrite Hfields. unfold rec_of. by rewrite Hn, Hd, Hdep.
  - intros Hl. rewrite Hleaf; [done|].
    rewrite <- Hl. apply is_leaf_skel.
    destruct (Hpt i t Ht) as (t2 & ? & (_ & _ & ?) & _). by simplify_eq.
Qed.


Lemma parse_keeps_lines_witness :
  parse_tasks_from_file (Text demo_text) = Ok demo ∧
  flatten_tasks demo = Ok (seq 0 (length (store demo))).
Proof.
  split; [vm_compute; reflexivity|].
  apply (parse_keeps_lines demo_text demo). vm_compute. reflexivity.
Defined.

Lemma laid_depth_ge h p d i j cs :
  laid h p d i j cs →
  ∀ x t, i ≤ x < j → h !! x = Some t → d ≤ depth t.
Proof.
  induction 1 as [|p d i k j t cs Hi Hp Hd Hkids IHkids Hrest IHrest];
    intros x tx Hx Htx; [lia|].
  pose proof (laid_le _ _ _ _ _ _ Hkids).
  destruct (decide (x = i)) as [->|]; [simplify_eq; lia|].
  destruct (decide (x < k)).
  - specialize (IHkids x tx ltac:(lia) Htx). lia.
  - apply (IHrest x tx); [lia|done].
Qed.

(** X2. The parser hangs a task under the nearest task before it that is
    one level up: the parent comes earlier in the file, its depth is one
    less, and no task between the two is less deep than the child.  A task
    without parent has depth zero and is a root. *)
Theorem parse_nearest_parent f F i t :
  parse_tasks_from_file f = Ok F →
  store F !! i = Some t →
  match parent t with
  | Some p =>
      p < i ∧
      (∃ tp, store F !! p = Some tp ∧ depth tp + 1 = depth t) ∧
      (∀ x tx, p < x < i → store F !! x = Some tx → depth t ≤ depth tx)
  | None => depth t = 0 ∧ i ∈ roots F
  end.
Proof.
  intros Hparse Hi. destruct (parse_laid _ _ Hparse) as (Hlaid & Hl & _).
  pose proof Hl as (_ & Hpar & _). specialize (Hpar i t Hi).
  unfold parent_ok in Hpar. destruct (parent t) as [p|] eqn:Hp; [|done].
  destruct Hpar as (tp & Htp & Hin).
  destruct (linked_child _ _ _ _ _ Hl Htp Hin) as (Hlt & t' & ? & _ & Hdep).
  simplify_eq. split; [done|]. split; [exists tp; split; [done|lia]|].
  intros x tx Hx Htx. apply lookup_lt_Some in Htp as Hpn.
  destruct (laid_sub _ _ _ _ _ _ p Hlaid) as (tp' & k & ? & _ & Hsub); [lia|].
  simplify_eq.
  pose proof (laid_roots _ _ _ _ _ _ Hsub) as Hroots.
  rewrite Forall_forall in Hroots. destruct (Hroots i Hin) as (Hik & _).
  pose proof (laid_depth_ge _ _ _ _ _ _ Hsub x tx ltac:(lia) Htx). lia.
Qed.

Lemma parse_nearest_parent_witness :
  parse_tasks_from_file demo_file = Ok demo ∧
  store demo !! 3 = Some (mkTask (lit "Firmware") OPEN [] [] (Some 1) 1) ∧
  1 < 3.
Proof.
  split; [vm_compute; reflexivity|]. split; [reflexivity|].
  refine (proj1 (parse_nearest_parent demo_file demo 3
                   (mkTask (lit "Firmware") OPEN [] [] (Some 1) 1) _ _));
    vm_compute; reflexivity.
Defined.

(** ** Task lines and their tasks *)

(** Each task line of a file that parses has its task, in the order of
    the lines. *)
Lemma parse_tasks_fields text F :
  parse_tasks_from_file (Text text) = Ok F →
  Forall2 (λ line t,
             ∃ s, line_fields (rstrip_nl line) = Ok (depth t, name t, s, due t) ∧
                  (is_leaf t = true → status t = s))
          (filter (λ l, skipped (rstrip_nl l) = false) (readlines text))
          (store F).
Proof.
  intros Hparse.
  destruct (parse_text_inv _ _ Hparse) as (st & Hlines & _ & _ & W).
  destruct (parse_lines_recs _ _ _ Hlines) as (recs & Hrecs & Hall).
  apply attach_all_recs in Hall. simpl in Hall. subst recs.
  apply Forall2_fmap_r in Hrecs.
  destruct W as (Hlen & Hpt & _).
  apply Forall2_same_length_lookup_2.
  { apply Forall2_length in Hrecs. congruence. }
  intros i line t' Hline Ht'.
  destruct (Forall2_lookup_l _ _ _ _ _ Hrecs Hline) as (t & Ht & Hfields).
  destruct (Hpt i t Ht) as (t'' & ? & (Hn & Hd & _ & _ & Hdep) & Hleaf & _).
  simplify_eq. exists (status t). split.
  - rewrite Hfields. unfold rec_of. by rewrite Hn, Hd, Hdep.
  - intros Hl. rewrite Hleaf; [done|].
    rewrite <- Hl. apply is_leaf_skel.
    destruct (Hpt i t Ht) as (t2 & ? & (_ & _ & ?) & _). by simplify_eq.
Qed.

(** The task of a task line is found in the store at the number of task
    lines before it. *)
Lemma parse_line_task text F pre line rest :
  parse_tasks_from_file (Text text) = Ok F →
  readlines text = pre ++ line :: rest →
  skipped (rstrip_nl line) = false →
  ∃ t s,
    store F !! length (filter (λ l, skipped (rstrip_nl l) = false) pre) = Some t ∧
    line_fields (rstrip_nl line) = Ok (depth t, name t, s, due t) ∧
    (is_leaf t = true → status t = s).
Proof.
  intros Hparse Hlines Hskip. pose proof (parse_tasks_fields _ _ Hparse) as Hall.
  rewrite Hlines, filter_app, filter_cons_True in Hall by done.
  apply Forall2_app_inv_l in Hall as (h1 & h2 & H1 & H2 & Heq).
  apply Forall2_cons_inv_l in H2 as (t & h3 & (s & Hf & Hs) & _ & ->).
  exists t, s. split; [|done]. rewrite Heq.
  apply Forall2_length in H1. rewrite H1. by apply list_lookup_middle.
Qed.

Lemma parse_lines_app pre rest st :
  parse_lines (pre ++ rest) st = parse_lines pre st ≫= parse_lines rest.
Proof. apply for_each_app. Qed.

Lemma parse_lines_cons line rest st :
  parse_lines (line :: rest) st = parse_line st line ≫= parse_lines rest.
Proof. done. Qed.

(** The error for a line without its two colons comes from such a line. *)
Lemma parse_line_invalid st line raw :
  nl ∉ rstrip_nl line →
  parse_line st line = Raise (ValueError (lit "Invalid line: " ++ raw)) →
  rstrip_nl line = raw ∧ skipped raw = false ∧
  count colon (drop_while isspace raw) < 2.
Proof.
  intros Hnl. unfold parse_line.
  destruct (skipped (rstrip_nl line)) eqn:Hskip; [done|].
  destruct (line_fields_cases _ Hnl)
    as [(Hcount & ->)|(Hcount & a & b & c & Heq & Ha & Hb & ->)].
  - intros [= Hraw]. by subst.
  - cbn [mbind result_bind].
    destruct (attach_cases (rstrip_nl line) (line_depth (rstrip_nl line))
                (strip a) (status_field b) (strip c) st)
      as [(_ & _ & ->)|(_ & st' & ->)]; [|done].
    intros Hmsg. exfalso. vm_compute in Hmsg. discriminate.
Qed.

Lemma parse_lines_invalid lines raw : ∀ st,
  Forall (λ l, nl ∉ rstrip_nl l) lines →
  parse_lines lines st = Raise (ValueError (lit "Invalid line: " ++ raw)) →
  ∃ line, line ∈ lines ∧ rstrip_nl line = raw ∧ skipped raw = false ∧
          count colon (drop_while isspace raw) < 2.
Proof.
  induction lines as [|line lines IH]; intros st Hall Hraise; [done|].
  invert Hall.
  change (parse_line st line ≫= parse_lines lines
          = Raise (ValueError (lit "Invalid line: " ++ raw))) in Hraise.
  destruct (parse_line st line) as [st1|e|] eqn:Hline;
    cbn [mbind result_bind] in Hraise; [|injection Hraise as ->|done].
  - destruct (IH st1) as (l & Hl & ?); [done|done|].
    exists l. split; [by right|done].
  - exists line. split; [by left|]. by eapply parse_line_invalid.
Qed.

Lemma parse_invalid_line text raw :
  parse_tasks_from_file (Text text)
    = Raise (ValueError (lit "Invalid line: " ++ raw)) →
  ∃ line, line ∈ readlines text ∧ rstrip_nl line = raw ∧ skipped raw = false ∧
          count colon (drop_while isspace raw) < 2.
Proof.
  unfold parse_tasks_from_file. simpl.
  destruct (parse_lines_defined (readlines text) p_init p_init_inv)
    as [(st & Hst & Hinv)|(e & He)].
  - rewrite Hst. cbn [mbind result_bind]. apply spine_laid in Hinv.
    destruct (walk_all_laid _ _ _ _ _ _ Hinv (length (p_heap st)) (p_heap st))
      as (h2 & -> & _); [lia| |done].
    intros x t _ Hx. exists t. split; [done|apply skel_refl].
  - rewrite He. cbn [mbind result_bind]. intros [= ->].
    apply (parse_lines_invalid _ _ p_init); [|done].
    apply Forall_forall. intros l Hl. by destruct (readlines_raw _ _ Hl).
Qed.

(** C6. A line that is neither blank nor a comment, and to which the loop
    of the parser comes, makes [parse_tasks_from_file] raise the error
    that carries [Invalid line: ] and the raw line exactly when what
    follows its indentation has fewer than two colons.  With two or more,
    the fields are the text before the first colon, the text between the
    first and the second, and everything after the second, further colons
    included: when the file parses, the task of the line has the first as
    its name and the last as its due text. *)
Theorem invalid_line_iff text pre line rest st :
  readlines text = pre ++ line :: rest →
  parse_lines pre p_init = Ok st →
  skipped (rstrip_nl line) = false →
  (parse_tasks_from_file (Text text)
     = Raise (ValueError (lit "Invalid line: " ++ rstrip_nl line))
   ↔ count colon (drop_while isspace (rstrip_nl line)) < 2) ∧
  (2 ≤ count colon (drop_while isspace (rstrip_nl line)) →
   ∃ a b c,
     drop_while isspace (rstrip_nl line) = a ++ colon :: b ++ colon :: c ∧
     (colon ∉ a) ∧ (colon ∉ b) ∧
     line_fields (rstrip_nl line)
       = Ok (line_depth (rstrip_nl line), strip a,
             match strip b with [] => STATUS_DEFAULT | _ => strip b end,
             strip c) ∧
     ∀ F, parse_tasks_from_file (Text text) = Ok F →
       ∃ t,
         store F !! length (filter (λ l, skipped (rstrip_nl l) = false) pre)
           = Some t ∧
         depth t = line_depth (rstrip_nl line) ∧
         name t = strip a ∧ due t = strip c ∧
         (is_leaf t = true →
          status t = match strip b with [] => STATUS_DEFAULT | _ => strip b end)).
Proof.
  intros Hlines Hpre Hskip.
  assert (line ∈ readlines text) as Hin.
  { rewrite Hlines. apply elem_of_app. right. by left. }
  destruct (readlines_raw _ _ Hin) as (Hnl & _).
  destruct (line_fields_cases _ Hnl)
    as [(Hcount & Hf)|(Hcount & a & b & c & Heq & Ha & Hb & Hf)].
  - split; [|lia]. split; [done|]. intros _.
    unfold parse_tasks_from_file, open_read.
    rewrite Hlines, parse_lines_app, Hpre. cbn [mbind result_bind].
    rewrite parse_lines_cons.
    assert (parse_line st line
            = Raise (ValueError (lit "Invalid line: " ++ rstrip_nl line))) as ->.
    { unfold parse_line. by rewrite Hskip, Hf. }
    done.
  - split.
    + split; [|lia]. intros Hraise.
      destruct (parse_invalid_line _ _ Hraise) as (_ & _ & _ & _ & ?). done.
    + intros _. exists a, b, c. split; [done|]. split; [done|]. split; [done|].
      split; [exact Hf|]. intros F HF.
      destruct (parse_line_task _ _ _ _ _ HF Hlines Hskip) as (t & s & Ht & Hf' & Hs).
      rewrite Hf in Hf'. unfold status_field in Hf'. injection Hf' as Hd Hn Hst Hdu.
      exists t. split; [done|]. split; [done|]. split; [done|]. split; [done|].
      intros Hleaf. rewrite Hst. by apply Hs.
Qed.

Lemma invalid_line_iff_witness :
  readlines (lit "A:OPEN:" ++ nl :: lit "Buy milk")
    = [lit "A:OPEN:" ++ [nl]] ++ lit "Buy milk" :: [] ∧
  parse_lines [lit "A:OPEN:" ++ [nl]] p_init
    = Ok (mkP [mkTask (lit "A") OPEN [] [] None 0] [0] [0]) ∧
  skipped (rstrip_nl (lit "Buy milk")) = false ∧
  parse_tasks_from_file (Text (lit "A:OPEN:" ++ nl :: lit "Buy milk"))
    = Raise (ValueError (lit "Invalid line: " ++ rstrip_nl (lit "Buy milk"))).
Proof.
  split; [reflexivity|]. split; [reflexivity|]. split; [reflexivity|].
  apply (invalid_line_iff (lit "A:OPEN:" ++ nl :: lit "Buy milk")
           [lit "A:OPEN:" ++ [nl]] (lit "Buy milk") []
           (mkP [mkTask (lit "A") OPEN [] [] None 0] [0] [0])
           eq_refl eq_refl eq_refl).
  vm_compute. lia.
Defined.

(** ** Status values in a session *)

(** A session began with loading its file. *)
Lemma reachable_parse f F :
  reachable f F → ∃ F0, parse_tasks_from_file f = Ok F0.
Proof. induction 1; [by eexists|done..]. Qed.

(** C8, amended. In a session on a file whose task lines all hold a status
    field that trims to the empty text or to one of the three statuses,
    every task has one of the three statuses, after loading and after
    every editing action.  Whatever the file holds, this is so for every
    task that has children.  A task line whose status field trims to the
    empty text is read with the status [OPEN]: in the forest loaded from
    the file its task has one of the three statuses, and [OPEN] when it has
    no children. *)
Theorem status_enum f F :
  reachable f F →
  (well_statused f = true →
   ∀ i t, store F !! i = Some t → status t ∈ STATUS_CYCLE) ∧
  (∀ i t, store F !! i = Some t → children t ≠ [] → status t ∈ STATUS_CYCLE) ∧
  (∃ F0,
     parse_tasks_from_file f = Ok F0 ∧
     ∀ text pre line rest a b c,
       f = Text text →
       readlines text = pre ++ line :: rest →
       skipped (rstrip_nl line) = false →
       drop_while isspace (rstrip_nl line) = a ++ colon :: b ++ colon :: c →
       colon ∉ a → colon ∉ b → strip b = [] →
       line_fields (rstrip_nl line)
         = Ok (line_depth (rstrip_nl line), strip a, OPEN, strip c) ∧
       ∃ t,
         store F0 !! length (filter (λ l, skipped (rstrip_nl l) = false) pre)
           = Some t ∧
         name t = strip a ∧ due t = strip c ∧
         status t ∈ STATUS_CYCLE ∧
         (children t = [] → status t = OPEN)).
Proof.
  intros Hreach. split; [|split].
  - intros Hknown i t Hi.
    by eapply (Forall_lookup_1 _ _ _ _ (reachable_enum f F Hreach Hknown)).
  - destruct (reachable_wf f F Hreach) as (_ & Hroll).
    intros i t Hi Hkids. destruct (Hroll i t Hi) as (ss & _ & ->).
    + unfold is_leaf. by destruct (children t).
    + apply rolled_enum.
  - destruct (reachable_parse _ _ Hreach) as (F0 & HF0). exists F0.
    split; [done|].
    intros text pre line rest a b c -> Hlines Hskip Hsplit Ha Hb Hblank.
    assert (line ∈ readlines text) as Hin.
    { rewrite Hlines. apply elem_of_app. right. by left. }
    destruct (readlines_raw _ _ Hin) as (Hnl & _).
    assert (line_fields (rstrip_nl line)
            = Ok (line_depth (rstrip_nl line), strip a, OPEN, strip c)) as Hf.
    { unfold line_fields. rewrite indent_match_no_nl by done.
      rewrite Hsplit, split_two by done. by rewrite Hblank. }
    split; [done|].
    destruct (parse_line_task _ _ _ _ _ HF0 Hlines Hskip) as (t & s & Ht & Hf' & Hs).
    rewrite Hf in Hf'. injection Hf' as Hd Hn Hst Hdu.
    exists t. split; [done|]. split; [done|]. split; [done|].
    destruct (is_leaf t) eqn:Hleaf.
    + rewrite (Hs eq_refl), <- Hst. split; [by left|done].
    + split.
      * destruct (parse_laid _ _ HF0) as (_ & _ & Hroll).
        destruct (Hroll _ t Ht Hleaf) as (ss & _ & ->). apply rolled_enum.
      * intros Hkids. unfold is_leaf in Hleaf. by rewrite Hkids in Hleaf.
Qed.

Lemma scenario_B1_reachable : reachable scenario_B_file scenario_B1.
Proof.
  apply (reach_toggle scenario_B_file scenario_B (Some 0%Z));
    [|vm_compute; reflexivity].
  apply (reach_mount scenario_B_file). vm_compute. reflexivity.
Qed.

Lemma status_enum_witness :
  reachable scenario_B_file scenario_B1 ∧
  well_statused scenario_B_file = true ∧
  store scenario_B1 !! 0 = Some (mkTask (lit "Buy milk") IN_PROGRESS [] [] None 0) ∧
  IN_PROGRESS ∈ STATUS_CYCLE ∧
  ∃ F0 t,
    parse_tasks_from_file scenario_B_file = Ok F0 ∧
    store F0 !! 0 = Some t ∧
    name t = lit "Buy milk" ∧ due t = [] ∧ status t = OPEN.
Proof.
  split; [exact scenario_B1_reachable|]. split; [reflexivity|].
  split; [reflexivity|].
  destruct (status_enum scenario_B_file scenario_B1 scenario_B1_reachable)
    as (Henum & _ & F0 & HF0 & Hblank).
  split.
  { exact (Henum eq_refl 0 (mkTask (lit "Buy milk") IN_PROGRESS [] [] None 0)
             eq_refl). }
  destruct (Hblank (lit "Buy milk::") [] (lit "Buy milk::") []
              (lit "Buy milk") [] [] eq_refl eq_refl eq_refl eq_refl)
    as (_ & t & Ht & Hn & Hd & _ & Hopen).
  { by apply (bool_decide_unpack _). }
  { by apply (bool_decide_unpack _). }
  { reflexivity. }
  exists F0, t. split; [exact HF0|]. split; [exact Ht|].
  split; [exact Hn|]. split; [exact Hd|]. apply Hopen.
  assert (F0 = scenario_B) as ->.
  { change (Ok scenario_B = Ok F0) in HF0. congruence. }
  simpl in Ht. injection Ht as <-. reflexivity.
Defined.

(** ** The list view: every task once *)

Lemma for_each_ext {A B} (body body' : B → A → result A) xs a :
  (∀ x a, x ∈ xs → body x a = body' x a) →
  for_each body xs a = for_each body' xs a.
Proof.
  revert a. induction xs as [|x xs IH]; intros a Hext; simpl; [done|].
  rewrite Hext by (by left). destruct (body' x a); simpl; [|done|done].
  apply IH. intros y b ?. apply Hext. by right.
Qed.

(** What a loop of walks appends does not depend on what is there
    already. *)
Lemma for_each_acc {B} (body : B → list ref → result (list ref)) xs :
  (∀ x acc, x ∈ xs → body x acc = body x [] ≫= λ l, Ok (acc ++ l)) →
  ∀ acc, for_each body xs acc = for_each body xs [] ≫= λ l, Ok (acc ++ l).
Proof.
  induction xs as [|x xs IH]; intros Hbody acc; simpl.
  { by rewrite app_nil_r. }
  rewrite (Hbody x acc) by (by left).
  destruct (body x []) as [l1| |]; simpl; [|done|done].
  assert (∀ acc, for_each body xs acc = for_each body xs [] ≫= λ l, Ok (acc ++ l))
    as IH'.
  { apply IH. intros y b ?. apply Hbody. by right. }
  rewrite (IH' (acc ++ l1)), (IH' l1).
  destruct (for_each body xs []); simpl; [|done|done].
  by rewrite app_assoc.
Qed.

Lemma flatten_walk_acc h fuel : ∀ t acc,
  flatten_walk fuel h t acc = flatten_walk fuel h t [] ≫= λ l, Ok (acc ++ l).
Proof.
  induction fuel as [|fuel IH]; intros t acc; simpl; [done|].
  destruct (deref h t) as [task| |]; simpl; [|done|done].
  rewrite (for_each_acc _ _ (λ x a _, IH x a) (acc ++ [t])).
  rewrite (for_each_acc _ _ (λ x a _, IH x a) [t]).
  destruct (for_each (flatten_walk fuel h) (children task) []); simpl; [|done|done].
  by rewrite <- app_assoc.
Qed.

(** The walk from a task: the task, then the walks from its children. *)
Lemma flatten_walk_Ok h fuel t l :
  flatten_walk (S fuel) h t [] = Ok l ↔
  ∃ task l0, h !! t = Some task ∧
             for_each (flatten_walk fuel h) (children task) [] = Ok l0 ∧
             l = t :: l0.
Proof.
  simpl. rewrite bind_Ok. setoid_rewrite deref_Ok.
  split.
  - intros (task & Ht & Hl). exists task.
    rewrite (for_each_acc _ _ (λ x a _, flatten_walk_acc h fuel x a)) in Hl.
    apply bind_Ok in Hl as (l0 & Hl0 & [= <-]). by exists l0.
  - intros (task & l0 & Ht & Hl0 & ->). exists task. split; [done|].
    rewrite (for_each_acc _ _ (λ x a _, flatten_walk_acc h fuel x a)).
    by rewrite Hl0.
Qed.

Lemma for_each_cons_Ok h fuel c cs l :
  for_each (flatten_walk fuel h) (c :: cs) [] = Ok l ↔
  ∃ l1 l2, flatten_walk fuel h c [] = Ok l1 ∧
           for_each (flatten_walk fuel h) cs [] = Ok l2 ∧ l = l1 ++ l2.
Proof.
  simpl. rewrite bind_Ok. split.
  - intros (l1 & H1 & H2). exists l1.
    rewrite (for_each_acc _ _ (λ x a _, flatten_walk_acc h fuel x a)) in H2.
    apply bind_Ok in H2 as (l2 & H2 & [= <-]). by exists l2.
  - intros (l1 & l2 & H1 & H2 & ->). exists l1. split; [done|].
    rewrite (for_each_acc _ _ (λ x a _, flatten_walk_acc h fuel x a)).
    by rewrite H2.
Qed.

(** The walk looks at the children only. *)
Lemma flatten_walk_skel h h' fuel : ∀ t acc,
  (∀ x, children <$> h' !! x = children <$> h !! x) →
  flatten_walk fuel h' t acc = flatten_walk fuel h t acc.
Proof.
  induction fuel as [|fuel IH]; intros t acc Hsk; simpl; [done|].
  unfold deref. specialize (Hsk t) as Ht.
  destruct (h' !! t) as [t'|], (h !! t) as [t0|]; simpl in *; try done.
  injection Ht as ->. apply for_each_ext. intros x a _. by apply IH.
Qed.

Lemma skel_eq_children h h' x :
  skel_eq h h' → children <$> h' !! x = children <$> h !! x.
Proof.
  intros (Hlen & Hsk). destruct (h !! x) as [t|] eqn:Hx.
  - destruct (Hsk x t Hx) as (t' & -> & Hc & _). simpl. by rewrite Hc.
  - apply lookup_ge_None in Hx. rewrite (proj2 (lookup_ge_None h' x)) by lia. done.
Qed.

Lemma flatten_tasks_skel F F' :
  roots F' = roots F → skel_eq (store F) (store F') →
  flatten_tasks F' = flatten_tasks F.
Proof.
  intros Hr Hsk. unfold flatten_tasks. rewrite Hr.
  rewrite (proj1 Hsk). apply for_each_ext. intros x a _.
  apply flatten_walk_skel. intros y. by apply skel_eq_children.
Qed.

(** The store after a task was added under [par], seen from the walk: the
    children are the old ones, with the new reference [n] as the last
    child of [par]. *)
Section flatten_added.
Context (h h0 : heap) (par : option ref) (n : ref).
Context (Hold : ∀ x t, h !! x = Some t →
           ∃ t', h0 !! x = Some t' ∧
                 children t' = children t ++ (if decide (par = Some x) then [n] else [])).
Context (Hnew : ∃ tn, h0 !! n = Some tn ∧ children tn = []).

Let cnt (l : list ref) : nat := length (filter (λ x, par = Some x) l).

(** The new reference is put into [l] at one place behind [par], or [l]
    does not hold [par] and stays as it is. *)
Let inserted (l l' : list ref) : Prop :=
  (cnt l = 0 ∧ l' = l) ∨
  (∃ l1 l2, l = l1 ++ l2 ∧ l' = l1 ++ n :: l2 ∧ cnt l1 = 1).

Lemma cnt_app l1 l2 : cnt (l1 ++ l2) = cnt l1 + cnt l2.
Proof. unfold cnt. by rewrite filter_app, length_app. Qed.

Lemma inserted_app la la' lb lb' :
  cnt (la ++ lb) ≤ 1 → inserted la la' → inserted lb lb' →
  inserted (la ++ lb) (la' ++ lb').
Proof.
  rewrite cnt_app. intros Hle [(Ha & ->)|(a1 & a2 & -> & -> & Ha)].
  - intros [(Hb & ->)|(b1 & b2 & -> & -> & Hb)].
    + left. rewrite cnt_app. split; [lia|done].
    + right. exists (la ++ b1), b2. rewrite cnt_app, <- !app_assoc.
      split; [done|]. split; [done|lia].
  - rewrite cnt_app in Hle.
    intros [(Hb & ->)|(b1 & b2 & -> & -> & Hb)].
    + right. exists a1, (a2 ++ lb). rewrite <- !app_assoc. done.
    + rewrite cnt_app in Hle. lia.
Qed.

Lemma flatten_walk_new fuel acc : flatten_walk (S fuel) h0 n acc = Ok (acc ++ [n]).
Proof.
  destruct Hnew as (tn & Hn & Hc). simpl. unfold deref. rewrite Hn. simpl.
  by rewrite Hc.
Qed.

Lemma flatten_walk_added fuel : ∀ t l,
  flatten_walk fuel h t [] = Ok l → cnt l ≤ 1 →
  ∃ l', flatten_walk (S fuel) h0 t [] = Ok l' ∧ inserted l l'.
Proof.
  induction fuel as [|fuel IH]; intros t l Hl Hle; [done|].
  apply flatten_walk_Ok in Hl as (task & l0 & Ht & Hl0 & ->).
  destruct (Hold t task Ht) as (task' & Ht' & Hc).
  assert (∀ cs l, for_each (flatten_walk fuel h) cs [] = Ok l → cnt l ≤ 1 →
            ∃ l', for_each (flatten_walk (S fuel) h0) cs [] = Ok l' ∧
                  inserted l l') as Hloop.
  { clear -IH. induction cs as [|c cs IHcs]; intros l Hl Hle.
    { injection Hl as <-. exists []. split; [done|]. by left. }
    apply for_each_cons_Ok in Hl as (l1 & l2 & H1 & H2 & ->).
    pose proof Hle as Hle'. rewrite cnt_app in Hle'.
    destruct (IH c l1 H1) as (l1' & H1' & Hp1); [lia|].
    destruct (IHcs l2 H2) as (l2' & H2' & Hp2); [lia|].
    exists (l1' ++ l2'). split.
    { apply for_each_cons_Ok. by exists l1', l2'. }
    by apply inserted_app. }
  destruct (decide (par = Some t)) as [Hpar|Hpar].
  - assert (cnt (t :: l0) = S (cnt l0)) as Hcnt.
    { unfold cnt. by rewrite filter_cons_True. }
    destruct (Hloop _ _ Hl0) as (l0' & Hl0' & [(_ & ->)|(l1 & l2 & Heq & _ & Hl1)]);
      [lia| |].
    + exists (t :: l0 ++ [n]). split.
      * apply flatten_walk_Ok. exists task', (l0 ++ [n]). split; [done|].
        split; [|done]. rewrite Hc, for_each_app, Hl0'.
        cbn [mbind result_bind for_each]. by rewrite flatten_walk_new.
      * right. exists (t :: l0), []. rewrite app_nil_r. split; [done|].
        split; [done|]. lia.
    + exfalso. assert (cnt l0 = cnt l1 + cnt l2) by (rewrite Heq; apply cnt_app).
      lia.
  - assert (cnt (t :: l0) = cnt l0) as Hcnt.
    { unfold cnt. by rewrite filter_cons_False. }
    destruct (Hloop _ _ Hl0) as (l0' & Hl0' & Hins); [lia|].
    exists (t :: l0'). split.
    + apply flatten_walk_Ok. exists task', l0'. split; [done|].
      split; [|done]. by rewrite Hc, app_nil_r.
    + destruct Hins as [(? & ->)|(l1 & l2 & -> & -> & Hl1)].
      * left. split; [lia|done].
      * right. exists (t :: l1), l2. split; [done|]. split; [done|].
        unfold cnt in *. by rewrite filter_cons_False.
Qed.

Lemma for_each_added fuel : ∀ cs l,
  for_each (flatten_walk fuel h) cs [] = Ok l → cnt l ≤ 1 →
  ∃ l', for_each (flatten_walk (S fuel) h0) cs [] = Ok l' ∧ inserted l l'.
Proof.
  induction cs as [|c cs IHcs]; intros l Hl Hle.
  { injection Hl as <-. exists []. split; [done|]. by left. }
  apply for_each_cons_Ok in Hl as (l1 & l2 & H1 & H2 & ->).
  pose proof Hle as Hle'. rewrite cnt_app in Hle'.
  destruct (flatten_walk_added fuel c l1 H1) as (l1' & H1' & Hp1); [lia|].
  destruct (IHcs l2 H2) as (l2' & H2' & Hp2); [lia|].
  exists (l1' ++ l2'). split.
  { apply for_each_cons_Ok. by exists l1', l2'. }
  by apply inserted_app.
Qed.

End flatten_added.

Lemma add_store_length parent nm du h :
  (∀ p, parent = Some p → is_Some (h !! p)) →
  length (add_store parent nm du h) = S (length h).
Proof.
  intros Hp. unfold add_store. destruct parent as [p|].
  - destruct (Hp p eq_refl) as [tp ->]. rewrite length_alter, length_app. simpl. lia.
  - rewrite length_app. simpl. lia.
Qed.

Lemma add_store_new parent nm du h :
  (∀ p, parent = Some p → is_Some (h !! p)) →
  add_store parent nm du h !! length h
  = Some (mkTask nm OPEN du [] parent (add_depth parent h)).
Proof.
  intros Hp. unfold add_store, add_depth. destruct parent as [p|].
  - destruct (Hp p eq_refl) as [tp Htp]. rewrite Htp.
    by apply add_child_lookup_new.
  - by rewrite list_lookup_middle.
Qed.

Lemma add_store_old parent nm du h x t :
  (∀ p, parent = Some p → is_Some (h !! p)) →
  h !! x = Some t →
  add_store parent nm du h !! x
  = Some (if decide (parent = Some x) then append_child (length h) t else t).
Proof.
  intros Hp Hx. unfold add_store. destruct parent as [p|].
  - destruct (Hp p eq_refl) as [tp Htp]. rewrite Htp.
    apply lookup_lt_Some in Hx as ?.
    destruct (decide (Some p = Some x)) as [[= ->]|Hne].
    + rewrite (add_child_lookup_par _ _ _ nm du Htp). congruence.
    + rewrite add_child_lookup_other; [done|congruence|lia].
  - rewrite decide_False by done. by apply lookup_app_l_Some.
Qed.

Lemma recalc_Ok self h h1 t :
  h !! self = Some t →
  (if is_leaf t then Ok h else recalc_status_from_children self h) = Ok h1 →
  ∃ s, h1 = alter (set_status s) self h ∧ (is_leaf t = true → h1 = h).
Proof.
  intros Ht. destruct (is_leaf t) eqn:Hleaf.
  - intros [= <-]. exists (status t). split; [|done].
    symmetry. apply list_eq. intros x. destruct (decide (x = self)) as [->|].
    + rewrite list_lookup_alter_eq, Ht. by destruct t.
    + by rewrite list_lookup_alter_ne.
  - unfold recalc_status_from_children. rewrite (proj2 (deref_Ok _ _ _) Ht).
    cbn [mbind result_bind]. rewrite Hleaf.
    intros (ss & _ & [= <-])%bind_Ok. by eexists.
Qed.

Lemma ancestor_ext h h' a x :
  (∀ y, parent <$> h' !! y = parent <$> h !! y) →
  ancestor h' a x → ancestor h a x.
Proof.
  intros Hext. induction 1 as [x t p Hx Hp|x t p a Hx Hp _ IH].
  - specialize (Hext x). rewrite Hx in Hext. simpl in Hext.
    destruct (h !! x) as [t0|] eqn:Hx0; [|done]. injection Hext as Hpp.
    apply (anc_parent _ x t0 p); [done|congruence].
  - specialize (Hext x). rewrite Hx in Hext. simpl in Hext.
    destruct (h !! x) as [t0|] eqn:Hx0; [|done]. injection Hext as Hpp.
    apply (anc_up _ x t0 p a); [done|congruence|done].
Qed.

Lemma alter_status_parent s i (h : heap) (y : ref) :
  parent <$> alter (set_status s) i h !! y = parent <$> h !! y.
Proof.
  destruct (decide (y = i)) as [->|].
  - rewrite list_lookup_alter_eq. by destruct (h !! i).
  - by rewrite list_lookup_alter_ne.
Qed.

(** [propagate_up] changes statuses only, only those of tasks with
    children, and only at the task it starts from and at its ancestors. *)
Lemma propagate_up_restatus fuel : ∀ self h h',
  propagate_up fuel self h = Ok h' →
  restatus h h' ∧
  ∀ x, x ≠ self → ¬ ancestor h x self → h' !! x = h !! x.
Proof.
  induction fuel as [|fuel IH]; intros self h h'; simpl; [done|].
  intros (t & Ht%deref_Ok & (h1 & H1 & (t1 & Ht1%deref_Ok & Hup)%bind_Ok)%bind_Ok)%bind_Ok.
  destruct (recalc_Ok _ _ _ _ Ht H1) as (s & -> & Hleaf).
  assert (restatus h (alter (set_status s) self h)) as Hre1.
  { destruct (is_leaf t) eqn:Hl.
    - rewrite Hleaf by done. apply restatus_refl.
    - by eapply restatus_set. }
  assert (parent t1 = parent t) as Hpar.
  { rewrite list_lookup_alter_eq, Ht in Ht1. by injection Ht1 as <-. }
  destruct (parent t1) as [p|] eqn:Hp1.
  - destruct (IH _ _ _ Hup) as (Hre & Hframe). split.
    + by eapply restatus_trans.
    + intros x Hne Hanc. rewrite Hframe.
      * by rewrite list_lookup_alter_ne.
      * intros ->. apply Hanc. by eapply anc_parent.
      * intros Ha. apply Hanc. eapply anc_up; [done..|].
        eapply ancestor_ext; [|exact Ha]. intros y. apply alter_status_parent.
  - injection Hup as <-. split; [done|]. intros x Hne _.
    by rewrite list_lookup_alter_ne.
Qed.

Lemma add_subtask_worker_spec parent nm du F :
  wf F → (∀ p, parent = Some p → is_Some (store F !! p)) →
  ∃ F', add_subtask_worker parent (Some (nm, du)) F = Ok F' ∧
        propagate_up (S (length (store F))) (length (store F))
          (add_store parent nm du (store F)) = Ok (store F') ∧
        roots F' = roots F ++ match parent with
                              | None => [length (store F)]
                              | Some _ => []
                              end ∧
        wf F'.
Proof.
  intros Hwf Hparent.
  destruct (add_subtask_worker_wf parent (Some (nm, du)) F Hwf Hparent)
    as (F' & HF' & Hwf' & _).
  exists F'. split; [done|].
  assert (add_subtask_worker parent (Some (nm, du)) F
        = (h' ← propagate_up (S (length (store F))) (length (store F))
                  (add_store parent nm du (store F));
           Ok (mkForest h' (roots F ++ match parent with
                                       | None => [length (store F)]
                                       | Some _ => []
                                       end)))) as Heq.
  { unfold add_subtask_worker, add_store. destruct parent as [p|].
    - destruct (Hparent p eq_refl) as [tp Hp].
      rewrite (proj2 (deref_Ok _ _ _) Hp), Hp. cbn [mbind result_bind].
      rewrite length_alter, length_app, app_nil_r. simpl length.
      by replace (length (store F) + 1) with (S (length (store F))) by lia.
    - rewrite length_app. simpl length.
      by replace (length (store F) + 1) with (S (length (store F))) by lia. }
  rewrite Heq in HF'. by apply bind_Ok in HF' as (h' & Hprop & [= <-]).
Qed.

Lemma filter_eq_seq (p i k : nat) :
  length (filter (λ x, Some p = Some x) (seq i k))
  = if decide (i ≤ p < i + k) then 1 else 0.
Proof.
  revert i. induction k as [|k IH]; intros i; simpl.
  { rewrite decide_False by lia. done. }
  destruct (decide (Some p = Some i)) as [[= ->]|Hne].
  - rewrite filter_cons_True by done. simpl. rewrite IH.
    rewrite decide_False by lia. rewrite decide_True by lia. done.
  - rewrite filter_cons_False by done. rewrite IH.
    assert (p ≠ i) by congruence.
    destruct (decide (S i ≤ p < S i + k)), (decide (i ≤ p < i + S k)); done || lia.
Qed.

(** The list view after a task was added: the old rows in their order, and
    the new task at one place behind its parent, or at the end when it is a
    new root. *)
Lemma flatten_add par nm du F F' ts :
  wf F → (∀ p, par = Some p → is_Some (store F !! p)) →
  flatten_tasks F = Ok ts → ts ≡ₚ seq 0 (length (store F)) →
  add_subtask_worker par (Some (nm, du)) F = Ok F' →
  ∃ l1 l2, ts = l1 ++ l2 ∧
           flatten_tasks F' = Ok (l1 ++ length (store F) :: l2) ∧
           (∀ p, par = Some p → p ∈ l1) ∧ (par = None → l2 = []).
Proof.
  intros Hwf Hparent Hts Hperm HF'.
  destruct (add_subtask_worker_spec par nm du F Hwf Hparent)
    as (F'' & HF'' & Hprop & Hroots & _).
  rewrite HF' in HF''. injection HF'' as <-.
  apply propagate_up_restatus in Hprop as ((Hlen & Hre) & _).
  rewrite add_store_length in Hlen by done.
  assert (∀ x t, store F !! x = Some t →
            ∃ t', store F' !! x = Some t' ∧
                  children t' = children t
                    ++ (if decide (par = Some x) then [length (store F)] else []))
    as Hold.
  { intros x t Hx.
    destruct (Hre x _ (add_store_old par nm du _ x t Hparent Hx))
      as (t' & Hx' & (_ & _ & Hc & _) & _).
    exists t'. split; [done|]. rewrite <- Hc.
    destruct (decide (par = Some x)); [done|]. by rewrite app_nil_r. }
  assert (∃ tn, store F' !! length (store F) = Some tn ∧ children tn = []) as Hnew.
  { destruct (Hre _ _ (add_store_new par nm du _ Hparent))
      as (t' & Hx' & (_ & _ & Hc & _) & _).
    by exists t'. }
  assert (length (filter (λ x, par = Some x) ts)
          = match par with Some _ => 1 | None => 0 end) as Hcnt.
  { rewrite Hperm. destruct par as [p|].
    - rewrite filter_eq_seq. destruct (Hparent p eq_refl) as [tp Hp].
      apply lookup_lt_Some in Hp. rewrite decide_True by lia. done.
    - clear. induction (seq 0 (length (store F))) as [|x l IH]; [done|].
      by rewrite filter_cons_False. }
  destruct (for_each_added _ _ par _ Hold Hnew _ _ _ Hts) as (l' & Hl' & Hins).
  { rewrite Hcnt. destruct par; lia. }
  unfold flatten_tasks. rewrite Hroots, Hlen, for_each_app, Hl'.
  cbn [mbind result_bind].
  destruct par as [p|]; cbn [for_each].
  - destruct Hins as [(Hz & _)|(l1 & l2 & -> & -> & Hl1)]; [lia|].
    exists l1, l2. split; [done|]. split; [done|]. split; [|done].
    intros ? [= <-].
    destruct (filter (λ x, Some p = Some x) l1) as [|y ?] eqn:Hf; [done|].
    assert (y ∈ filter (λ x, Some p = Some x) l1) as Hy by (rewrite Hf; by left).
    apply list_elem_of_filter in Hy as ([= <-] & ?). done.
  - rewrite (flatten_walk_new _ _ Hnew). cbn [mbind result_bind].
    destruct Hins as [(_ & ->)|(l1 & l2 & _ & _ & Hl1)].
    + exists ts, []. rewrite app_nil_r. done.
    + exfalso. clear -Hl1. induction l1 as [|x l IH]; [done|].
      by rewrite filter_cons_False in Hl1.
Qed.

Lemma toggle_status_skel sel F F' :
  wf F → (∀ task, sel = Some task → is_Some (store F !! task)) →
  toggle_status sel F = Ok F' →
  roots F' = roots F ∧ skel_eq (store F) (store F').
Proof.
  intros Hwf Hsel HF'. destruct sel as [task|].
  2:{ injection HF' as <-. split; [done|]. apply restatus_skel_eq, restatus_refl. }
  destruct (Hsel task eq_refl) as [t Ht].
  destruct (is_leaf t) eqn:Hleaf.
  - destruct (toggle_leaf F task t Hwf Ht Hleaf) as (F'' & HF'' & Hr & Hre & _).
    rewrite HF' in HF''. injection HF'' as <-. split; [done|].
    destruct (restatus_skel_eq _ _ Hre) as (Hlen & Hsk).
    destruct (skel_eq_set_status (store F) (cycled (status t)) task) as (Hlen0 & Hsk0).
    split; [lia|]. intros x tx Hx.
    destruct (Hsk0 x tx Hx) as (t0 & Hx0 & ?).
    destruct (Hsk x t0 Hx0) as (t' & ? & ?).
    exists t'. split; [done|]. by eapply skel_trans.
  - rewrite (toggle_interior F task t Ht Hleaf) in HF'. injection HF' as <-.
    split; [done|]. apply restatus_skel_eq, restatus_refl.
Qed.

(** In every state of a session the list view holds every task of the
    store, once. *)
Lemma reachable_flatten f F :
  reachable f F →
  ∃ ts, flatten_tasks F = Ok ts ∧ ts ≡ₚ seq 0 (length (store F)).
Proof.
  induction 1 as [F Hparse|F idx F' Hreach IH Hact|F idx dialog F' Hreach IH Hact].
  - apply parse_laid in Hparse as (Hlaid & _).
    exists (seq 0 (length (store F))). split; [|done].
    unfold flatten_tasks.
    rewrite (flatten_laid _ _ _ _ _ _ Hlaid _ []) by lia.
    by rewrite Nat.sub_0_r.
  - pose proof (reachable_wf _ _ Hreach) as Hwf.
    unfold action_toggle_status in Hact.
    destruct (get_selected_task_total idx F (proj1 Hwf)) as (sel & Hsel & Hvalid).
    rewrite Hsel in Hact. simpl in Hact.
    destruct (toggle_status_skel sel F F' Hwf Hvalid Hact) as (Hr & Hsk).
    destruct IH as (ts & Hts & Hperm). exists ts.
    rewrite (flatten_tasks_skel F F' Hr Hsk). split; [done|].
    by rewrite (proj1 Hsk).
  - pose proof (reachable_wf _ _ Hreach) as Hwf.
    unfold action_add_subtask in Hact.
    destruct (get_selected_task_total idx F (proj1 Hwf)) as (sel & Hsel & Hvalid).
    rewrite Hsel in Hact. simpl in Hact.
    destruct IH as (ts & Hts & Hperm).
    destruct dialog as [[nm du]|].
    + destruct (flatten_add sel nm du F F' ts Hwf Hvalid Hts Hperm Hact)
        as (l1 & l2 & -> & Hts' & _).
      eexists. split; [done|].
      destruct (add_subtask_worker_spec sel nm du F Hwf Hvalid)
        as (F'' & HF'' & Hprop & _).
      rewrite Hact in HF''. injection HF'' as <-.
      apply propagate_up_restatus in Hprop as ((Hlen & _) & _).
      rewrite add_store_length in Hlen by done.
      rewrite Hlen, seq_S, <- Hperm. cbn [Nat.add]. solve_Permutation.
    + injection Hact as <-. by exists ts.
Qed.

(** X4. In every state of a session [flatten_tasks] returns, and the list
    it returns holds every task of the store exactly once: it is as long
    as the store, holds no task twice, and holds a reference exactly when
    the reference points into the store. *)
Theorem flatten_every_task_once f F :
  reachable f F →
  ∃ ts, flatten_tasks F = Ok ts ∧
        length ts = length (store F) ∧
        NoDup ts ∧
        ∀ task, task ∈ ts ↔ task < length (store F).
Proof.
  intros (ts & Hts & Hperm)%reachable_flatten. exists ts.
  split; [done|]. split; [by rewrite Hperm, length_seq|].
  split; [rewrite Hperm; apply NoDup_seq|].
  intros task. rewrite Hperm, elem_of_seq. lia.
Qed.

Lemma flatten_every_task_once_witness :
  reachable scenario_C_file scenario_F ∧
  ∃ ts, flatten_tasks scenario_F = Ok ts ∧
        length ts = length (store scenario_F) ∧
        NoDup ts ∧
        ∀ task, task ∈ ts ↔ task < length (store scenario_F).
Proof.
  split; [exact scenario_F_reachable|].
  exact (flatten_every_task_once _ _ scenario_F_reachable).
Defined.

(** X5. [get_selected_task] returns a task of the store for every index
    from 0 up to the number of tasks, and [None] for every other index;
    every task is selected by some index, and no two indices select the
    same task. *)
Theorem selection_bounds f F :
  reachable f F →
  (∀ i, (0 ≤ i < Z.of_nat (length (store F)))%Z →
        ∃ task, get_selected_task (Some i) F = Ok (Some task) ∧
                task < length (store F)) ∧
  (∀ i, ¬ (0 ≤ i < Z.of_nat (length (store F)))%Z →
        get_selected_task (Some i) F = Ok None) ∧
  (∀ task, task < length (store F) →
           ∃ i, get_selected_task (Some i) F = Ok (Some task)) ∧
  (∀ i j task, get_selected_task (Some i) F = Ok (Some task) →
               get_selected_task (Some j) F = Ok (Some task) → i = j).
Proof.
  intros (ts & Hts & Hperm)%reachable_flatten.
  assert (length ts = length (store F)) as Hlen by (by rewrite Hperm, length_seq).
  assert (NoDup ts) as Hnd by (rewrite Hperm; apply NoDup_seq).
  assert (∀ task, task ∈ ts ↔ task < length (store F)) as Hin.
  { intros task. rewrite Hperm, elem_of_seq. lia. }
  assert (∀ i task, get_selected_task (Some i) F = Ok (Some task) ↔
            (0 ≤ i)%Z ∧ ts !! Z.to_nat i = Some task) as Hsel.
  { intros i task. unfold get_selected_task. rewrite Hts. cbn [mbind result_bind].
    case_bool_decide as Hi.
    - split; [intros [= ?]; split; [lia|done]|intros (_ & ->); done].
    - split; [done|]. intros (? & Hl%lookup_lt_Some). lia. }
  split; [|split; [|split]].
  - intros i Hi. destruct (lookup_lt_is_Some_2 ts (Z.to_nat i)) as [task Htask]; [lia|].
    exists task. split; [apply Hsel; split; [lia|done]|].
    apply Hin. by eapply list_elem_of_lookup_2.
  - intros i Hi. unfold get_selected_task. rewrite Hts. cbn [mbind result_bind].
    rewrite Hlen. by rewrite bool_decide_false.
  - intros task [k Hk]%Hin%list_elem_of_lookup_1. exists (Z.of_nat k).
    apply Hsel. split; [lia|]. by rewrite Nat2Z.id.
  - intros i j task (? & Hi)%Hsel (? & Hj)%Hsel.
    pose proof (NoDup_lookup _ _ _ _ Hnd Hi Hj). lia.
Qed.

Lemma selection_bounds_witness :
  reachable scenario_C_file scenario_F ∧
  get_selected_task (Some 2%Z) scenario_F = Ok (Some 3) ∧
  get_selected_task (Some 4%Z) scenario_F = Ok None ∧
  get_selected_task (Some (-1)%Z) scenario_F = Ok None.
Proof.
  split; [exact scenario_F_reachable|].
  destruct (selection_bounds _ _ scenario_F_reachable) as (_ & Hout & _).
  split; [reflexivity|]. split; apply Hout; vm_compute; intros [? ?]; done.
Defined.

(** *** Toggling changes statuses only *)

Lemma ancestor_lt h rs a x : linked h rs → ancestor h a x → a < x.
Proof.
  intros Hl. induction 1 as [x t p Hx Hp|x t p a Hx Hp _ IH].
  - by destruct (linked_parent_lt _ _ _ _ _ Hl Hx Hp).
  - destruct (linked_parent_lt _ _ _ _ _ Hl Hx Hp). lia.
Qed.

Lemma toggle_leaf_frame F task t :
  wf F → store F !! task = Some t → is_leaf t = true →
  ∃ F', toggle_status (Some task) F = Ok F' ∧
        roots F' = roots F ∧ wf F' ∧
        length (store F') = length (store F) ∧
        ∀ x tx, store F !! x = Some tx →
          ∃ tx', store F' !! x = Some tx' ∧ same_but_status tx tx' ∧
                 (x ≠ task → is_leaf tx = true → tx' = tx) ∧
                 (x ≠ task → ¬ ancestor (store F) x task → tx' = tx) ∧
                 (x = task → tx' = set_status (cycled (status tx)) tx).
Proof.
  intros Hwf Ht Hleaf.
  destruct (toggle_leaf F task t Hwf Ht Hleaf) as (F' & HF' & Hr & Hre & Htask & Hwf').
  exists F'. split; [done|]. split; [done|]. split; [done|].
  pose proof Hre as (Hlen & Hpt). rewrite length_alter in Hlen. split; [done|].
  assert (propagate_up (length (store F)) task
            (alter (set_status (cycled (status t))) task (store F))
          = Ok (store F')) as Hprop.
  { unfold toggle_status in HF'. rewrite (proj2 (deref_Ok _ _ _) Ht) in HF'.
    cbn [mbind result_bind] in HF'. rewrite Hleaf, cycle_lookup in HF'.
    cbn [negb] in HF'. rewrite length_alter in HF'.
    by apply bind_Ok in HF' as (h' & ? & [= <-]). }
  apply propagate_up_restatus in Hprop as (_ & Hframe).
  intros x tx Hx. destruct (decide (x = task)) as [->|Hne].
  - rewrite Ht in Hx. injection Hx as <-. eexists. split; [done|].
    split; [apply same_but_status_set|]. done.
  - destruct (Hpt x tx) as (tx' & Hx' & Hsame & Hl);
      [by rewrite list_lookup_alter_ne|].
    exists tx'. split; [done|]. split; [done|]. split; [by intros _|].
    split; [|done]. intros _ Hanc. rewrite Hframe in Hx'; [| done |].
    + rewrite list_lookup_alter_ne in Hx' by done. congruence.
    + intros Ha. apply Hanc. eapply ancestor_ext; [|exact Ha].
      intros y. apply alter_status_parent.
Qed.

Lemma selected_leaf f F idx task :
  reachable f F → get_selected_task idx F = Ok (Some task) →
  wf F ∧ action_toggle_status idx F = toggle_status (Some task) F ∧
  ∀ F', roots F' = roots F → skel_eq (store F) (store F') →
        get_selected_task idx F' = Ok (Some task).
Proof.
  intros Hreach Hsel. split; [by eapply reachable_wf|]. split.
  { unfold action_toggle_status. by rewrite Hsel. }
  intros F' Hr Hsk. unfold get_selected_task in *. destruct idx as [i|]; [|done].
  by rewrite (flatten_tasks_skel F F' Hr Hsk).
Qed.

(** X6. Toggling the selected leaf keeps the roots, the size of the store
    and the rows of the list view; every task keeps its name, due text,
    children, parent and depth, and a task that is neither the toggled one
    nor one of its ancestors is not changed at all. *)
Theorem toggle_changes_statuses_only f F idx task t F' :
  reachable f F →
  get_selected_task idx F = Ok (Some task) →
  store F !! task = Some t →
  is_leaf t = true →
  action_toggle_status idx F = Ok F' →
  roots F' = roots F ∧
  length (store F') = length (store F) ∧
  flatten_tasks F' = flatten_tasks F ∧
  ∀ x tx, store F !! x = Some tx →
    ∃ tx', store F' !! x = Some tx' ∧ same_but_status tx tx' ∧
           (x ≠ task → ¬ ancestor (store F) x task → tx' = tx).
Proof.
  intros Hreach Hsel Ht Hleaf HF'.
  destruct (selected_leaf _ _ _ _ Hreach Hsel) as (Hwf & Heq & _).
  destruct (toggle_leaf_frame F task t Hwf Ht Hleaf)
    as (F'' & HF'' & Hr & _ & Hlen & Hpt).
  rewrite Heq, HF'' in HF'. injection HF' as ->.
  split; [done|]. split; [done|]. split.
  { apply flatten_tasks_skel; [done|]. split; [done|].
    intros x tx Hx. destruct (Hpt x tx Hx) as (tx' & ? & (_ & _ & ?) & _).
    by exists tx'. }
  intros x tx Hx. destruct (Hpt x tx Hx) as (tx' & ? & ? & _ & ? & _).
  by exists tx'.
Qed.

(** X7. Toggling a leaf whose status is one of the three statuses three
    times in a row gives back the forest as it was, the statuses of the
    ancestors included. *)
Theorem toggle_three_times f F idx task t :
  reachable f F →
  get_selected_task idx F = Ok (Some task) →
  store F !! task = Some t →
  is_leaf t = true →
  status t ∈ STATUS_CYCLE →
  ∃ F1 F2,
    action_toggle_status idx F = Ok F1 ∧
    action_toggle_status idx F1 = Ok F2 ∧
    action_toggle_status idx F2 = Ok F.
Proof.
  intros Hreach Hsel Ht Hleaf Hs.
  destruct (selected_leaf _ _ _ _ Hreach Hsel) as (Hwf & Heq & Hkeep).
  destruct (toggle_leaf_frame F task t Hwf Ht Hleaf)
    as (F1 & HF1 & Hr1 & Hwf1 & Hlen1 & Hpt1).
  assert (action_toggle_status idx F = Ok F1) as Hact1 by congruence.
  pose proof (reach_toggle _ _ _ _ Hreach Hact1) as Hreach1.
  assert (skel_eq (store F) (store F1)) as Hsk1.
  { split; [done|]. intros x tx Hx.
    destruct (Hpt1 x tx Hx) as (tx' & ? & (_ & _ & ?) & _). by exists tx'. }
  pose proof (Hkeep F1 Hr1 Hsk1) as Hsel1.
  destruct (Hpt1 task t Ht) as (t1 & Ht1 & _ & _ & _ & Hst1).
  specialize (Hst1 eq_refl). subst t1.
  destruct (selected_leaf _ _ _ _ Hreach1 Hsel1) as (_ & Heq1 & Hkeep1).
  destruct (toggle_leaf_frame F1 task _ Hwf1 Ht1 Hleaf)
    as (F2 & HF2 & Hr2 & Hwf2 & Hlen2 & Hpt2).
  assert (action_toggle_status idx F1 = Ok F2) as Hact2 by congruence.
  pose proof (reach_toggle _ _ _ _ Hreach1 Hact2) as Hreach2.
  assert (skel_eq (store F1) (store F2)) as Hsk2.
  { split; [done|]. intros x tx Hx.
    destruct (Hpt2 x tx Hx) as (tx' & ? & (_ & _ & ?) & _). by exists tx'. }
  pose proof (Hkeep1 F2 Hr2 Hsk2) as Hsel2.
  destruct (Hpt2 task _ Ht1) as (t2 & Ht2 & _ & _ & _ & Hst2).
  specialize (Hst2 eq_refl). subst t2.
  destruct (selected_leaf _ _ _ _ Hreach2 Hsel2) as (_ & Heq2 & _).
  destruct (toggle_leaf_frame F2 task _ Hwf2 Ht2 Hleaf)
    as (F3 & HF3 & Hr3 & Hwf3 & Hlen3 & Hpt3).
  exists F1, F2. split; [done|]. split; [done|]. rewrite Heq2, HF3. f_equal.
  assert (store F3 = store F) as Hstore.
  { apply (rollup_unique _ _ (roots F)); [apply Hwf| |apply Hwf|apply Hwf3].
    split; [lia|]. intros x tx Hx.
    destruct (Hpt1 x tx Hx) as (tx1 & Hx1 & Hs1 & Hl1 & _ & Hc1).
    destruct (Hpt2 x tx1 Hx1) as (tx2 & Hx2 & Hs2 & Hl2 & _ & Hc2).
    destruct (Hpt3 x tx2 Hx2) as (tx3 & Hx3 & Hs3 & Hl3 & _ & Hc3).
    exists tx3. split; [done|]. split.
    { eapply same_but_status_trans; [|exact Hs3].
      by eapply same_but_status_trans. }
    intros Hlf. destruct (decide (x = task)) as [->|Hne].
    - rewrite Hc3, Hc2, Hc1 by done. rewrite Ht in Hx. injection Hx as <-.
      destruct t as [nm s du cs pr d]. unfold set_status. simpl in *. f_equal.
      unfold STATUS_CYCLE in Hs. unfold cycled.
      apply elem_of_cons in Hs as [->|Hs]; [done|].
      apply elem_of_cons in Hs as [->|Hs]; [done|].
      apply elem_of_cons in Hs as [->|Hs]; [done|].
      by apply elem_of_nil in Hs.
    - rewrite (Hl1 Hne Hlf) in *. rewrite (Hl2 Hne Hlf) in *. by apply Hl3. }
  destruct F3, F. simpl in *. congruence.
Qed.

Lemma toggle_three_times_witness :
  reachable scenario_C_file scenario_C ∧
  get_selected_task (Some 2%Z) scenario_C = Ok (Some 2) ∧
  ∃ F1 F2,
    action_toggle_status (Some 2%Z) scenario_C = Ok F1 ∧
    action_toggle_status (Some 2%Z) F1 = Ok F2 ∧
    action_toggle_status (Some 2%Z) F2 = Ok scenario_C.
Proof.
  split; [exact scenario_C_reachable|]. split; [reflexivity|].
  apply (toggle_three_times scenario_C_file scenario_C (Some 2%Z) 2
           (mkTask (lit "C") OPEN [] [] (Some 0) 1)).
  - exact scenario_C_reachable.
  - reflexivity.
  - reflexivity.
  - reflexivity.
  - simpl. by left.
Defined.

Lemma toggle_changes_statuses_only_witness :
  reachable scenario_C_file scenario_C ∧
  action_toggle_status (Some 2%Z) scenario_C = Ok scenario_D1 ∧
  flatten_tasks scenario_D1 = flatten_tasks scenario_C ∧
  store scenario_D1 !! 1 = store scenario_C !! 1.
Proof.
  split; [exact scenario_C_reachable|]. split; [reflexivity|].
  destruct (toggle_changes_statuses_only scenario_C_file scenario_C (Some 2%Z) 2
              (mkTask (lit "C") OPEN [] [] (Some 0) 1) scenario_D1
              scenario_C_reachable eq_refl eq_refl eq_refl eq_refl)
    as (_ & _ & Hflat & _).
  split; [exact Hflat|reflexivity].
Defined.

(** *** Adding a task *)

Lemma ancestor_add_store par nm du h rs a x :
  linked h rs → (∀ p, par = Some p → is_Some (h !! p)) →
  ancestor (add_store par nm du h) a x → x < length h → ancestor h a x.
Proof.
  intros Hl Hparent. induction 1 as [x t p Hx Hp|x t p a Hx Hp _ IH]; intros Hlt.
  - destruct (lookup_lt_is_Some_2 h x Hlt) as [t0 Hx0].
    rewrite (add_store_old par nm du h x t0 Hparent Hx0) in Hx.
    injection Hx as <-. apply (anc_parent _ x t0 p); [done|].
    by destruct (decide (par = Some x)).
  - destruct (lookup_lt_is_Some_2 h x Hlt) as [t0 Hx0].
    rewrite (add_store_old par nm du h x t0 Hparent Hx0) in Hx.
    injection Hx as <-.
    assert (parent t0 = Some p) as Hp0 by (by destruct (decide (par = Some x))).
    apply (anc_up _ x t0 p a); [done|done|]. apply IH.
    destruct (linked_parent_lt _ _ _ _ _ Hl Hx0 Hp0). lia.
Qed.

Lemma add_subtask_frame par nm du F :
  wf F → (∀ p, par = Some p → is_Some (store F !! p)) →
  ∃ F', add_subtask_worker par (Some (nm, du)) F = Ok F' ∧
        roots F' = roots F ++ match par with
                              | None => [length (store F)]
                              | Some _ => []
                              end ∧
        wf F' ∧
        length (store F') = S (length (store F)) ∧
        store F' !! length (store F)
        = Some (mkTask nm OPEN du [] par (add_depth par (store F))) ∧
        ∀ x tx, store F !! x = Some tx →
          ∃ tx', store F' !! x = Some tx' ∧
                 name tx' = name tx ∧ due tx' = due tx ∧
                 parent tx' = parent tx ∧ depth tx' = depth tx ∧
                 children tx' = children tx
                   ++ (if decide (par = Some x) then [length (store F)] else []) ∧
                 ((∀ p, par = Some p → x ≠ p ∧ ¬ ancestor (store F) x p) →
                  tx' = tx).
Proof.
  intros Hwf Hparent.
  destruct (add_subtask_worker_spec par nm du F Hwf Hparent)
    as (F' & HF' & Hprop & Hroots & Hwf').
  exists F'. split; [done|]. split; [done|]. split; [done|].
  apply propagate_up_restatus in Hprop as ((Hlen & Hre) & Hframe).
  rewrite add_store_length in Hlen by done. split; [done|]. split.
  { destruct (Hre _ _ (add_store_new par nm du _ Hparent)) as (t' & Hx' & _ & Hl).
    by rewrite Hx', Hl. }
  intros x tx Hx. apply lookup_lt_Some in Hx as Hlt.
  pose proof (add_store_old par nm du _ x tx Hparent Hx) as Hx0.
  destruct (Hre _ _ Hx0) as (tx' & Hx' & (Hn & Hd & Hc & Hp & Hdp) & _).
  exists tx'. split; [done|].
  repeat split.
  - rewrite <- Hn. by destruct (decide (par = Some x)).
  - rewrite <- Hd. by destruct (decide (par = Some x)).
  - rewrite <- Hp. by destruct (decide (par = Some x)).
  - rewrite <- Hdp. by destruct (decide (par = Some x)).
  - rewrite <- Hc. destruct (decide (par = Some x)); [done|].
    by rewrite app_nil_r.
  - intros Hfar. rewrite Hframe in Hx'; [| lia |].
    + rewrite Hx0 in Hx'. injection Hx' as <-.
      rewrite decide_False; [done|]. intros ->. by destruct (Hfar x eq_refl).
    + intros Ha. invert Ha.
      * rewrite add_store_new in H by done. injection H as <-. simpl in *.
        subst par. by destruct (Hfar x eq_refl).
      * rewrite add_store_new in H by done. injection H as <-. simpl in *.
        subst par. destruct (Hfar p eq_refl) as (_ & Hnot). apply Hnot.
        destruct (Hparent p eq_refl) as [tp Hp'%lookup_lt_Some].
        eapply ancestor_add_store; [apply Hwf| |done|done]. done.
Qed.

(** X8. Adding a task with the name and due text of the dialog puts one
    task at the end of the store: it is [OPEN] and has no children, its
    parent is the selected task and its depth one more than the parent's,
    or it is a new last root of depth 0 when no task is selected.  The
    old tasks keep name, due text, parent and depth; the selected task
    gets the new one as its last child, all others keep their children;
    a task that is neither the selected one nor one of its ancestors is
    not changed at all. *)
Theorem add_subtask_structure f F idx par nm du :
  reachable f F →
  get_selected_task idx F = Ok par →
  ∃ F', action_add_subtask idx (Some (nm, du)) F = Ok F' ∧
        roots F' = roots F ++ match par with
                              | None => [length (store F)]
                              | Some _ => []
                              end ∧
        length (store F') = S (length (store F)) ∧
        store F' !! length (store F)
        = Some (mkTask nm OPEN du [] par (add_depth par (store F))) ∧
        ∀ x tx, store F !! x = Some tx →
          ∃ tx', store F' !! x = Some tx' ∧
                 name tx' = name tx ∧ due tx' = due tx ∧
                 parent tx' = parent tx ∧ depth tx' = depth tx ∧
                 children tx' = children tx
                   ++ (if decide (par = Some x) then [length (store F)] else []) ∧
                 ((∀ p, par = Some p → x ≠ p ∧ ¬ ancestor (store F) x p) →
                  tx' = tx).
Proof.
  intros Hreach Hsel. pose proof (reachable_wf _ _ Hreach) as Hwf.
  destruct (get_selected_task_total idx F (proj1 Hwf)) as (sel & Hsel' & Hvalid).
  rewrite Hsel in Hsel'. injection Hsel' as <-.
  destruct (add_subtask_frame par nm du F Hwf Hvalid)
    as (F' & HF' & Hr & _ & Hlen & Hnew & Hold).
  exists F'. split; [|done]. unfold action_add_subtask. by rewrite Hsel.
Qed.

Lemma add_subtask_structure_witness :
  reachable scenario_C_file scenario_D ∧
  get_selected_task (Some 1%Z) scenario_D = Ok (Some 1) ∧
  action_add_subtask (Some 1%Z) (Some (lit "B1", lit "")) scenario_D
    = Ok scenario_F ∧
  store scenario_F !! 3 = Some (mkTask (lit "B1") OPEN (lit "") [] (Some 1) 2).
Proof.
  split; [exact scenario_D_reachable|]. split; [reflexivity|].
  destruct (add_subtask_structure scenario_C_file scenario_D (Some 1%Z) (Some 1)
              (lit "B1") (lit "") scenario_D_reachable eq_refl)
    as (F' & HF' & _ & _ & Hnew & _).
  split; [reflexivity|]. vm_compute in HF'. injection HF' as <-. exact Hnew.
Defined.

Lemma statuses_app h cs1 cs2 :
  statuses h (cs1 ++ cs2)
  = ss1 ← statuses h cs1; ss2 ← statuses h cs2; Ok (ss1 ++ ss2).
Proof.
  induction cs1 as [|c cs1 IH]; simpl.
  { by destruct (statuses h cs2). }
  destruct (deref h c); simpl; [|done|done]. rewrite IH.
  destruct (statuses h cs1); simpl; [|done|done].
  by destruct (statuses h cs2).
Qed.

Lemma all_eq_app s ss1 ss2 : all_eq s (ss1 ++ ss2) = all_eq s ss1 && all_eq s ss2.
Proof. unfold all_eq. apply forallb_app. Qed.

(** X9. After a task was added under the selected task, the selected task
    is [OPEN] if all the children it had before were [OPEN], so also when
    it had none, whatever its own status was; otherwise it is
    [IN_PROGRESS]. *)
Theorem add_subtask_parent_status f F idx p tp nm du :
  reachable f F →
  get_selected_task idx F = Ok (Some p) →
  store F !! p = Some tp →
  ∃ F' tp',
    action_add_subtask idx (Some (nm, du)) F = Ok F' ∧
    store F' !! p = Some tp' ∧
    (all_children (store F) tp OPEN → status tp' = OPEN) ∧
    (¬ all_children (store F) tp OPEN → status tp' = IN_PROGRESS).
Proof.
  intros Hreach Hsel Hp. pose proof (reachable_wf _ _ Hreach) as Hwf.
  assert (∀ q, Some p = Some q → is_Some (store F !! q)) as Hvalid.
  { intros q [= <-]. by rewrite Hp. }
  destruct (add_subtask_frame (Some p) nm du F Hwf Hvalid)
    as (F' & HF' & Hr & Hwf' & Hlen & Hnew & Hold).
  destruct (Hold p tp Hp) as (tp' & Hp' & _ & _ & _ & _ & Hc & _).
  rewrite decide_True in Hc by done.
  exists F', tp'. split; [unfold action_add_subtask; by rewrite Hsel|].
  split; [done|].
  destruct (linked_statuses _ _ _ _ (proj1 Hwf) Hp) as (ss & Hss).
  destruct (proj2 Hwf' p tp' Hp') as (ss' & Hss' & Hst).
  { unfold is_leaf. rewrite Hc. by destruct (children tp). }
  assert (statuses (store F') (children tp) = Ok ss) as Hss0.
  { rewrite <- Hss. apply statuses_ext. intros c Hc0.
    destruct (linked_child _ _ _ _ _ (proj1 Hwf) Hp Hc0) as (Hlt & tc & Htc & _).
    destruct (Hold c tc Htc) as (tc' & Htc' & _ & _ & _ & _ & _ & Hsame).
    rewrite Htc', Htc, Hsame; [done|]. intros q [= <-]. split; [lia|].
    intros Ha%(ancestor_lt _ (roots F)); [lia|apply Hwf]. }
  rewrite Hc, statuses_app, Hss0 in Hss'. cbn [mbind result_bind] in Hss'.
  simpl in Hss'. unfold deref in Hss'. rewrite Hnew in Hss'. simpl in Hss'.
  injection Hss' as <-. rewrite Hst. unfold rolled.
  rewrite !all_eq_app. simpl. rewrite andb_false_r.
  rewrite andb_true_r.
  pose proof (statuses_all_eq _ _ _ OPEN Hss) as Hiff.
  unfold all_children. split.
  - intros Hall%Hiff. by rewrite Hall.
  - intros Hnot. destruct (all_eq OPEN ss) eqn:Hall; [|done].
    exfalso. apply Hnot. by apply Hiff.
Qed.

Lemma add_subtask_parent_status_witness :
  reachable scenario_C_file scenario_D ∧
  get_selected_task (Some 1%Z) scenario_D = Ok (Some 1) ∧
  store scenario_D !! 1 = Some (mkTask (lit "B") DONE [] [] (Some 0) 1) ∧
  ∃ F' tp',
    action_add_subtask (Some 1%Z) (Some (lit "B1", lit "")) scenario_D = Ok F' ∧
    store F' !! 1 = Some tp' ∧ status tp' = OPEN.
Proof.
  split; [exact scenario_D_reachable|]. split; [reflexivity|]. split; [reflexivity|].
  destruct (add_subtask_parent_status scenario_C_file scenario_D (Some 1%Z) 1
              (mkTask (lit "B") DONE [] [] (Some 0) 1) (lit "B1") (lit "")
              scenario_D_reachable eq_refl eq_refl)
    as (F' & tp' & HF' & Hp' & Hopen & _).
  exists F', tp'. split; [done|]. split; [done|]. apply Hopen. constructor.
Defined.

(** X10. Adding a task keeps the rows of the list view in their order and
    puts the new task at one place behind its parent, at the end when it
    is a new root; the index that selected the parent before the task was
    added selects the parent afterwards. *)
Theorem add_subtask_keeps_rows f F idx par nm du F' ts :
  reachable f F →
  get_selected_task idx F = Ok par →
  flatten_tasks F = Ok ts →
  action_add_subtask idx (Some (nm, du)) F = Ok F' →
  ∃ l1 l2,
    ts = l1 ++ l2 ∧
    flatten_tasks F' = Ok (l1 ++ length (store F) :: l2) ∧
    (par = None → l2 = []) ∧
    (∀ p, par = Some p → p ∈ l1 ∧ get_selected_task idx F' = Ok (Some p)).
Proof.
  intros Hreach Hsel Hts Hact. pose proof (reachable_wf _ _ Hreach) as Hwf.
  destruct (reachable_flatten _ _ Hreach) as (ts0 & Hts0 & Hperm).
  rewrite Hts in Hts0. injection Hts0 as <-.
  destruct (get_selected_task_total idx F (proj1 Hwf)) as (sel & Hsel' & Hvalid).
  rewrite Hsel in Hsel'. injection Hsel' as <-.
  unfold action_add_subtask in Hact. rewrite Hsel in Hact.
  cbn [mbind result_bind] in Hact.
  destruct (flatten_add par nm du F F' ts Hwf Hvalid Hts Hperm Hact)
    as (l1 & l2 & -> & Hts' & Hin & Hroot).
  exists l1, l2. split; [done|]. split; [done|]. split; [done|].
  intros p ->. split; [by apply Hin|].
  unfold get_selected_task in *. destruct idx as [i|]; [|done].
  rewrite Hts in Hsel. rewrite Hts'. cbn [mbind result_bind] in *.
  case_bool_decide as Hi; [|done]. injection Hsel as Hrow.
  destruct (list_elem_of_lookup_1 _ _ (Hin p eq_refl)) as (k & Hk).
  assert (NoDup (l1 ++ l2)) as Hnd by (rewrite Hperm; apply NoDup_seq).
  assert (k = Z.to_nat i) as ->.
  { eapply NoDup_lookup; [exact Hnd| |exact Hrow]. by apply lookup_app_l_Some. }
  rewrite bool_decide_true.
  - f_equal. by apply lookup_app_l_Some.
  - rewrite length_app in *. simpl. lia.
Qed.

Lemma add_subtask_keeps_rows_witness :
  reachable scenario_C_file scenario_D ∧
  get_selected_task (Some 1%Z) scenario_D = Ok (Some 1) ∧
  flatten_tasks scenario_D = Ok [0; 1; 2] ∧
  action_add_subtask (Some 1%Z) (Some (lit "B1", lit "")) scenario_D
    = Ok scenario_F ∧
  flatten_tasks scenario_F = Ok [0; 1; 3; 2] ∧
  get_selected_task (Some 1%Z) scenario_F = Ok (Some 1).
Proof.
  split; [exact scenario_D_reachable|]. split; [reflexivity|].
  split; [reflexivity|]. split; [reflexivity|]. split; [reflexivity|].
  destruct (add_subtask_keeps_rows scenario_C_file scenario_D (Some 1%Z) (Some 1)
              (lit "B1") (lit "") scenario_F [0; 1; 2]
              scenario_D_reachable eq_refl eq_refl eq_refl)
    as (l1 & l2 & _ & _ & _ & Hsel).
  exact (proj2 (Hsel 1 eq_refl)).
Defined.

(** ** What the list view shows *)

Lemma cycle_elem s : s ∈ STATUS_CYCLE ↔ s = OPEN ∨ s = IN_PROGRESS ∨ s = DONE.
Proof.
  unfold STATUS_CYCLE. rewrite !elem_of_cons, elem_of_nil.
  split; [intros [?|[?|[?|[]]]]|intros [?|[?|?]]]; auto.
Qed.

Lemma status_symbol_cases s :
  (s = OPEN ∧ status_symbol s = [9675%N]) ∨
  (s = IN_PROGRESS ∧ status_symbol s = [9680%N]) ∨
  (s = DONE ∧ status_symbol s = [9679%N]) ∨
  ((s ∉ STATUS_CYCLE) ∧ status_symbol s = lit "?").
Proof.
  unfold status_symbol, dict_get.
  destruct (decide (OPEN = s)) as [<-|Ho]; [by left|].
  destruct (decide (IN_PROGRESS = s)) as [<-|Hi]; [right; by left|].
  destruct (decide (DONE = s)) as [<-|Hd]; [right; right; by left|].
  right; right; right. rewrite !bool_decide_false by done. split; [|done].
  rewrite cycle_elem. intros [?|[?|?]]; congruence.
Qed.

(** *** Where a status comes from *)

Lemma ancestor_children h rs a x :
  linked h rs → ancestor h a x → ∃ ta, h !! a = Some ta ∧ children ta ≠ [].
Proof.
  intros (_ & Hpar & _). induction 1 as [x t p Hx Hp|x t p a Hx Hp _ IH]; [|done].
  specialize (Hpar x t Hx). unfold parent_ok in Hpar. rewrite Hp in Hpar.
  destruct Hpar as (tp & Htp & Hin). exists tp. split; [done|].
  intros Hnil. rewrite Hnil in Hin. by apply elem_of_nil in Hin.
Qed.

(** The status of a task without children is one of the three, or it is
    the status that the parser read from a task line of the file. *)
Lemma reachable_leaf_status f F :
  reachable f F →
  ∀ i t, store F !! i = Some t → is_leaf t = true →
    status t ∈ STATUS_CYCLE ∨
    ∃ text line d nm du,
      f = Text text ∧ line ∈ readlines text ∧
      skipped (rstrip_nl line) = false ∧
      line_fields (rstrip_nl line) = Ok (d, nm, status t, du).
Proof.
  induction 1 as [F Hparse|F idx F' Hreach IH Hact|F idx dialog F' Hreach IH Hact];
    intros i t Hi Hleaf.
  - destruct f as [|e| |text].
    + injection Hparse as <-. done.
    + destruct e; try done. injection Hparse as <-. done.
    + done.
    + right. pose proof (parse_tasks_fields _ _ Hparse) as Hall.
      destruct (Forall2_lookup_r _ _ _ _ _ Hall Hi) as (line & Hline & s & Hf & Hs).
      apply list_elem_of_lookup_2, list_elem_of_filter in Hline as (Hskip & Hin).
      exists text, line, (depth t), (name t), (due t).
      rewrite (Hs Hleaf). done.
  - apply reachable_wf in Hreach as Hwf. unfold action_toggle_status in Hact.
    destruct (get_selected_task_total idx F (proj1 Hwf)) as (sel & Hsel & Hvalid).
    rewrite Hsel in Hact. cbn [mbind result_bind] in Hact.
    destruct sel as [task|]; [|injection Hact as <-; by apply (IH i)].
    destruct (Hvalid task eq_refl) as [t0 Ht0].
    destruct (is_leaf t0) eqn:Hleaf0.
    2:{ rewrite (toggle_interior _ _ _ Ht0 Hleaf0) in Hact.
        injection Hact as <-. by apply (IH i). }
    destruct (toggle_leaf_frame F task t0 Hwf Ht0 Hleaf0)
      as (F'' & HF'' & _ & _ & Hlen & Hpt).
    rewrite Hact in HF''. injection HF'' as <-.
    destruct (lookup_lt_is_Some_2 (store F) i) as [tx Hx].
    { apply lookup_lt_Some in Hi. lia. }
    destruct (Hpt i tx Hx) as (tx' & Hx' & (_ & _ & Hsk) & Hother & _ & Hself).
    rewrite Hi in Hx'. injection Hx' as <-.
    destruct (decide (i = task)) as [->|Hne].
    + left. rewrite (Hself eq_refl). apply cycled_enum.
    + assert (is_leaf tx = true) as Hlx by (by rewrite (is_leaf_skel _ _ Hsk)).
      rewrite (Hother Hne Hlx). by apply (IH i).
  - apply reachable_wf in Hreach as Hwf. unfold action_add_subtask in Hact.
    destruct (get_selected_task_total idx F (proj1 Hwf)) as (sel & Hsel & Hvalid).
    rewrite Hsel in Hact. cbn [mbind result_bind] in Hact.
    destruct dialog as [[nm du]|]; [|injection Hact as <-; by apply (IH i)].
    destruct (add_subtask_frame sel nm du F Hwf Hvalid)
      as (F'' & HF'' & _ & _ & Hlen & Hnew & Hpt).
    rewrite Hact in HF''. injection HF'' as <-.
    destruct (decide (i = length (store F))) as [->|Hne].
    { rewrite Hnew in Hi. injection Hi as <-. left. by left. }
    destruct (lookup_lt_is_Some_2 (store F) i) as [tx Hx].
    { apply lookup_lt_Some in Hi. lia. }
    destruct (Hpt i tx Hx) as (tx' & Hx' & _ & _ & _ & _ & Hkids & Hsame).
    rewrite Hi in Hx'. injection Hx' as <-.
    assert (children t = []) as Hnil.
    { unfold is_leaf in Hleaf. by destruct (children t). }
    rewrite Hnil in Hkids. symmetry in Hkids.
    apply app_eq_nil in Hkids as (Hkx & Hpar).
    rewrite Hsame.
    + apply (IH i); [done|]. unfold is_leaf. by rewrite Hkx.
    + intros p ->. split.
      * intros ->. by rewrite decide_True in Hpar.
      * intros Hanc.
        destruct (ancestor_children _ _ _ _ (proj1 Hwf) Hanc) as (ta & Hta & Hne').
        rewrite Hx in Hta. injection Hta as <-. done.
Qed.

(** X11. For a task of a session [status_symbol] gives the question mark
    exactly when the status is not one of the three.  A task shown with
    the question mark is a leaf, [status_style] gives it the colour of an
    [OPEN] task, and its status is the text of the status field of a task
    line of the file the session began with: the text between the first
    and the second colon of that line, trimmed. *)
Theorem unknown_status_shown f F i t :
  reachable f F →
  store F !! i = Some t →
  (status_symbol (status t) = lit "?" ↔ status t ∉ STATUS_CYCLE) ∧
  (status_symbol (status t) = lit "?" →
     is_leaf t = true ∧ well_statused f = false ∧
     status_style (status t) = lit "red" ∧
     ∃ text line a b c,
       f = Text text ∧ line ∈ readlines text ∧
       skipped (rstrip_nl line) = false ∧
       drop_while isspace (rstrip_nl line) = a ++ colon :: b ++ colon :: c ∧
       (colon ∉ a) ∧ (colon ∉ b) ∧ strip b = status t ∧
       line_fields (rstrip_nl line)
         = Ok (line_depth (rstrip_nl line), strip a, status t, strip c)).
Proof.
  intros Hreach Ht.
  assert (status_symbol (status t) = lit "?" ↔ status t ∉ STATUS_CYCLE) as Hiff.
  { destruct (status_symbol_cases (status t))
      as [(Hs & Hsym)|[(Hs & Hsym)|[(Hs & Hsym)|(Hs & Hsym)]]]; rewrite Hsym.
    1-3: split; [done|]; intros Hn; exfalso; apply Hn; rewrite Hs;
         apply cycle_elem; auto.
    done. }
  split; [done|]. intros Hq%Hiff.
  assert (is_leaf t = true) as Hleaf.
  { destruct (is_leaf t) eqn:Hleaf; [done|]. exfalso. apply Hq.
    destruct (reachable_wf _ _ Hreach) as (_ & Hroll).
    destruct (Hroll i t Ht Hleaf) as (ss & _ & ->). apply rolled_enum. }
  split; [done|]. split; [|split].
  - destruct (well_statused f) eqn:Hw; [|done]. exfalso. apply Hq.
    pose proof (reachable_enum _ _ Hreach Hw) as Henum.
    unfold enum_all in Henum. rewrite Forall_lookup in Henum. by eapply Henum.
  - unfold status_style. rewrite !bool_decide_false; [done|..];
      intros Hs; apply Hq; rewrite Hs; apply cycle_elem; auto.
  - destruct (reachable_leaf_status _ _ Hreach i t Ht Hleaf)
      as [?|(text & line & d & nm & du & -> & Hin & Hskip & Hf)]; [done|].
    destruct (readlines_raw _ _ Hin) as (Hnl & _).
    destruct (line_fields_cases _ Hnl)
      as [(_ & Hf')|(_ & a & b & c & Heq & Ha & Hb & Hf')];
      rewrite Hf in Hf'; [done|].
    injection Hf' as -> -> Hst ->.
    exists text, line, a, b, c. repeat (split; [done|]).
    assert (strip b = status t) as Hb'.
    { unfold status_field in Hst. destruct (strip b) eqn:Hsb; [|done].
      exfalso. apply Hq. rewrite Hst. by left. }
    split; [done|]. by rewrite Hf, Hst.
Qed.

Lemma unknown_status_shown_witness :
  reachable odd_status_file odd_status ∧
  store odd_status !! 0 = Some (mkTask (lit "A") (lit "FOO") [] [] None 0) ∧
  status_symbol (lit "FOO") = lit "?" ∧
  status_style (lit "FOO") = lit "red" ∧
  ∃ line b, line ∈ readlines (lit "A:FOO:") ∧ strip b = lit "FOO".
Proof.
  split; [exact odd_status_reachable|]. split; [reflexivity|].
  split; [reflexivity|].
  destruct (proj2 (unknown_status_shown odd_status_file odd_status 0
                     (mkTask (lit "A") (lit "FOO") [] [] None 0)
                     odd_status_reachable eq_refl) eq_refl)
    as (_ & _ & Hred & text & line & a & b & c & Hf & Hin & _ & _ & _ & _ & Hb & _).
  split; [exact Hred|]. injection Hf as <-. by exists line, b.
Defined.

(** ** The summary line *)

Lemma statuses_seq pre h :
  statuses (pre ++ h) (seq (length pre) (length h)) = Ok (status <$> h).
Proof.
  revert pre. induction h as [|t h IH]; intros pre; [done|].
  simpl. unfold deref. rewrite list_lookup_middle by done. simpl.
  replace (pre ++ t :: h) with ((pre ++ [t]) ++ h) by (by rewrite <- app_assoc).
  replace (S (length pre)) with (length (pre ++ [t]))
    by (rewrite length_app; simpl; lia).
  by rewrite IH.
Qed.

Lemma statuses_perm h ts ts' :
  ts ≡ₚ ts' → ∀ ss, statuses h ts = Ok ss →
  ∃ ss', statuses h ts' = Ok ss' ∧ ss ≡ₚ ss'.
Proof.
  induction 1 as [|x l l' _ IH|x y l|l1 l2 l3 _ IH1 _ IH2]; intros ss; simpl.
  - intros [= <-]. by exists [].
  - intros (t & Ht & (ss0 & Hss0 & [= <-])%bind_Ok)%bind_Ok.
    destruct (IH _ Hss0) as (ss' & -> & Hp). rewrite Ht. simpl.
    eexists. split; [done|]. by constructor.
  - intros (ty & Hy & (s1 & (tx & Hx & (ss0 & Hss0 & [= <-])%bind_Ok)%bind_Ok
                      & [= <-])%bind_Ok)%bind_Ok.
    rewrite Hx, Hy, Hss0. simpl. eexists. split; [done|]. apply perm_swap.
  - intros Hss. destruct (IH1 _ Hss) as (ss2 & H2 & Hp2).
    destruct (IH2 _ H2) as (ss3 & H3 & Hp3). exists ss3. split; [done|].
    by etrans.
Qed.

Lemma count_of_fmap s (h : heap) :
  count_of s (status <$> h) = length (filter (λ t, status t = s) h).
Proof.
  unfold count_of. induction h as [|t h IH]; [done|]. simpl.
  destruct (decide (status t = s)).
  - rewrite !filter_cons_True by done. cbn [length]. f_equal. exact IH.
  - rewrite !filter_cons_False by done. exact IH.
Qed.

Lemma status_partition (h : heap) :
  length (filter (λ t, status t = OPEN) h)
  + length (filter (λ t, status t = IN_PROGRESS) h)
  + length (filter (λ t, status t = DONE) h)
  + length (filter (λ t, status t ∉ STATUS_CYCLE) h)
  = length h.
Proof.
  induction h as [|t h IH]; [done|]. rewrite !filter_cons.
  destruct (decide (status t ∉ STATUS_CYCLE)) as [Hout|Hin].
  - rewrite cycle_elem in Hout.
    rewrite !decide_False by (intros ?; apply Hout; auto). simpl. lia.
  - apply dec_stable, cycle_elem in Hin as [Hs|[Hs|Hs]]; rewrite Hs;
      repeat (case_decide; try done); simpl; lia.
Qed.

(** X12. The summary line counts every task of the store once: its three
    numbers are the numbers of tasks with status [OPEN], [IN_PROGRESS] and
    [DONE], and together with the number of tasks of any other status they
    add up to the number of tasks. *)
Theorem summary_counts f F :
  reachable f F →
  update_summary F None
  = Ok (summary_text (length (filter (λ t, status t = OPEN) (store F)))
                     (length (filter (λ t, status t = IN_PROGRESS) (store F)))
                     (length (filter (λ t, status t = DONE) (store F)))) ∧
  length (filter (λ t, status t = OPEN) (store F))
  + length (filter (λ t, status t = IN_PROGRESS) (store F))
  + length (filter (λ t, status t = DONE) (store F))
  + length (filter (λ t, status t ∉ STATUS_CYCLE) (store F))
  = length (store F).
Proof.
  intros (ts & Hts & Hperm)%reachable_flatten. split.
  - unfold update_summary. rewrite Hts. cbn [mbind result_bind].
    pose proof (statuses_seq [] (store F)) as Hseq. simpl in Hseq.
    symmetry in Hperm.
    destruct (statuses_perm _ _ _ Hperm _ Hseq) as (ss & -> & Hp).
    cbn [mbind result_bind]. rewrite <- !count_of_fmap. unfold count_of.
    by rewrite !Hp.
  - apply status_partition.
Qed.

Lemma summary_counts_witness :
  reachable scenario_C_file scenario_F ∧
  update_summary scenario_F None = Ok (lit "OPEN: 2  |  IN_PROGRESS: 1  |  DONE: 1").
Proof.
  split; [exact scenario_F_reachable|].
  destruct (summary_counts _ _ scenario_F_reachable) as (Hsum & _).
  rewrite Hsum. reflexivity.
Defined.

(** ** The dialog and the file *)

Lemma on_button_pressed_Some button nv dv nm du :
  on_button_pressed button nv dv = dismissed (Some (nm, du)) ↔
  button = lit "ok" ∧ nm = strip nv ∧ du = strip dv ∧
  nm ≠ [] ∧ (colon ∉ nm) ∧ (colon ∉ du).
Proof.
  unfold on_button_pressed. case_bool_decide as Hb.
  2:{ split; [done|]. by intros (? & _). }
  destruct (strip nv) as [|c r] eqn:Hn.
  { split; [done|]. by intros (_ & -> & _ & ? & _). }
  destruct (bool_decide (colon ∈ c :: r) || bool_decide (colon ∈ strip dv)) eqn:Hc.
  - split; [done|]. intros (_ & -> & -> & _ & H1 & H2).
    apply orb_true_iff in Hc as [?%bool_decide_eq_true|?%bool_decide_eq_true]; done.
  - apply orb_false_iff in Hc as [H1%bool_decide_eq_false H2%bool_decide_eq_false].
    split.
    + intros [= <- <-]. done.
    + by intros (_ & -> & -> & _).
Qed.

Lemma rstrip_by_app_stop p a c r :
  p c = false → Forall (λ x, p x = false) a →
  rstrip_by p (a ++ c :: r) = a ++ c :: rstrip_by p r.
Proof.
  intros Hc. induction 1 as [|x a Hx _ IH]; simpl.
  - by apply rstrip_by_cons.
  - rewrite <- IH. by apply rstrip_by_cons.
Qed.

Lemma hash_line_skipped k r : skipped (rstrip_nl (spaces k ++ hash :: r)) = true.
Proof.
  unfold rstrip_nl. rewrite rstrip_by_app_stop; [|done|].
  2:{ unfold spaces. by apply Forall_replicate. }
  rewrite skipped_spec.
  destruct (strip_head (spaces k ++ hash :: rstrip_by (N.eqb nl) r) hash
              (rstrip_by (N.eqb nl) r)) as (r' & ->); [|done].
  rewrite drop_while_all by apply spaces_isspace. done.
Qed.

Lemma hash_task_skipped t s st :
  name t = hash :: s → parse_line st (task_line t ++ [nl]) = Ok st.
Proof.
  intros Hn. unfold parse_line, task_line. rewrite Hn, <- app_assoc.
  cbn [app]. by rewrite hash_line_skipped.
Qed.



Lemma task_line_plain_fields t :
  plain (name t) → plain (status t) → plain (due t) → plain (task_line t).
Proof.
  intros (? & ?) (? & ?) (? & ?). unfold task_line, spaces.
  split; rewrite !elem_of_app, !elem_of_cons, !elem_of_app, elem_of_cons,
    elem_of_replicate; intros [(? & _)|[?|[?|[?|[?|?]]]]]; done.
Qed.

Lemma readlines_lines ls :
  ls ≠ [] → Forall plain ls →
  readlines (join nl ls ++ [nl]) = (λ l, l ++ [nl]) <$> ls.
Proof.
  intros Hne Hplain. unfold readlines. rewrite universal_newlines_id.
  - apply keepends_join; [done|].
    eapply Forall_impl; [exact Hplain|]. by intros l (? & _).
  - rewrite elem_of_app, list_elem_of_singleton.
    intros [[?|(l & Hl & Hc)]%join_elem|?]; try done.
    rewrite Forall_forall in Hplain. by destruct (Hplain l Hl).
Qed.

(** The lines of a forest that the parser returned take the parser to
    the same store. *)
Lemma reparse_lines f F :
  parse_tasks_from_file f = Ok F →
  ∃ st, parse_lines ((λ t, task_line t ++ [nl]) <$> store F) p_init = Ok st ∧
        p_heap st = store F ∧ p_tasks st = roots F.
Proof.
  intros Hparse.
  destruct (parse_trace _ _ Hparse) as (st1 & Hall1 & Hroots & Hsame & Hclean).
  destruct (attach_all_sim (rec_of <$> p_heap st1) (rec_of <$> store F)
              p_init st1 p_init) as (st2 & Hall2 & Hsim); [| |done|].
  { apply Forall2_fmap. eapply Forall2_impl; [exact Hsame|].
    intros t t' (? & ? & _ & _ & ?). done. }
  { repeat split. constructor. }
  apply attach_all_recs in Hall2 as Hrecs2. simpl in Hrecs2.
  destruct Hsim as (Htasks & _ & Hsame2).
  assert (p_heap st2 = store F) as Hheap by (by eapply same_recs_eq).
  apply parse_written in Hall2; [|done].
  exists st2. split; [done|]. split; [done|]. congruence.
Qed.

Lemma add_root_leaf F nm du :
  add_subtask_worker None (Some (nm, du)) F
  = Ok (mkForest (store F ++ [mkTask nm OPEN du [] None 0])
          (roots F ++ [length (store F)])).
Proof.
  unfold add_subtask_worker. rewrite length_app. simpl length.
  replace (length (store F) + 1) with (S (length (store F))) by lia.
  cbn [propagate_up]. unfold deref. rewrite list_lookup_middle by done.
  cbn [mbind result_bind is_leaf children]. rewrite list_lookup_middle by done.
  done.
Qed.

(** X14. A new root whose name starts with a hash sign does not survive
    saving and loading: the task is added to the forest that was loaded,
    the saved text has a line for it, and parsing the saved text returns
    the forest as it was loaded, without the new task. *)
Theorem hash_name_lost f F idx nm du s :
  parse_tasks_from_file f = Ok F →
  get_selected_task idx F = Ok None →
  nm = hash :: s → plain nm → plain du →
  ∃ F' text,
    action_add_subtask idx (Some (nm, du)) F = Ok F' ∧
    store F' = store F ++ [mkTask nm OPEN du [] None 0] ∧
    save_text F' = Ok text ∧
    parse_tasks_from_file (Text text) = Ok F.
Proof.
  intros Hparse Hsel Hnm Hpn Hpd.
  destruct (parse_laid _ _ Hparse) as (Hlaid & Hwf).
  set (new := mkTask nm OPEN du [] None 0).
  set (F' := mkForest (store F ++ [new]) (roots F ++ [length (store F)])).
  exists F', (join nl (task_line <$> store F') ++ [nl]).
  split. { unfold action_add_subtask. rewrite Hsel. apply add_root_leaf. }
  split; [done|].
  assert (laid (store F') None 0 0 (length (store F')) (roots F')) as Hlaid'.
  { unfold F'. simpl. rewrite length_app. simpl.
    replace (length (store F) + 1) with (S (length (store F))) by lia.
    eapply laid_app.
    - eapply laid_frame; [exact Hlaid|]. intros x t _ Hx. exists t.
      split; [by apply lookup_app_l_Some|apply skel_refl].
    - eapply laid_cons; [by apply list_lookup_middle|done|done| |];
        constructor. }
  split; [by apply save_text_laid|].
  destruct (reparse_lines _ _ Hparse) as (st & Hst & Hheap & Htasks).
  destruct (parse_trace _ _ Hparse) as (_ & _ & _ & _ & Hclean).
  unfold parse_tasks_from_file. simpl. rewrite readlines_lines.
  2:{ unfold F'. simpl. rewrite fmap_app. simpl. by destruct (task_line <$> store F). }
  2:{ unfold F'. simpl. rewrite fmap_app. apply Forall_app. split.
      - apply Forall_fmap. eapply Forall_impl; [exact Hclean|].
        intros t Ht. by apply task_line_plain.
      - repeat constructor; simpl.
        + apply (proj1 (task_line_plain_fields new Hpn
                          (proj2 (proj2 (proj2 (enum_clean OPEN ltac:(by left))))) Hpd)).
        + apply (proj2 (task_line_plain_fields new Hpn
                          (proj2 (proj2 (proj2 (enum_clean OPEN ltac:(by left))))) Hpd)). }
  rewrite <- list_fmap_compose.
  change ((λ l : str, l ++ [nl]) ∘ task_line) with (λ t, task_line t ++ [nl]).
  rewrite fmap_app. unfold parse_lines in *. rewrite for_each_app, Hst.
  cbn [mbind result_bind fmap list_fmap for_each].
  assert (parse_line st (task_line new ++ [nl]) = Ok st) as ->.
  { by apply (hash_task_skipped _ s). }
  cbn [mbind result_bind]. rewrite Hheap, Htasks, (walk_all_fixed F Hlaid Hwf).
  cbn [mbind result_bind]. by destruct F.
Qed.

Lemma hash_name_lost_witness :
  parse_tasks_from_file scenario_C_file = Ok scenario_C ∧
  get_selected_task None scenario_C = Ok None ∧
  ∃ F' text,
    action_add_subtask None (Some (lit "#42", lit "")) scenario_C = Ok F' ∧
    store F' = store scenario_C ++ [mkTask (lit "#42") OPEN (lit "") [] None 0] ∧
    save_text F' = Ok text ∧
    parse_tasks_from_file (Text text) = Ok scenario_C.
Proof.
  split; [reflexivity|]. split; [reflexivity|].
  apply (hash_name_lost scenario_C_file scenario_C None (lit "#42") (lit "")
           (lit "42")).
  - reflexivity.
  - reflexivity.
  - reflexivity.
  - by apply (bool_decide_unpack _).
  - by apply (bool_decide_unpack _).
Defined.

(** ** Every change is written at once *)

Lemma item_rows_total h ts :
  valid_refs h ts → ∃ rows, item_rows h ts = Ok rows ∧ length rows = length ts.
Proof.
  induction 1 as [|r ts [t Hr] _ (rows & IH & Hlen)]; simpl; [by exists []|].
  unfold deref. rewrite Hr, IH. simpl. eexists. split; [done|]. simpl. lia.
Qed.

Lemma refresh_total keep v F :
  wf F →
  ∃ ts s rows,
    flatten_tasks F = Ok ts ∧ length rows = length ts ∧
    refresh_task_list keep v F
    = Ok (s, mkView rows
               match ts with
               | [] => None
               | _ =>
                   match keep, (if keep then index v else None) with
                   | true, Some i => Some (Z.min i (Z.of_nat (length ts) - 1))
                   | _, _ => Some 0%Z
                   end
               end).
Proof.
  intros (Hl & _). destruct (flatten_tasks_total F Hl) as (ts & Hts & Hvalid).
  destruct (item_rows_total _ _ Hvalid) as (rows & Hrows & Hlen).
  destruct (statuses_total (store F) ts) as (ss & Hss).
  { intros c Hc. unfold valid_refs in Hvalid. rewrite Forall_forall in Hvalid.
    by apply Hvalid. }
  exists ts. eexists. exists rows. split; [done|]. split; [done|].
  unfold refresh_task_list, update_summary. rewrite Hts.
  cbn [mbind result_bind]. rewrite Hss. cbn [mbind result_bind].
  rewrite Hrows. cbn [mbind result_bind]. by destruct keep.
Qed.

(** What [save_with_handling] leaves on the disk, and what it tells. *)
Lemma save_with_handling_wf w b a :
  wf (app_roots a) →
  ∃ text,
    save_text (app_roots a) = Ok text ∧
    App.save_with_handling w b a
    = Ok (match w with NoFault => true | _ => false end,
          mkApp (app_roots a) (task_list a) (summary a)
            match w with
            | NoFault => Text text
            | OpenFails _ => disk a
            | WriteFails n _ => first_bytes n text
            end
            (notices a ++ match w with
                          | NoFault => if b then [saved_to] else []
                          | OpenFails e | WriteFails _ e => [error_saving e]
                          end)
            (exited a)).
Proof.
  intros Hwf. destruct (save_text_total _ Hwf) as (text & Htext).
  exists text. split; [done|].
  unfold App.save_with_handling, save_tasks_to_file. rewrite Htext.
  by destruct w.
Qed.

(** Refreshing the list view and saving, as both editing actions end. *)
Lemma refresh_and_save w a F :
  wf F →
  ∃ a' text ts,
    (a1 ← App.refresh_task_list true
            (mkApp F (task_list a) (summary a) (disk a) (notices a) (exited a));
     '(_, a2) ← App.save_with_handling w false a1;
     Ok a2) = Ok a' ∧
    app_roots a' = F ∧
    save_text F = Ok text ∧
    flatten_tasks F = Ok ts ∧
    length (items (task_list a')) = length ts ∧
    index (task_list a')
    = match ts with
      | [] => None
      | _ => match index (task_list a) with
             | Some i => Some (Z.min i (Z.of_nat (length ts) - 1))
             | None => Some 0%Z
             end
      end ∧
    disk a' = match w with
              | NoFault => Text text
              | OpenFails _ => disk a
              | WriteFails n _ => first_bytes n text
              end ∧
    notices a' = notices a ++ match w with
                              | NoFault => []
                              | OpenFails e | WriteFails _ e => [error_saving e]
                              end ∧
    exited a' = exited a.
Proof.
  intros Hwf.
  destruct (refresh_total true (task_list a) F Hwf)
    as (ts & s & rows & Hts & Hlen & Hrefresh).
  unfold App.refresh_task_list. cbn [app_roots task_list]. rewrite Hrefresh.
  cbn [mbind result_bind].
  match goal with
  | |- context [App.save_with_handling w false ?x] =>
      destruct (save_with_handling_wf w false x Hwf) as (text & Htext & ->)
  end.
  cbn [mbind result_bind]. eexists. exists text, ts.
  split; [done|]. simpl. repeat split; done.
Qed.

Lemma cycled_ne s : cycled s ≠ s.
Proof.
  unfold cycled. intros Heq. repeat case_bool_decide; subst; try done.
  all: by match goal with H : ?x ≠ ?x |- _ => apply H end.
Qed.

(** X15. [action_toggle_status] returns in every state of a session, with
    the tree that the model of the action gives.  When the tree is changed
    the list view is refreshed with one item per task and the same index,
    and the new forest is saved at once: with no fault the file holds its
    text; when the file cannot be opened the file is as before, when the
    write breaks off it holds the bytes that were written, which need not
    end with a whole character, and in both cases an error is notified
    while the change stays in memory.  When the tree is not changed,
    nothing else is. *)
Theorem toggle_saved_at_once f a w :
  reachable f (app_roots a) →
  ∃ a',
    App.action_toggle_status w a = Ok a' ∧
    action_toggle_status (index (task_list a)) (app_roots a) = Ok (app_roots a') ∧
    (app_roots a' = app_roots a → a' = a) ∧
    (app_roots a' ≠ app_roots a →
     ∃ text,
       save_text (app_roots a') = Ok text ∧
       index (task_list a') = index (task_list a) ∧
       length (items (task_list a')) = length (store (app_roots a')) ∧
       disk a' = match w with
                 | NoFault => Text text
                 | OpenFails _ => disk a
                 | WriteFails n _ => first_bytes n text
                 end ∧
       notices a' = notices a ++ match w with
                                 | NoFault => []
                                 | OpenFails e | WriteFails _ e => [error_saving e]
                                 end).
Proof.
  intros Hreach. pose proof (reachable_wf _ _ Hreach) as Hwf.
  destruct (get_selected_task_total (index (task_list a)) (app_roots a) (proj1 Hwf))
    as (sel & Hsel & Hvalid).
  unfold App.action_toggle_status, action_toggle_status. rewrite Hsel.
  cbn [mbind result_bind].
  destruct sel as [task|]; [|by exists a].
  destruct (Hvalid task eq_refl) as [t Ht].
  rewrite (proj2 (deref_Ok _ _ _) Ht). cbn [mbind result_bind].
  destruct (is_leaf t) eqn:Hleaf; cbn [negb].
  2:{ exists a. by rewrite (toggle_interior _ _ _ Ht Hleaf). }
  destruct (toggle_leaf_frame _ task t Hwf Ht Hleaf)
    as (F' & HF' & Hr & Hwf' & Hlen & Hpt).
  rewrite HF'. cbn [mbind result_bind].
  destruct (refresh_and_save w a F' Hwf')
    as (a' & text & ts & -> & Hroots & Htext & Hts & Hrows & Hidx & Hdisk & Hnot & _).
  exists a'. split; [done|]. split; [by rewrite Hroots|].
  assert (F' ≠ app_roots a) as Hne.
  { intros ->. destruct (Hpt task t Ht) as (t' & Ht' & _ & _ & _ & Heq).
    rewrite Ht in Ht'. injection Ht' as <-. specialize (Heq eq_refl).
    destruct t as [? st ? ? ? ?]. injection Heq as Heq. symmetry in Heq. by apply cycled_ne in Heq. }
  split; [by rewrite Hroots|]. intros _. exists text. rewrite Hroots.
  split; [done|].
  destruct (reachable_flatten _ _ Hreach) as (ts0 & Hts0 & Hperm).
  assert (flatten_tasks F' = flatten_tasks (app_roots a)) as Hflat.
  { apply flatten_tasks_skel; [done|]. split; [done|].
    intros x tx Hx. destruct (Hpt x tx Hx) as (tx' & ? & (_ & _ & ?) & _).
    by exists tx'. }
  rewrite Hflat, Hts0 in Hts. injection Hts as <-.
  assert (length ts0 = length (store (app_roots a))) as Hlen0.
  { by rewrite Hperm, length_seq. }
  split; [|split; [lia|done]].
  rewrite Hidx. unfold get_selected_task in Hsel.
  destruct (index (task_list a)) as [i|]; [|done].
  rewrite Hts0 in Hsel. cbn [mbind result_bind] in Hsel.
  case_bool_decide as Hi; [|done].
  destruct ts0; [simpl in Hi; lia|]. f_equal. lia.
Qed.

Lemma scenario_C_app_reachable :
  reachable scenario_C_file
    (app_roots (mkApp scenario_C (mkView [] (Some 2%Z)) [] scenario_C_file [] false)).
Proof. exact scenario_C_reachable. Qed.

Lemma toggle_saved_at_once_witness :
  reachable accent_file
    (app_roots (mkApp accent (mkView [] (Some 0%Z)) [] accent_file [] false)) ∧
  ∃ a',
    App.action_toggle_status (WriteFails 1 ENOSPC)
      (mkApp accent (mkView [] (Some 0%Z)) [] accent_file [] false) = Ok a' ∧
    app_roots a' = accent1 ∧
    disk a' = Undecodable ∧
    notices a' = [error_saving ENOSPC].
Proof.
  split; [exact accent_reachable|].
  destruct (toggle_saved_at_once accent_file
              (mkApp accent (mkView [] (Some 0%Z)) [] accent_file [] false)
              (WriteFails 1 ENOSPC) accent_reachable)
    as (a' & Hact & Hmodel & _ & Hsaved).
  exists a'. split; [exact Hact|].
  assert (app_roots a' = accent1) as Hroots.
  { change (Ok accent1 = Ok (app_roots a')) in Hmodel. congruence. }
  split; [exact Hroots|].
  destruct Hsaved as (text & Htext & _ & _ & Hdisk & Hnot).
  { rewrite Hroots. discriminate. }
  split; [|exact Hnot].
  rewrite Hroots in Htext. vm_compute in Htext. injection Htext as <-.
  exact Hdisk.
Defined.

(** X16. [action_add_subtask] returns in every state of a session, with
    the tree that the model of the action gives.  When the dialog was
    cancelled nothing is changed and nothing is written.  Otherwise the
    list view gets one more item and has a selection, and the new forest
    is saved at once, with the same outcomes on the file and the
    notifications as for a toggle. *)
Theorem add_saved_at_once f a w dialog :
  reachable f (app_roots a) →
  ∃ a',
    App.action_add_subtask w dialog a = Ok a' ∧
    action_add_subtask (index (task_list a)) dialog (app_roots a)
    = Ok (app_roots a') ∧
    (dialog = None → a' = a) ∧
    (dialog ≠ None →
     ∃ text,
       save_text (app_roots a') = Ok text ∧
       length (items (task_list a')) = S (length (store (app_roots a))) ∧
       (∃ i, index (task_list a') = Some i) ∧
       disk a' = match w with
                 | NoFault => Text text
                 | OpenFails _ => disk a
                 | WriteFails n _ => first_bytes n text
                 end ∧
       notices a' = notices a ++ match w with
                                 | NoFault => []
                                 | OpenFails e | WriteFails _ e => [error_saving e]
                                 end).
Proof.
  intros Hreach. pose proof (reachable_wf _ _ Hreach) as Hwf.
  destruct (get_selected_task_total (index (task_list a)) (app_roots a) (proj1 Hwf))
    as (sel & Hsel & Hvalid).
  unfold App.action_add_subtask, action_add_subtask. rewrite Hsel.
  cbn [mbind result_bind].
  destruct dialog as [[nm du]|]; [|by exists a].
  destruct (add_subtask_frame sel nm du _ Hwf Hvalid)
    as (F' & HF' & Hr & Hwf' & Hlen & _).
  rewrite HF'. cbn [mbind result_bind].
  destruct (refresh_and_save w a F' Hwf')
    as (a' & text & ts & -> & Hroots & Htext & Hts & Hrows & Hidx & Hdisk & Hnot & _).
  exists a'. split; [done|]. split; [by rewrite Hroots|]. split; [done|].
  intros _. exists text. rewrite Hroots. split; [done|].
  assert (reachable f F') as Hreach'.
  { eapply reach_add; [exact Hreach|]. unfold action_add_subtask.
    rewrite Hsel. exact HF'. }
  destruct (reachable_flatten _ _ Hreach') as (ts0 & Hts0 & Hperm).
  rewrite Hts in Hts0. injection Hts0 as <-.
  assert (length ts = S (length (store (app_roots a)))) as Hlen'.
  { by rewrite Hperm, length_seq. }
  split; [lia|]. split; [|done].
  rewrite Hidx. destruct ts; [done|]. destruct (index (task_list a)); by eexists.
Qed.

Lemma add_saved_at_once_witness :
  reachable scenario_C_file
    (app_roots (mkApp scenario_C (mkView [] (Some 2%Z)) [] scenario_C_file [] false)) ∧
  ∃ a',
    App.action_add_subtask (WriteFails 2 ENOSPC) (Some (lit "D", lit "today"))
      (mkApp scenario_C (mkView [] (Some 2%Z)) [] scenario_C_file [] false) = Ok a' ∧
    app_roots a' = scenario_C_sub ∧
    length (items (task_list a')) = 4 ∧
    disk a' = Text (lit "A:") ∧
    notices a' = [error_saving ENOSPC].
Proof.
  split; [exact scenario_C_app_reachable|].
  destruct (add_saved_at_once scenario_C_file
              (mkApp scenario_C (mkView [] (Some 2%Z)) [] scenario_C_file [] false)
              (WriteFails 2 ENOSPC) (Some (lit "D", lit "today"))
              scenario_C_app_reachable)
    as (a' & Hact & Hmodel & _ & Hsaved).
  exists a'. split; [exact Hact|].
  assert (app_roots a' = scenario_C_sub) as Hroots.
  { change (Ok scenario_C_sub = Ok (app_roots a')) in Hmodel. congruence. }
  split; [exact Hroots|].
  destruct Hsaved as (text & Htext & Hlen & _ & Hdisk & Hnot); [discriminate|].
  split; [exact Hlen|]. split; [|exact Hnot].
  rewrite Hroots in Htext. vm_compute in Htext. injection Htext as <-.
  exact Hdisk.
Defined.

(** X17. [action_save] writes the forest and then always notifies that it
    was saved: twice when the save worked, and once, behind the error,
    when it failed.  [action_quit] saves in the same way, without a notice
    for a save that worked, and exits whether the save worked or not.
    Neither changes the tree or the list view. *)
Theorem save_and_quit_notices f a w :
  reachable f (app_roots a) →
  ∃ text,
    save_text (app_roots a) = Ok text ∧
    App.action_save w a
    = Ok (mkApp (app_roots a) (task_list a) (summary a)
            match w with
            | NoFault => Text text
            | OpenFails _ => disk a
            | WriteFails n _ => first_bytes n text
            end
            (notices a ++ match w with
                          | NoFault => [saved_to; saved_to]
                          | OpenFails e | WriteFails _ e => [error_saving e; saved_to]
                          end)
            (exited a)) ∧
    App.action_quit w a
    = Ok (mkApp (app_roots a) (task_list a) (summary a)
            match w with
            | NoFault => Text text
            | OpenFails _ => disk a
            | WriteFails n _ => first_bytes n text
            end
            (notices a ++ match w with
                          | NoFault => []
                          | OpenFails e | WriteFails _ e => [error_saving e]
                          end)
            true).
Proof.
  intros Hwf%reachable_wf.
  destruct (save_with_handling_wf w true a Hwf) as (text & Htext & Hsave).
  destruct (save_with_handling_wf w false a Hwf) as (text' & Htext' & Hquit).
  rewrite Htext in Htext'. injection Htext' as <-.
  exists text. split; [done|]. unfold App.action_save, App.action_quit.
  rewrite Hsave, Hquit. cbn [mbind result_bind]. simpl.
  split; f_equal; f_equal; destruct w; by rewrite <- ?app_assoc.
Qed.

Lemma save_and_quit_notices_witness :
  reachable scenario_C_file
    (app_roots (mkApp scenario_C (mkView [] (Some 2%Z)) [] scenario_C_file [] false)) ∧
  App.action_save (OpenFails EACCES)
    (mkApp scenario_C (mkView [] (Some 2%Z)) [] scenario_C_file [] false)
  = Ok (mkApp scenario_C (mkView [] (Some 2%Z)) [] scenario_C_file
          [error_saving EACCES; saved_to] false).
Proof.
  split; [exact scenario_C_app_reachable|].
  destruct (save_and_quit_notices scenario_C_file
              (mkApp scenario_C (mkView [] (Some 2%Z)) [] scenario_C_file [] false)
              (OpenFails EACCES) scenario_C_app_reachable)
    as (text & _ & Hsave & _).
  exact Hsave.
Defined.

(** X18. [on_mount] raises what [parse_tasks_from_file] raises.  When
    the file is parsed, the application starts with the parsed forest, the
    summary of that forest, one item per task, no notification, and the
    first item selected when there is a task, none otherwise. *)
Theorem on_mount_outcome f :
  (∀ F, parse_tasks_from_file f = Ok F →
     ∃ a, App.on_mount f = Ok a ∧
          app_roots a = F ∧ disk a = f ∧ notices a = [] ∧ exited a = false ∧
          update_summary F None = Ok (summary a) ∧
          length (items (task_list a)) = length (store F) ∧
          index (task_list a) = match store F with
                                | [] => None
                                | _ => Some 0%Z
                                end) ∧
  (∀ e, parse_tasks_from_file f = Raise e → App.on_mount f = Raise e).
Proof.
  split; [|intros e He; unfold App.on_mount; by rewrite He].
  intros F HF. unfold App.on_mount. rewrite HF. cbn [mbind result_bind].
  pose proof (reach_mount _ _ HF) as Hreach.
  pose proof (reachable_wf _ _ Hreach) as Hwf.
  destruct (reachable_flatten _ _ Hreach) as (ts & Hts & Hperm).
  destruct (refresh_total false (mkView [] None) F Hwf)
    as (ts' & s & rows & Hts' & Hlen & Hrefresh).
  rewrite Hts in Hts'. injection Hts' as <-.
  assert (length ts = length (store F)) as Hlen' by (by rewrite Hperm, length_seq).
  assert (update_summary F None = Ok s) as Hsum.
  { unfold refresh_task_list in Hrefresh. rewrite Hts in Hrefresh.
    cbn [mbind result_bind] in Hrefresh. unfold update_summary in *.
    rewrite Hts. cbn [mbind result_bind] in *.
    destruct (statuses (store F) ts); [|done|done].
    cbn [mbind result_bind] in *.
    destruct (item_rows (store F) ts); [|done|done].
    cbn [mbind result_bind] in Hrefresh. congruence. }
  unfold App.refresh_task_list. cbn [app_roots task_list]. rewrite Hrefresh.
  cbn [mbind result_bind task_list items].
  destruct rows as [|row rows]; eexists; (split; [done|]); simpl;
    repeat split; try done; simpl in Hlen.
  - lia.
  - destruct ts; [|done]. by destruct (store F).
  - lia.
  - destruct (store F); [simpl in *; lia|done].
Qed.

(** ** Trees: saving and loading after changes *)

(** *** Facts about trees *)

Lemma tree_ind' (P : tree → Prop) :
  (∀ r kids, Forall P kids → P (Node r kids)) → ∀ tr, P tr.
Proof.
  intros H. fix IH 1. intros [r kids]. apply H.
  induction kids as [|k kids IHk]; constructor; [apply IH|apply IHk].
Qed.

Lemma pre_forest_cons tr ts : pre_forest (tr :: ts) = pre tr ++ pre_forest ts.
Proof. done. Qed.

Lemma pre_head tr : ∃ l, pre tr = root_rec tr :: l.
Proof. destruct tr as [r kids]. by eexists. Qed.

Lemma low_mono d d' tail : d ≤ d' → low d tail → low d' tail.
Proof. destruct tail as [|r tail]; simpl; [done|lia]. Qed.

Lemma low_forest d ts tail :
  Forall (depths_ok d) ts → low d tail → low (S d) (pre_forest ts ++ tail).
Proof.
  intros Hd Hlow. destruct ts as [|[r kids] ts].
  - simpl. by apply (low_mono d); [lia|].
  - invert Hd. match goal with H : depths_ok _ _ |- _ => invert H end.
    simpl. lia.
Qed.

(** A forest whose depths fit is determined by its pre-order walk. *)
Lemma pre_forest_determined ts1 :
  Forall determined ts1 →
  ∀ d ts2 tail1 tail2,
    Forall (depths_ok d) ts1 → Forall (depths_ok d) ts2 →
    pre_forest ts1 ++ tail1 = pre_forest ts2 ++ tail2 →
    low d tail1 → low d tail2 → ts1 = ts2 ∧ tail1 = tail2.
Proof.
  induction 1 as [|tr1 ts1 Htr1 _ IH];
    intros d ts2 tail1 tail2 Hd1 Hd2 Heq Hl1 Hl2.
  - destruct ts2 as [|[r2 k2] ts2]; [done|]. exfalso.
    invert Hd2. match goal with H : depths_ok _ _ |- _ => invert H end.
    simpl in Heq. subst tail1. simpl in Hl1. lia.
  - destruct ts2 as [|tr2 ts2].
    { exfalso. destruct tr1 as [r1 k1]. invert Hd1.
      match goal with H : depths_ok _ _ |- _ => invert H end.
      simpl in Heq. subst tail2. simpl in Hl2. lia. }
    invert Hd1. invert Hd2. rewrite !pre_forest_cons, <- !app_assoc in Heq.
    destruct (Htr1 d tr2 _ _ ltac:(done) ltac:(done) Heq) as (-> & Heq');
      [by apply low_forest..|].
    destruct (IH d ts2 _ _ ltac:(done) ltac:(done) Heq' Hl1 Hl2) as (-> & ->).
    done.
Qed.

Lemma pre_determined tr : determined tr.
Proof.
  induction tr as [r1 k1 IH] using tree_ind'.
  intros d [r2 k2] tail1 tail2 Hd1 Hd2 Heq Hl1 Hl2.
  invert Hd1. invert Hd2. simpl in Heq. injection Heq as -> Heq.
  destruct (pre_forest_determined k1 IH _ k2 tail1 tail2
              ltac:(eassumption) ltac:(eassumption) Heq Hl1 Hl2) as (-> & ->).
  done.
Qed.

Lemma pre_forest_inj d ts1 ts2 :
  Forall (depths_ok d) ts1 → Forall (depths_ok d) ts2 →
  pre_forest ts1 = pre_forest ts2 → ts1 = ts2.
Proof.
  intros Hd1 Hd2 Heq.
  destruct (pre_forest_determined ts1
              ltac:(apply Forall_forall; intros ? _; apply pre_determined)
              d ts2 [] [] Hd1 Hd2) as (-> & _); [by rewrite !app_nil_r|done..].
Qed.

(** The pre-order walk of a forest whose depths fit never goes down by
    more than one level at a time. *)
Lemma forest_fits ts :
  Forall fits ts →
  ∀ d n tail, Forall (depths_ok d) ts → d ≤ n →
    (∀ m, d ≤ m → ok_from m tail) →
    ok_from n (((λ r, r.1.1.1) <$> pre_forest ts) ++ tail).
Proof.
  induction 1 as [|tr ts Htr _ IH]; intros d n tail Hd Hn Hk.
  - simpl. by apply Hk.
  - invert Hd. rewrite pre_forest_cons, fmap_app, <- app_assoc.
    apply (Htr d); [done|done|].
    intros m Hm. apply (IH d); [done|lia|done].
Qed.

Lemma tree_fits tr : fits tr.
Proof.
  induction tr as [r kids IH] using tree_ind'. intros d n tail Hd Hn Hk.
  invert Hd. simpl. split; [done|].
  apply (forest_fits kids IH (S r.1.1.1)); [done|lia|done].
Qed.

Lemma ok_forest ts :
  Forall (depths_ok 0) ts → ok_from 0 ((λ r, r.1.1.1) <$> pre_forest ts).
Proof.
  intros Hd.
  pose proof (forest_fits ts
           ltac:(apply Forall_forall; intros ? _; apply tree_fits)
           0 0 [] Hd ltac:(lia) ltac:(done)) as H.
  by rewrite app_nil_r in H.
Qed.

(** *** The trees of a store *)

Lemma rec_of_depth t : (rec_of t).1.1.1 = depth t.
Proof. done. Qed.

Lemma rec_of_status t : (rec_of t).1.2 = status t.
Proof. done. Qed.

(** The trees of the tasks [cs], the rows that the walk of [flatten_tasks]
    makes of them, and what the two have to do with each other. *)
Lemma trees_walk h rs fuel :
  linked h rs →
  ∀ cs d,
    Forall (λ c, ∃ t, h !! c = Some t ∧ depth t = d ∧ length h ≤ fuel + c) cs →
    ∃ kids l,
      mapM (tree_of fuel h) cs = Some kids ∧
      for_each (flatten_walk fuel h) cs [] = Ok l ∧
      Forall2 (λ y r, ∃ t, h !! y = Some t ∧ rec_of t = r) l (pre_forest kids) ∧
      Forall (depths_ok d) kids ∧
      statuses h cs = Ok ((λ k, (root_rec k).1.2) <$> kids) ∧
      (Forall tree_rolled kids ↔ ∀ y, y ∈ l → rollup_at h y).
Proof.
  intros Hl. induction fuel as [|fuel IHf]; intros cs d Hcs.
  { destruct cs as [|c cs].
    - exists [], []. repeat split; try done; try constructor.
      intros _ y Hy. by apply elem_of_nil in Hy.
    - exfalso. invert Hcs.
      match goal with H : ∃ _, _ |- _ => destruct H as (t & Ht & _ & Hlen) end.
      apply lookup_lt_Some in Ht. lia. }
  induction cs as [|c cs IHcs].
  { exists [], []. repeat split; try done; try constructor.
    intros _ y Hy. by apply elem_of_nil in Hy. }
  invert Hcs.
  match goal with H : ∃ _, _ |- _ => destruct H as (t & Ht & Hd & Hlen) end.
  destruct (IHcs ltac:(done)) as (kids' & l' & Hk' & Hl' & Hrec' & Hd' & Hst' & Hr').
  destruct (IHf (children t) (S (depth t))) as (kc & lc & Hkc & Hlc & Hrecc & Hdc & Hstc & Hrc).
  { apply Forall_forall. intros c' Hc'.
    destruct (linked_child _ _ _ _ _ Hl Ht Hc') as (Hlt & tc & Htc & _ & Hdc).
    exists tc. split; [done|]. split; [done|lia]. }
  assert (tree_of (S fuel) h c = Some (Node (rec_of t) kc)) as Htree.
  { simpl. rewrite Ht. simpl. by rewrite Hkc. }
  assert (flatten_walk (S fuel) h c [] = Ok (c :: lc)) as Hwalk.
  { apply flatten_walk_Ok. by exists t, lc. }
  exists (Node (rec_of t) kc :: kids'), ((c :: lc) ++ l').
  split. { apply mapM_Some_2. constructor; [done|by apply mapM_Some_1]. }
  split. { apply for_each_cons_Ok. by exists (c :: lc), l'. }
  split.
  { rewrite pre_forest_cons. apply Forall2_app; [|done]. simpl.
    constructor; [by exists t|done]. }
  split. { constructor; [|done]. constructor; [by rewrite rec_of_depth|].
           by rewrite Hd in Hdc. }
  split. { simpl. unfold deref. rewrite Ht. simpl. by rewrite Hst'. }
  assert (length kc = length (children t)) as Hlenk.
  { apply mapM_Some_1 in Hkc. by apply Forall2_length in Hkc. }
  assert (tree_rolled (Node (rec_of t) kc) ↔ ∀ y, y ∈ c :: lc → rollup_at h y)
    as Hnode.
  { split.
    - intros Hroll. invert Hroll. intros y [->|Hy]%elem_of_cons.
      + intros t' Ht' Hleaf. rewrite Ht in Ht'. injection Ht' as <-.
        exists ((λ k, (root_rec k).1.2) <$> kc). split; [done|].
        match goal with H : _ → _ = rolled _ |- _ => apply H end.
        intros ->. unfold is_leaf in Hleaf. by destruct (children t).
      + by apply Hrc.
    - intros Hall. constructor.
      + intros Hne. destruct (Hall c ltac:(by left) t Ht) as (ss & Hss & Hs).
        { unfold is_leaf. destruct (children t); [|done]. by destruct kc. }
        rewrite Hstc in Hss. injection Hss as <-. done.
      + apply Hrc. intros y Hy. apply Hall. by right. }
  split.
  - intros Hall. invert Hall. intros y [Hy|Hy]%elem_of_app.
    + by apply Hnode.
    + by apply Hr'.
  - intros Hall. constructor.
    + apply Hnode. intros y Hy. apply Hall. apply elem_of_app. by left.
    + apply Hr'. intros y Hy. apply Hall. apply elem_of_app. by right.
Qed.

Lemma forest_trees_walk F :
  wf F →
  ∃ trs l,
    forest_trees F = Some trs ∧ flatten_tasks F = Ok l ∧
    Forall2 (λ y r, ∃ t, store F !! y = Some t ∧ rec_of t = r) l (pre_forest trs) ∧
    Forall (depths_ok 0) trs ∧
    (Forall tree_rolled trs ↔ ∀ y, y ∈ l → rollup_at (store F) y).
Proof.
  intros (Hl & _).
  destruct (trees_walk _ _ (length (store F)) Hl (roots F) 0)
    as (trs & l & ? & ? & ? & ? & _ & ?).
  { pose proof Hl as (_ & Hpar & Hroots).
    eapply Forall_impl; [exact Hroots|]. intros r (t & Ht & Hp).
    exists t. split; [done|]. split; [|lia].
    specialize (Hpar r t Ht). unfold parent_ok in Hpar. rewrite Hp in Hpar.
    by destruct Hpar. }
  by exists trs, l.
Qed.

(** *** The parser on the lines of a forest *)

Lemma attach_all_fits recs : ∀ st,
  ok_from (length (p_stack st)) ((λ r, r.1.1.1) <$> recs) →
  ∃ st', attach_all recs st = Ok st'.
Proof.
  induction recs as [|[[[d nm] s] du] recs IH]; intros st Hok.
  { by exists st. }
  simpl in Hok. destruct Hok as (Hd & Hok).
  destruct (attach_cases [] d nm s du st) as [(? & ? & _)|(_ & st1 & Hst1)]; [lia|].
  assert (length (p_stack st1) = S d) as Hlen.
  { apply attach_Ok in Hst1 as [(-> & ->)|(par & ? & _ & ->)]; simpl; [done|].
    rewrite length_app, length_take. simpl. lia. }
  destruct (IH st1) as (st' & Hst'); [by rewrite Hlen|].
  exists st'. unfold attach_all in *. simpl. rewrite Hst1. done.
Qed.

Lemma attach_all_inv recs st st' :
  p_inv st → attach_all recs st = Ok st' → p_inv st'.
Proof.
  intros Hinv Hall. eapply (for_each_inv p_inv); [|exact Hinv|exact Hall].
  intros [[[d nm] s] du] a a' Ha Hatt. by eapply attach_inv.
Qed.

Lemma rows_of_seq (h : heap) rs :
  Forall2 (λ y r, ∃ t, h !! y = Some t ∧ rec_of t = r) (seq 0 (length h)) rs →
  rs = rec_of <$> h.
Proof.
  intros H. apply list_eq. intros i. rewrite list_lookup_fmap.
  destruct (h !! i) as [t|] eqn:Hi.
  - apply lookup_lt_Some in Hi as Hlt.
    destruct (Forall2_lookup_l _ _ _ i i H) as (r & Hr & t' & Ht' & <-).
    { by apply lookup_seq_lt. }
    rewrite Hr. simpl. congruence.
  - apply lookup_ge_None in Hi. simpl. apply lookup_ge_None.
    apply Forall2_length in H. rewrite length_seq in H. lia.
Qed.

Lemma rows_tasks (h : heap) l rs :
  Forall2 (λ y r, ∃ t, h !! y = Some t ∧ rec_of t = r) l rs →
  ∃ L, Forall2 (λ y t, h !! y = Some t) l L ∧ rec_of <$> L = rs.
Proof.
  induction 1 as [|y r l rs (t & Ht & Hr) _ (L & HL & Hrs)].
  - by exists [].
  - exists (t :: L). split; [by constructor|]. by rewrite <- Hr, <- Hrs.
Qed.

Lemma task_lines_tasks (h : heap) l L :
  Forall2 (λ y t, h !! y = Some t) l L → task_lines h l = Ok (task_line <$> L).
Proof.
  induction 1 as [|y t l L Ht _ IH]; [done|].
  simpl. unfold deref. rewrite Ht. simpl. by rewrite IH.
Qed.

Lemma task_lines_recs (h L : heap) :
  rec_of <$> h = rec_of <$> L → task_line <$> h = task_line <$> L.
Proof.
  intros Hr.
  change task_line
    with ((λ r : nat * str * str * str,
             spaces (4 * r.1.1.1) ++ r.1.1.2 ++ colon :: r.1.2 ++ colon :: r.2)
          ∘ rec_of).
  by rewrite !list_fmap_compose, Hr.
Qed.

Lemma pre_forest_nil ts : pre_forest ts = [] → ts = [].
Proof. destruct ts as [|[r kids] ts]; [done|]. by rewrite pre_forest_cons. Qed.

(** Saving a forest and parsing the saved text gives the same trees. *)
Lemma reload_trees F :
  wf F → Forall clean (store F) →
  ∃ text F2 trs,
    save_text F = Ok text ∧
    parse_tasks_from_file (Text text) = Ok F2 ∧
    forest_trees F = Some trs ∧ forest_trees F2 = Some trs ∧
    save_text F2 = Ok text.
Proof.
  intros Hwf Hclean.
  destruct (forest_trees_walk F Hwf) as (trs & l & Htrs & Hflat & Hrows & Hdep & Hroll).
  destruct (rows_tasks _ _ _ Hrows) as (L & HL & Hrecs).
  assert (Forall clean L) as HcleanL.
  { apply Forall_forall. intros t [i Hi]%list_elem_of_lookup_1.
    destruct (Forall2_lookup_r _ _ _ _ _ HL Hi) as (y & _ & Hy).
    rewrite Forall_forall in Hclean. apply Hclean.
    by eapply list_elem_of_lookup_2. }
  assert (save_text F = Ok (join nl (task_line <$> L) ++ [nl])) as Hsave.
  { unfold save_text. rewrite Hflat. cbn [mbind result_bind].
    by rewrite (task_lines_tasks _ _ _ HL). }
  exists (join nl (task_line <$> L) ++ [nl]).
  destruct (decide (L = [])) as [->|Hne].
  { exists (mkForest [] []), trs. split; [done|]. split; [reflexivity|].
    split; [done|]. simpl in Hrecs. symmetry in Hrecs.
    apply pre_forest_nil in Hrecs. subst trs. split; reflexivity. }
  destruct (attach_all_fits (rec_of <$> L) p_init) as (st & Hst).
  { rewrite Hrecs. simpl. by apply ok_forest. }
  pose proof (attach_all_inv _ _ _ p_init_inv Hst) as Hinv.
  apply spine_laid in Hinv as Hlaid.
  pose proof (attach_all_recs _ _ _ Hst) as Hrecs2. simpl in Hrecs2.
  set (F2 := mkForest (p_heap st) (p_tasks st)).
  assert (linked (store F2) (roots F2)) as Hl2 by (by apply laid_linked).
  destruct (trees_walk _ _ (length (store F2)) Hl2 (roots F2) 0)
    as (trs2 & l2 & Htrs2 & Hflat2 & Hrows2 & Hdep2 & _ & Hroll2).
  { pose proof Hl2 as (_ & Hpar & Hroots).
    eapply Forall_impl; [exact Hroots|]. intros r (t & Ht & Hp).
    exists t. split; [done|]. split; [|lia].
    specialize (Hpar r t Ht). unfold parent_ok in Hpar. rewrite Hp in Hpar.
    by destruct Hpar. }
  rewrite (flatten_laid _ _ _ _ _ _ Hlaid _ []) in Hflat2 by (simpl; lia).
  injection Hflat2 as <-. simpl in Hrows2. rewrite Nat.sub_0_r in Hrows2.
  apply rows_of_seq in Hrows2.
  assert (trs2 = trs) as ->.
  { apply (pre_forest_inj 0); [done|done|]. simpl in *. congruence. }
  assert (wf F2) as Hwf2.
  { split; [done|]. intros y. destruct (decide (y < length (p_heap st))).
    - apply Hroll2.
      + apply Hroll. intros z _. apply Hwf.
      + rewrite Nat.sub_0_r. apply elem_of_seq. simpl. lia.
    - intros t Ht. apply lookup_lt_Some in Ht. simpl in Ht. lia. }
  assert (save_text F2 = Ok (join nl (task_line <$> L) ++ [nl])) as Hsave2.
  { rewrite (save_text_laid F2 Hlaid). do 3 f_equal. simpl.
    by apply task_lines_recs. }
  exists F2, trs. split; [done|]. split; [|done].
  unfold parse_tasks_from_file. simpl.
  rewrite (readlines_written L Hne HcleanL).
  rewrite (parse_written L p_init st HcleanL Hst). cbn [mbind result_bind].
  pose proof (walk_all_fixed F2 Hlaid Hwf2) as Hwalk. simpl in Hwalk.
  by rewrite Hwalk.
Qed.

(** *** Sessions with a dialog that checks its input *)

Lemma session_reachable f F : session f F → reachable f F.
Proof.
  induction 1.
  - by apply reach_mount.
  - by eapply reach_toggle.
  - by eapply reach_add.
Qed.

Lemma clean_set_status s t : s ∈ STATUS_CYCLE → clean t → clean (set_status s t).
Proof.
  intros (? & ? & ? & ?)%enum_clean (? & ? & ? & ? & _ & _ & _ & _ & ? & ?).
  unfold clean. simpl. done.
Qed.

Lemma restatus_clean h0 h' :
  restatus h0 h' → (∀ x, rollup_at h' x) → Forall clean h0 → Forall clean h'.
Proof.
  intros (Hlen & Hpt) Hroll Hclean. apply Forall_lookup_2. intros x t' Hx'.
  destruct (h0 !! x) as [t0|] eqn:Hx0.
  2:{ apply lookup_ge_None in Hx0. apply lookup_lt_Some in Hx'. lia. }
  destruct (Hpt x t0 Hx0) as (t'' & Hx'' & Hsame & Hleaf).
  rewrite Hx' in Hx''. injection Hx'' as <-.
  pose proof (Forall_lookup_1 _ _ _ _ Hclean Hx0) as Hc0.
  destruct (is_leaf t0) eqn:Hl0; [by rewrite Hleaf|].
  destruct (Hroll x t' Hx') as (ss & _ & Hst).
  { rewrite <- Hl0. symmetry. apply is_leaf_skel. by destruct Hsame as (_ & _ & ?). }
  destruct (enum_clean (status t')) as (? & ? & ? & ?).
  { rewrite Hst. apply rolled_enum. }
  destruct Hsame as (Hn & Hd & _).
  destruct Hc0 as (? & ? & ? & ? & _ & _ & _ & _ & ? & ?).
  unfold clean. rewrite <- Hn, <- Hd. done.
Qed.

Lemma add_store_clean par nm du h :
  Forall clean h → clean (mkTask nm OPEN du [] None 0) →
  Forall clean (add_store par nm du h).
Proof.
  intros Hh Hnew. unfold add_store. destruct par as [p|].
  - destruct (h !! p) as [tp|]; [|done]. apply Forall_alter.
    + apply Forall_app. split; [done|]. constructor; [apply Hnew|constructor].
    + intros t _ Ht. exact Ht.
  - apply Forall_app. split; [done|]. constructor; [done|constructor].
Qed.

Lemma session_clean f F : session f F → Forall clean (store F).
Proof.
  induction 1 as [F Hparse|F idx F' Hs IH Hact
                 |F idx button nv dv r F' Hs IH Hdlg Hpn Hpd Hhash Hact].
  - by destruct (parse_trace _ _ Hparse) as (_ & _ & _ & _ & ?).
  - pose proof (reachable_wf _ _ (session_reachable _ _ Hs)) as Hwf.
    unfold action_toggle_status in Hact.
    destruct (get_selected_task_total idx F (proj1 Hwf)) as (sel & Hsel & Hvalid).
    rewrite Hsel in Hact. cbn [mbind result_bind] in Hact.
    destruct sel as [task|]; [|by injection Hact as <-].
    destruct (Hvalid task eq_refl) as [t Ht].
    destruct (is_leaf t) eqn:Hleaf.
    + destruct (toggle_leaf F task t Hwf Ht Hleaf) as (F'' & HF'' & _ & Hre & _ & Hwf'').
      rewrite Hact in HF''. injection HF'' as <-.
      eapply restatus_clean; [exact Hre|apply Hwf''|].
      apply Forall_alter; [done|]. intros ? _ ?.
      apply clean_set_status; [apply cycled_enum|done].
    + rewrite (toggle_interior F task t Ht Hleaf) in Hact. by injection Hact as <-.
  - pose proof (reachable_wf _ _ (session_reachable _ _ Hs)) as Hwf.
    unfold action_add_subtask in Hact.
    destruct (get_selected_task_total idx F (proj1 Hwf)) as (sel & Hsel & Hvalid).
    rewrite Hsel in Hact. cbn [mbind result_bind] in Hact.
    destruct r as [[nm du]|]; [|by injection Hact as <-].
    destruct (add_subtask_worker_spec sel nm du F Hwf Hvalid)
      as (F'' & HF'' & Hprop & _ & Hwf'').
    rewrite Hact in HF''. injection HF'' as <-.
    apply propagate_up_restatus in Hprop as (Hre & _).
    eapply restatus_clean; [exact Hre|apply Hwf''|].
    apply add_store_clean; [done|].
    apply on_button_pressed_Some in Hdlg as (_ & -> & -> & Hne & Hcn & Hcd).
    destruct (enum_clean OPEN) as (? & ? & ? & (? & ?)); [by left|].
    destruct (plain_strip _ Hpn). destruct (plain_strip _ Hpd).
    unfold clean. simpl. repeat split; try done.
    all: try apply strip_stripped.
    intros s. by eapply Hhash.
Qed.

(** X19. In a session whose added tasks come out of the dialog, with
    input that holds no line break and names that do not start with a
    hash sign, every state can be saved and loaded again: [save_text]
    returns a text, [parse_tasks_from_file] parses it, and the forest it
    returns has the same trees as the saved one, so the same tasks with
    the same name, status, due text and depth under the same parents in
    the same order.  Saving the loaded forest writes the same text
    again. *)
Theorem round_trip_session f F :
  session f F →
  ∃ text F2 trs,
    save_text F = Ok text ∧
    parse_tasks_from_file (Text text) = Ok F2 ∧
    forest_trees F = Some trs ∧
    forest_trees F2 = Some trs ∧
    save_text F2 = Ok text.
Proof.
  intros Hs. apply reload_trees.
  - by apply (reachable_wf f), session_reachable.
  - by eapply session_clean.
Qed.

Lemma scenario_F_session : session scenario_C_file scenario_F.
Proof.
  eapply (session_add _ scenario_D (Some 1%Z) (lit "ok") (lit " B1") (lit "")
            (Some (lit "B1", lit ""))).
  - eapply (session_toggle _ scenario_D1 (Some 2%Z)); [|reflexivity].
    eapply (session_toggle _ scenario_C (Some 2%Z)); [|reflexivity].
    apply session_mount. reflexivity.
  - reflexivity.
  - by apply (bool_decide_unpack _).
  - by apply (bool_decide_unpack _).
  - intros nm du s [= <- <-]. discriminate.
  - reflexivity.
Qed.

Lemma round_trip_session_witness :
  session scenario_C_file scenario_F ∧
  ∃ text F2 trs,
    save_text scenario_F = Ok text ∧
    parse_tasks_from_file (Text text) = Ok F2 ∧
    forest_trees scenario_F = Some trs ∧
    forest_trees F2 = Some trs ∧
    save_text F2 = Ok text.
Proof.
  split; [exact scenario_F_session|].
  exact (round_trip_session _ _ scenario_F_session).
Defined.

(** *** The status of a task and the leaves below it *)

Lemma ancestor_trans h a b c : ancestor h a b → ancestor h b c → ancestor h a c.
Proof.
  intros Hab. induction 1 as [c t p Hc Hp|c t p b Hc Hp _ IH].
  - by eapply anc_up.
  - eapply anc_up; [done|done|]. by apply IH.
Qed.

Lemma rolled_all s ss :
  s = DONE ∨ s = OPEN → ss ≠ [] → (rolled ss = s ↔ all_eq s ss = true).
Proof.
  intros [->| ->] Hne; by destruct (rolled_cases ss Hne) as (? & ? & _).
Qed.

(** Below a task that is [DONE], or [OPEN], every task is so. *)
Lemma status_down F s i ti y ty :
  wf F → s = DONE ∨ s = OPEN →
  store F !! i = Some ti → status ti = s →
  ancestor (store F) i y → store F !! y = Some ty → status ty = s.
Proof.
  intros (Hl & Hroll) Hs Hi Hsi Hanc. revert ty.
  assert (∀ p tp x tx, store F !! p = Some tp → status tp = s →
            store F !! x = Some tx → parent tx = Some p → status tx = s) as Hstep.
  { intros p tp x tx Hp Hsp Hx Hpar.
    pose proof Hl as (_ & Hpok & _). specialize (Hpok x tx Hx).
    unfold parent_ok in Hpok. rewrite Hpar in Hpok.
    destruct Hpok as (tp' & Hp' & Hin). rewrite Hp in Hp'. injection Hp' as <-.
    destruct (Hroll p tp Hp) as (ss & Hss & Hst).
    { unfold is_leaf. destruct (children tp); [by apply elem_of_nil in Hin|done]. }
    assert (ss ≠ []) as Hne.
    { intros ->. destruct (children tp) as [|c cs]; [by apply elem_of_nil in Hin|].
      simpl in Hss. destruct (deref (store F) c); [|done|done]. simpl in Hss.
      by destruct (statuses (store F) cs). }
    rewrite Hst in Hsp. apply (rolled_all s ss Hs Hne) in Hsp.
    apply (statuses_all_eq _ _ _ s Hss) in Hsp. rewrite Forall_forall in Hsp.
    destruct (Hsp x Hin) as (tx' & Hx' & ?). congruence. }
  induction Hanc as [y t p Hy Hp|y t p a Hy Hp Hanc IH]; intros ty Hty.
  - rewrite Hy in Hty. injection Hty as <-.
    exact (Hstep _ _ _ _ Hi Hsi Hy Hp).
  - rewrite Hy in Hty. injection Hty as <-.
    destruct (linked_parent_lt _ _ _ _ _ Hl Hy Hp) as (_ & [tp Htp]).
    exact (Hstep _ _ _ _ Htp (IH Hi tp Htp) Hy Hp).
Qed.

(** A task with children is [DONE], or [OPEN], when every leaf below it
    is. *)
Lemma status_up F s :
  wf F → s = DONE ∨ s = OPEN →
  ∀ k i ti, length (store F) ≤ k + i →
    store F !! i = Some ti → is_leaf ti = false →
    leaves_below (store F) i s → status ti = s.
Proof.
  intros (Hl & Hroll) Hs. induction k as [|k IH]; intros i ti Hk Hi Hleaf Hbelow.
  { apply lookup_lt_Some in Hi. lia. }
  destruct (Hroll i ti Hi Hleaf) as (ss & Hss & ->).
  assert (ss ≠ []) as Hne.
  { intros ->. unfold is_leaf in Hleaf. destruct (children ti) as [|c cs]; [done|].
    simpl in Hss. destruct (deref (store F) c); [|done|done]. simpl in Hss.
    by destruct (statuses (store F) cs). }
  apply (rolled_all s ss Hs Hne), (statuses_all_eq _ _ _ s Hss).
  apply Forall_forall. intros c Hc.
  destruct (linked_child _ _ _ _ _ Hl Hi Hc) as (Hlt & tc & Htc & Hpc & _).
  exists tc. split; [done|].
  assert (ancestor (store F) i c) as Hanc by (by eapply anc_parent).
  destruct (is_leaf tc) eqn:Hlc; [by eapply Hbelow|].
  apply (IH c tc); [lia|done|done|].
  intros y ty Hy. apply Hbelow. by eapply ancestor_trans.
Qed.

(** X20. In every state of a session a task with children is [DONE]
    exactly when every leaf below it is [DONE], [OPEN] exactly when every
    leaf below it is [OPEN], and [IN_PROGRESS] in every other case. *)
Theorem status_from_leaves f F i t :
  reachable f F →
  store F !! i = Some t →
  children t ≠ [] →
  (status t = DONE ↔ leaves_below (store F) i DONE) ∧
  (status t = OPEN ↔ leaves_below (store F) i OPEN) ∧
  (status t = IN_PROGRESS ↔
     ¬ leaves_below (store F) i DONE ∧ ¬ leaves_below (store F) i OPEN).
Proof.
  intros Hwf%reachable_wf Hi Hne.
  assert (is_leaf t = false) as Hleaf.
  { unfold is_leaf. by destruct (children t). }
  assert (∀ s, s = DONE ∨ s = OPEN →
            (status t = s ↔ leaves_below (store F) i s)) as Hiff.
  { intros s Hs. split.
    - intros Hst y ty Hanc Hy _.
      exact (status_down F s i t y ty Hwf Hs Hi Hst Hanc Hy).
    - intros Hbelow.
      apply (status_up F s Hwf Hs (length (store F)) i t); [lia|done|done|done]. }
  split; [apply Hiff; by left|]. split; [apply Hiff; by right|].
  rewrite <- (Hiff DONE), <- (Hiff OPEN) by auto.
  destruct (proj2 Hwf i t Hi Hleaf) as (ss & _ & Hst).
  pose proof (rolled_enum ss) as Henum. rewrite <- Hst in Henum.
  apply cycle_elem in Henum. split.
  - intros ->. done.
  - intros (? & ?). by destruct Henum as [?|[?|?]].
Qed.

Lemma status_from_leaves_witness :
  reachable scenario_C_file scenario_F ∧
  store scenario_F !! 0 = Some (mkTask (lit "A") IN_PROGRESS [] [1; 2] None 0) ∧
  ¬ leaves_below (store scenario_F) 0 DONE.
Proof.
  split; [exact scenario_F_reachable|]. split; [reflexivity|].
  apply (status_from_leaves scenario_C_file scenario_F 0
           (mkTask (lit "A") IN_PROGRESS [] [1; 2] None 0) scenario_F_reachable).
  - reflexivity.
  - discriminate.
  - reflexivity.
Defined.
